(** * ORM query diagnostics: query_analyzer.py and explain_parser.py

    A shallow embedding of the two analysis scripts of the
    debugging-orm-queries skill, and the properties their specification
    states about them.

    Python [str] values are modelled as lists of 8-bit characters.  The
    character classes ([\s], [\d], [\w], [str.upper], [str.isdigit], ...)
    are the ones Python uses on code points below 128; the development is
    about ASCII text.  Python's [re] module is modelled by a backtracking
    matcher over a small regular-expression syntax, in which the patterns of
    the scripts are written out one for one.  Errors raised by Python
    ([IndexError], [ValueError]) are values of the result type [res]. *)

From Stdlib Require Import List Ascii ZArith QArith Lia Bool Arith Sorted.
From Stdlib Require String DecimalString.
From Stdlib Require Import SpecFloat.
Import ListNotations.
Import String.StringSyntax.

Set Implicit Arguments.
Set Warnings "-register-all".
Local Open Scope bool_scope.
Local Open Scope string_scope.
Local Open Scope Z_scope.
Local Open Scope nat_scope.
Local Open Scope list_scope.

(* ================================================================== *)
(** ** Python strings *)
(* ================================================================== *)

Module PyStr.

Definition str := list ascii.

(** A string literal of the source. *)
Definition py (s : String.string) : str := String.list_ascii_of_string s.
Arguments py : simpl never.

Definition code (c : ascii) : nat := nat_of_ascii c.

Definition in_range (lo hi : nat) (c : ascii) : bool :=
  (lo <=? code c) && (code c <=? hi).

Definition is_digit (c : ascii) : bool := in_range 48 57 c.
Definition is_upper_char (c : ascii) : bool := in_range 65 90 c.
Definition is_lower_char (c : ascii) : bool := in_range 97 122 c.
Definition is_alpha (c : ascii) : bool := is_upper_char c || is_lower_char c.

(** [\w]: letters, digits and the underscore. *)
Definition is_word (c : ascii) : bool :=
  is_alpha c || is_digit c || (code c =? 95).

(** [\s], and the separators of [str.split()] and [str.strip()]:
    TAB LF VT FF CR, FS GS RS US and the space. *)
Definition is_space (c : ascii) : bool := in_range 9 13 c || in_range 28 32 c.

Definition upper_char (c : ascii) : ascii :=
  if is_lower_char c then ascii_of_nat (code c - 32) else c.
Definition lower_char (c : ascii) : ascii :=
  if is_upper_char c then ascii_of_nat (code c + 32) else c.

(** [s.upper()] and [s.lower()] *)
Definition upper (s : str) : str := map upper_char s.
Definition lower (s : str) : str := map lower_char s.

(** [a == b] *)
Fixpoint str_eqb (a b : str) : bool :=
  match a, b with
  | [], [] => true
  | x :: a', y :: b' => Ascii.eqb x y && str_eqb a' b'
  | _, _ => false
  end.

(** [s.startswith(p)] *)
Fixpoint startswith (p s : str) : bool :=
  match p, s with
  | [], _ => true
  | _ :: _, [] => false
  | a :: p', c :: s' => Ascii.eqb a c && startswith p' s'
  end.

(** [sub in s] *)
Fixpoint contains (sub s : str) : bool :=
  startswith sub s ||
  match s with
  | [] => false
  | _ :: t => contains sub t
  end.

(** [s.strip()] *)
Fixpoint lstrip (s : str) : str :=
  match s with
  | c :: t => if is_space c then lstrip t else s
  | [] => []
  end.
Definition rstrip (s : str) : str := rev (lstrip (rev s)).
Definition strip (s : str) : str := rstrip (lstrip s).

Definition cons_nonempty (w : str) (ws : list str) : list str :=
  match w with
  | [] => ws
  | _ :: _ => w :: ws
  end.

(** [s.split()]: the maximal runs of non-blank characters.  The helper
    returns the run that starts at the head of [s] (empty when [s] starts
    with a blank) and the runs after it. *)
Fixpoint split_ws_go (s : str) : str * list str :=
  match s with
  | [] => ([], [])
  | c :: t =>
      let (w, ws) := split_ws_go t in
      if is_space c then ([], cons_nonempty w ws) else (c :: w, ws)
  end.
Definition split_ws (s : str) : list str :=
  let (w, ws) := split_ws_go s in cons_nonempty w ws.

(** [sep.join(l)] *)
Fixpoint join (sep : str) (l : list str) : str :=
  match l with
  | [] => []
  | [w] => w
  | w :: ws => w ++ sep ++ join sep ws
  end.

(** [s.split(sep)] for a non-empty separator: cut at the occurrences of
    [sep], scanning from the left; [skip] counts the characters of an
    occurrence still to pass over.  The helper returns the piece that
    starts at the head of [s] and the pieces after it. *)
Fixpoint split_go (sep s : str) (skip : nat) : str * list str :=
  match s with
  | [] => ([], [])
  | c :: t =>
      match skip with
      | S n => split_go sep t n
      | O =>
          if startswith sep s
          then let (w, ws) := split_go sep t (length sep - 1) in ([], w :: ws)
          else let (w, ws) := split_go sep t 0 in (c :: w, ws)
      end
  end.
Definition split (sep s : str) : list str :=
  let (w, ws) := split_go sep s 0 in w :: ws.

(** [s.isdigit()] *)
Definition isdigit (s : str) : bool :=
  match s with
  | [] => false
  | _ => forallb is_digit s
  end.

Definition digit_val (c : ascii) : Z := Z.of_nat (code c - 48).

(** The value of a run of decimal digits, most significant first. *)
Definition digits_val (s : str) : Z :=
  fold_left (fun acc c => 10 * acc + digit_val c)%Z s 0%Z.

(** [str(n)] for a natural number and for an integer. *)
Definition str_of_nat (n : nat) : str :=
  py (DecimalString.NilEmpty.string_of_uint (Nat.to_uint n)).
Definition str_of_Z (z : Z) : str :=
  py (DecimalString.NilEmpty.string_of_int (Z.to_int z)).

End PyStr.
Import PyStr.

(* ================================================================== *)
(** ** Errors *)
(* ================================================================== *)

Inductive pyexc : Type :=
| IndexError | ValueError | OverflowError | ZeroDivisionError | TypeError
| AttributeError | KeyError | RecursionError.

(** The outcome of a computation that may raise. *)
Inductive res (A : Type) : Type :=
| Ok (a : A)
| Raise (e : pyexc).
Arguments Ok {A} a.
Arguments Raise {A} e.

Definition bind {A B : Type} (x : res A) (f : A -> res B) : res B :=
  match x with
  | Ok a => f a
  | Raise e => Raise e
  end.

Notation "'do' x <- e ; k" := (bind e (fun x => k))
  (at level 10, x name, e at level 100, k at level 200).

Definition is_some {A : Type} (o : option A) : bool :=
  match o with Some _ => true | None => false end.

(** [l[i]] *)
Definition index {A : Type} (l : list A) (i : nat) : res A :=
  match nth_error l i with
  | Some a => Ok a
  | None => Raise IndexError
  end.

(** [max(l)] and [min(l)] on integers; the empty list raises. *)
Definition py_max (l : list Z) : res Z :=
  match l with
  | [] => Raise ValueError
  | x :: t => Ok (fold_left Z.max t x)
  end.
Definition py_min (l : list Z) : res Z :=
  match l with
  | [] => Raise ValueError
  | x :: t => Ok (fold_left Z.min t x)
  end.

(** The sign in front of a numeral, if there is one, and the numeral. *)
Definition cut_sign (s : str) : option bool * str :=
  match s with
  | c :: d =>
      if Ascii.eqb c "-" then (Some true, d)
      else if Ascii.eqb c "+" then (Some false, d)
      else (None, s)
  | [] => (None, s)
  end.

(** [sys.get_int_max_str_digits()]: the most digits [int] reads from a
    text, as Python sets it by default. *)
Definition int_max_str_digits : nat := 4300.

(** [int(s)] on an optional sign followed by decimal digits; a numeral of
    more digits than the limit, leading zeros counted, raises. *)
Definition py_int (s : str) : res Z :=
  let (sign, d) := cut_sign s in
  if isdigit d
  then if length d <=? int_max_str_digits
       then Ok (match sign with Some true => - digits_val d | _ => digits_val d end)%Z
       else Raise ValueError
  else Raise ValueError.

(** The decimal value of [ip.fp]. *)
Definition decimal_val (ip fp : str) : Q :=
  Qmake (digits_val (ip ++ fp)) (Z.to_pos (10 ^ Z.of_nat (length fp))).

(** The text before the first point, and the text after it if there is one. *)
Fixpoint cut_point (s : str) : str * option str :=
  match s with
  | [] => ([], None)
  | c :: t =>
      if Ascii.eqb c "."
      then ([], Some t)
      else let (a, b) := cut_point t in (c :: a, b)
  end.

Definition py_float_unsigned (s : str) : res Q :=
  match cut_point s with
  | (ip, None) => if isdigit ip then Ok (decimal_val ip []) else Raise ValueError
  | (ip, Some fp) =>
      if forallb is_digit ip && forallb is_digit fp
         && negb ((length ip =? 0)%nat && (length fp =? 0)%nat)
      then Ok (decimal_val ip fp)
      else Raise ValueError
  end.

(** [float(s)] on an optional sign followed by a decimal numeral with at
    most one point.  The result is the exact decimal value; Python rounds it
    to the nearest binary64 number, which keeps its sign. *)
Definition py_float (s : str) : res Q :=
  let (sign, d) := cut_sign s in
  do q <- py_float_unsigned d;
  Ok (match sign with Some true => - q | _ => q end)%Q.

(** A non-empty text that does not start with a sign. *)
Definition no_sign (s : str) : Prop :=
  exists c t, s = c :: t /\ Ascii.eqb c "-" = false /\ Ascii.eqb c "+" = false.

(* ================================================================== *)
(** ** Regular expressions *)
(* ================================================================== *)

Module Re.

(** The fragment of Python's pattern syntax the scripts use. *)
Inductive regex : Type :=
| Eps
| Chr (p : ascii -> bool)        (* a character or a character class *)
| Seq (a b : regex)
| Alt (a b : regex)              (* a|b, the left branch first *)
| Star (a : regex)               (* a*, greedy *)
| LazyStar (a : regex)           (* a*?, shortest first *)
| Grp (n : nat) (a : regex)      (* capture group number n *)
| Bol                            (* ^ *)
| WordB.                         (* \b *)

Definition Lit (c : ascii) : regex := Chr (Ascii.eqb c).
Definition NotLit (c : ascii) : regex := Chr (fun x => negb (Ascii.eqb c x)).
Definition Plus (a : regex) : regex := Seq a (Star a).
Definition LazyPlus (a : regex) : regex := Seq a (LazyStar a).
Definition Opt (a : regex) : regex := Alt a Eps.
Fixpoint Str (s : str) : regex :=
  match s with
  | [] => Eps
  | c :: t => Seq (Lit c) (Str t)
  end.
(** A literal text under [re.IGNORECASE]. *)
Fixpoint StrI (s : str) : regex :=
  match s with
  | [] => Eps
  | c :: t => Seq (Chr (fun x => Ascii.eqb (upper_char c) (upper_char x))) (StrI t)
  end.
Fixpoint Seqs (l : list regex) : regex :=
  match l with
  | [] => Eps
  | [a] => a
  | a :: t => Seq a (Seqs t)
  end.

Definition Space : regex := Chr is_space.        (* \s *)
Definition Digit : regex := Chr is_digit.        (* \d *)
Definition Word : regex := Chr is_word.          (* \w *)
(** [.] without [re.DOTALL]: anything but a line feed. *)
Definition Dot : regex := Chr (fun c => negb (Ascii.eqb c "010")).

(** A position of the matcher in the subject: the number of characters
    before it, the character just before it, the text from it on, and the
    groups captured so far (the latest capture of a group first). *)
Record mstate : Type := MState {
  pos : nat;
  prev : option ascii;
  rest : str;
  caps : list (nat * str)
}.

Definition advance (c : ascii) (t : str) (st : mstate) : mstate :=
  MState (S (pos st)) (Some c) t (caps st).

Definition capture (n : nat) (from to : mstate) : mstate :=
  MState (pos to) (prev to) (rest to)
         ((n, firstn (pos to - pos from) (rest from)) :: caps to).

Definition word_before (st : mstate) : bool :=
  match prev st with Some c => is_word c | None => false end.
Definition word_after (st : mstate) : bool :=
  match rest st with c :: _ => is_word c | [] => false end.

(** A matcher takes a position and a continuation, and hands every end
    position of its matches, in order of preference, to the continuation
    until the continuation accepts one. *)
Definition matcher : Type := mstate -> (mstate -> option mstate) -> option mstate.

(** The greedy star: one more iteration is tried before the continuation.
    An iteration that consumes nothing is not repeated.  [fuel] bounds the
    number of iterations; one more than the length of the text left is
    enough. *)
Fixpoint star_loop (body : matcher) (k : mstate -> option mstate)
  (fuel : nat) (st : mstate) {struct fuel} : option mstate :=
  match fuel with
  | O => k st
  | S f =>
      match body st (fun st' => if pos st <? pos st' then star_loop body k f st'
                                else None) with
      | Some x => Some x
      | None => k st
      end
  end.

(** The lazy star: the continuation is tried before one more iteration. *)
Fixpoint lazy_loop (body : matcher) (k : mstate -> option mstate)
  (fuel : nat) (st : mstate) {struct fuel} : option mstate :=
  match fuel with
  | O => k st
  | S f =>
      match k st with
      | Some x => Some x
      | None => body st (fun st' => if pos st <? pos st' then lazy_loop body k f st'
                                    else None)
      end
  end.

(** The backtracking matcher of a pattern, in continuation-passing style. *)
Fixpoint m (r : regex) : matcher :=
  fun st k =>
  match r with
  | Eps => k st
  | Chr p =>
      match rest st with
      | c :: t => if p c then k (advance c t st) else None
      | [] => None
      end
  | Seq a b => m a st (fun st' => m b st' k)
  | Alt a b =>
      match m a st k with
      | Some x => Some x
      | None => m b st k
      end
  | Star a => star_loop (m a) k (S (length (rest st))) st
  | LazyStar a => lazy_loop (m a) k (S (length (rest st))) st
  | Grp n a => m a st (fun st' => k (capture n st st'))
  | Bol => if pos st =? 0 then k st else None
  | WordB => if xorb (word_before st) (word_after st) then k st else None
  end.

(** One attempt to match [r] at a position. *)
Definition match_at (r : regex) (p : nat) (pv : option ascii) (s : str)
  : option mstate :=
  m r (MState p pv s []) Some.

(** [match.group(n)]: [None] when the group took no part in the match. *)
Fixpoint group (n : nat) (cs : list (nat * str)) : option str :=
  match cs with
  | [] => None
  | (i, s) :: t => if i =? n then Some s else group n t
  end.

(** [re.match(r, s)] *)
Definition re_match (r : regex) (s : str) : option mstate :=
  match_at r 0 None s.

(** [re.search(r, s)]: the first position where an attempt succeeds; the
    start of the match comes with it. *)
Fixpoint search_from (r : regex) (p : nat) (pv : option ascii) (s : str)
  : option (nat * mstate) :=
  match match_at r p pv s with
  | Some st => Some (p, st)
  | None =>
      match s with
      | [] => None
      | c :: t => search_from r (S p) (Some c) t
      end
  end.
Definition re_search (r : regex) (s : str) : option (nat * mstate) :=
  search_from r 0 None s.

(** [re.sub(r, repl, s)] for a constant replacement: the matches are
    replaced from left to right and do not overlap; [skip] counts the
    characters of the current match still to pass over. *)
Fixpoint sub_from (r : regex) (repl : str) (p : nat) (pv : option ascii)
  (s : str) (skip : nat) : str :=
  match s with
  | [] =>
      match match_at r p pv [] with
      | Some _ => repl
      | None => []
      end
  | c :: t =>
      match skip with
      | S n => sub_from r repl (S p) (Some c) t n
      | O =>
          match match_at r p pv s with
          | Some st =>
              match pos st - p with
              | S n => repl ++ sub_from r repl (S p) (Some c) t n
              | O => repl ++ c :: sub_from r repl (S p) (Some c) t 0
              end
          | None => c :: sub_from r repl (S p) (Some c) t 0
          end
      end
  end.
Definition re_sub (r : regex) (repl s : str) : str := sub_from r repl 0 None s 0.

(** [re.findall(r, s)] for a pattern with one group (the texts of the
    group) and for a pattern without groups (the texts of the matches). *)
Fixpoint findall_from (r : regex) (grp : option nat) (p : nat)
  (pv : option ascii) (s : str) (skip : nat) : list str :=
  match s with
  | [] => []
  | c :: t =>
      match skip with
      | S n => findall_from r grp (S p) (Some c) t n
      | O =>
          match match_at r p pv s with
          | Some st =>
              let found :=
                match grp with
                | Some g => match group g (caps st) with Some x => x | None => [] end
                | None => firstn (pos st - p) s
                end in
              found :: findall_from r grp (S p) (Some c) t (pos st - p - 1)
          | None => findall_from r grp (S p) (Some c) t 0
          end
      end
  end.
Definition re_findall (r : regex) (grp : option nat) (s : str) : list str :=
  findall_from r grp 0 None s 0.

End Re.
Import Re.

(** *** The declarative reading of the patterns *)

Module ReSem.

(** Zero or more steps of a relation. *)
Inductive iter (R : mstate -> mstate -> Prop) : mstate -> mstate -> Prop :=
| iter_nil : forall st, iter R st st
| iter_cons : forall st mid st', R st mid -> iter R mid st' -> iter R st st'.

(** What a successful match of [r] from [st] to [st'] took: the declarative
    reading of the patterns, without the order of preference. *)
Fixpoint reach (r : regex) (st st' : mstate) : Prop :=
  match r with
  | Eps => st' = st
  | Chr p => exists c t, rest st = c :: t /\ p c = true /\ st' = advance c t st
  | Seq a b => exists mid, reach a st mid /\ reach b mid st'
  | Alt a b => reach a st st' \/ reach b st st'
  | Star a => iter (reach a) st st'
  | LazyStar a => iter (reach a) st st'
  | Grp n a => exists st1, reach a st st1 /\ st' = capture n st st1
  | Bol => pos st = 0 /\ st' = st
  | WordB => xorb (word_before st) (word_after st) = true /\ st' = st
  end.


(** Every group of [r] captures only texts that satisfy [Q]. *)
Fixpoint grp_inv (Q : str -> Prop) (r : regex) : Prop :=
  match r with
  | Seq a b => grp_inv Q a /\ grp_inv Q b
  | Alt a b => grp_inv Q a /\ grp_inv Q b
  | Star a => grp_inv Q a
  | LazyStar a => grp_inv Q a
  | Grp n a =>
      (forall st st1, reach a st st1 -> Q (firstn (pos st1 - pos st) (rest st)))
      /\ grp_inv Q a
  | _ => True
  end.

(** Every match of [r] passes over a character of the class [q]. *)
Fixpoint requires (q : ascii -> bool) (r : regex) : Prop :=
  match r with
  | Chr p => forall c, p c = true -> q c = true
  | Seq a b => requires q a \/ requires q b
  | Alt a b => requires q a /\ requires q b
  | Grp _ a => requires q a
  | _ => False
  end.
End ReSem.
Import ReSem.

(* ================================================================== *)
(** ** query_analyzer.py *)
(* ================================================================== *)

Module QueryAnalyzer.

(** The patterns of [normalize_query]. *)

(** [^Executing \([^)]+\):\s*] *)
Definition re_executing : regex :=
  Seqs [Bol; Str (py "Executing ("); Plus (NotLit ")"); Str (py "):"); Star Space].

(** [^Query:\s*] *)
Definition re_query : regex := Seqs [Bol; Str (py "Query:"); Star Space].

(** ['(?:[^'\\]|\\.)*'] *)
Definition re_string_literal : regex :=
  Seqs [Lit "'";
        Star (Alt (Chr (fun c => negb (Ascii.eqb c "'" || Ascii.eqb c "\")))
                  (Seq (Lit "\") Dot));
        Lit "'"].

(** [\b\d+(?:\.\d+)?\b] *)
Definition re_number : regex :=
  Seqs [WordB; Plus Digit; Opt (Seq (Lit ".") (Plus Digit)); WordB].

(** [IN\s*\([^)]+\)] with [re.IGNORECASE] *)
Definition re_in_list : regex :=
  Seqs [StrI (py "IN"); Star Space; Lit "("; Plus (NotLit ")"); Lit ")"].

(** [\$\d+] *)
Definition re_dollar : regex := Seq (Lit "$") (Plus Digit).

(** [:\w+] *)
Definition re_named : regex := Seq (Lit ":") (Plus Word).

(** [%\(\w+\)s] *)
Definition re_pyformat : regex :=
  Seqs [Str (py "%("); Plus Word; Str (py ")s")].

(** [%s] *)
Definition re_format : regex := Str (py "%s").

(** Normalize a query for comparison (replace literals with placeholders). *)
Definition normalize_query (sql : str) : str :=
  (* Remove ORM prefixes *)
  let sql := re_sub re_executing [] sql in
  let sql := re_sub re_query [] sql in
  (* Normalize whitespace *)
  let sql := join (py " ") (split_ws sql) in
  (* Replace string literals *)
  let sql := re_sub re_string_literal (py "'?'") sql in
  (* Replace numeric literals *)
  let sql := re_sub re_number (py "?") sql in
  (* Replace IN lists *)
  let sql := re_sub re_in_list (py "IN (?)") sql in
  (* Replace parameter placeholders *)
  let sql := re_sub re_dollar (py "?") sql in
  let sql := re_sub re_named (py "?") sql in
  let sql := re_sub re_pyformat (py "?") sql in
  let sql := re_sub re_format (py "?") sql in
  upper sql.

(** Represents a parsed SQL query. *)
Record Query : Type := mkQuery {
  raw : str;
  normalized : str;
  query_type : str;            (* SELECT, INSERT, UPDATE, DELETE *)
  tables : list str;
  has_where : bool;
  has_limit : bool;
  has_join : bool;
  selects_all : bool;
  param_count : nat
}.

(** Represents a detected issue. *)
Record Issue : Type := mkIssue {
  severity : str;              (* HIGH, MEDIUM, LOW *)
  category : str;
  message : str;
  queries : list str;
  suggestion : str
}.

(** The double quote. *)
Definition dquote : ascii := "034".

(** [(?:FROM|JOIN|INTO|UPDATE)\s+["\']?(\w+)["\']?] *)
Definition table_pattern : regex :=
  Seqs [Alt (Str (py "FROM")) (Alt (Str (py "JOIN"))
          (Alt (Str (py "INTO")) (Str (py "UPDATE"))));
        Plus Space;
        Opt (Chr (fun c => Ascii.eqb c dquote || Ascii.eqb c "'"));
        Grp 1 (Plus Word);
        Opt (Chr (fun c => Ascii.eqb c dquote || Ascii.eqb c "'"))].

(** [SELECT\s+\*] *)
Definition re_select_star : regex :=
  Seqs [Str (py "SELECT"); Plus Space; Lit "*"].

(** [\$\d+|\?|:\w+|%\(\w+\)s|%s] *)
Definition re_param : regex :=
  Alt re_dollar (Alt (Lit "?") (Alt re_named (Alt re_pyformat re_format))).

(** [list(set(l))]: the distinct elements of [l].  Python leaves their
    order open; the scripts only take the length of the result. *)
Definition list_set (l : list str) : list str := nodup (list_eq_dec ascii_dec) l.

(** Parse a SQL query and extract metadata. *)
Definition parse_query (sql : str) : Query :=
  let normalized := normalize_query sql in
  let upper_sql := upper sql in
  (* Determine query type *)
  let query_type :=
    if startswith (py "SELECT") (strip upper_sql) then py "SELECT"
    else if startswith (py "INSERT") (strip upper_sql) then py "INSERT"
    else if startswith (py "UPDATE") (strip upper_sql) then py "UPDATE"
    else if startswith (py "DELETE") (strip upper_sql) then py "DELETE"
    else py "OTHER" in
  (* Extract table names (simplified) *)
  let tables := re_findall table_pattern (Some 1) upper_sql in
  let tables := list_set tables in
  (* Check for various patterns *)
  let has_where := contains (py "WHERE") upper_sql in
  let has_limit := contains (py "LIMIT") upper_sql in
  let has_join := contains (py "JOIN") upper_sql in
  let selects_all := is_some (re_search re_select_star upper_sql) in
  (* Count parameters *)
  let param_count := length (re_findall re_param None sql) in
  mkQuery sql normalized query_type tables has_where has_limit has_join
          selects_all param_count.

(** A [defaultdict(list)] keyed by strings: the keys in the order of their
    first insertion, each with the values appended to it. *)
Definition dict (V : Type) : Type := list (str * list V).

(** [d[k].append(v)] *)
Fixpoint dict_append {V : Type} (k : str) (v : V) (d : dict V) : dict V :=
  match d with
  | [] => [(k, [v])]
  | (k', l) :: t =>
      if str_eqb k' k then (k', l ++ [v]) :: t else (k', l) :: dict_append k v t
  end.

(** [enumerate(l)] *)
Definition enumerate {A : Type} (l : list A) : list (nat * A) :=
  combine (seq 0 (length l)) l.

Definition n_plus_one_issue (occurrences : list (nat * Query)) : Issue :=
  mkIssue (py "HIGH") (py "N+1 Query")
    (py "Detected " ++ str_of_nat (length occurrences)
        ++ py " similar queries executed in sequence")
    (map (fun iq => raw (snd iq)) (firstn 3 occurrences))
    (py "Use eager loading (include/preload/prefetch_related) to fetch related data in one query").

(** The second loop of [detect_n_plus_one], over the items of the groups. *)
Fixpoint n_plus_one_groups (items : dict (nat * Query)) (issues : list Issue)
  : res (list Issue) :=
  match items with
  | [] => Ok issues
  | (_, occurrences) :: t =>
      if 3 <=? length occurrences then
        (* Check if they're roughly consecutive *)
        let indices := map (fun iq => Z.of_nat (fst iq)) occurrences in
        do hi <- py_max indices;
        do lo <- py_min indices;
        if (hi - lo <=? Z.of_nat (length occurrences) * 2)%Z
        then n_plus_one_groups t (issues ++ [n_plus_one_issue occurrences])
        else n_plus_one_groups t issues
      else n_plus_one_groups t issues
  end.

(** Detect N+1 query patterns.  The result is [None] where the source
    returns [None]. *)
Definition detect_n_plus_one (queries : list Query) : res (option (list Issue)) :=
  let normalized_groups :=
    fold_left (fun d iq => dict_append (normalized (snd iq)) iq d)
              (enumerate queries) [] in
  do issues <- n_plus_one_groups normalized_groups [];
  Ok (match issues with [] => None | _ :: _ => Some issues end).

Definition missing_where_issue (q : Query) : Issue :=
  mkIssue (py "MEDIUM") (py "Missing WHERE")
    (py "SELECT query without WHERE clause may cause full table scan")
    [raw q]
    (py "Add WHERE clause or LIMIT to prevent scanning entire table").

(** Detect SELECT queries without WHERE clause (potential full table scans). *)
Definition detect_missing_where (queries : list Query) : list Issue :=
  fold_left
    (fun issues q =>
       if str_eqb (query_type q) (py "SELECT") && negb (has_where q)
          && negb (has_limit q)
       then issues ++ [missing_where_issue q]
       else issues)
    queries [].

(** Detect SELECT * queries (over-fetching). *)
Definition detect_select_star (queries : list Query) : list Issue :=
  let select_star_queries :=
    filter (fun q => selects_all q && str_eqb (query_type q) (py "SELECT"))
           queries in
  match select_star_queries with
  | [] => []
  | _ :: _ =>
      [mkIssue (py "LOW") (py "SELECT *")
         (py "Found " ++ str_of_nat (length select_star_queries)
             ++ py " queries using SELECT *")
         (map raw (firstn 3 select_star_queries))
         (py "Select only needed columns to reduce data transfer and memory usage")]
  end.

(** Detect identical queries executed multiple times. *)
Definition detect_duplicate_queries (queries : list Query) : list Issue :=
  let query_counts :=
    fold_left (fun d q => dict_append (raw q) q d) queries [] in
  fold_left
    (fun issues item =>
       let '(raw_query, occurrences) := item in
       if 3 <=? length occurrences
       then issues ++
            [mkIssue (py "MEDIUM") (py "Duplicate Query")
               (py "Identical query executed " ++ str_of_nat (length occurrences)
                   ++ py " times")
               [raw_query]
               (py "Consider caching the result or restructuring code to avoid repeated queries")]
       else issues)
    query_counts [].

Definition cartesian_join_issue (q : Query) : Issue :=
  mkIssue (py "HIGH") (py "Cartesian Join")
    (py "Possible Cartesian join detected (comma-separated tables)")
    [raw q]
    (py "Use explicit JOIN with ON clause to specify relationship").

(** The condition of the inner [if] of [detect_cartesian_join]:
    [(not q.has_join and ',' in q.raw.upper().split('FROM')[1].split('WHERE')[0])
     if 'FROM' in q.raw.upper() else False]. *)
Definition comma_in_from (q : Query) : res bool :=
  if contains (py "FROM") (upper (raw q)) then
    if negb (has_join q) then
      do after <- index (split (py "FROM") (upper (raw q))) 1;
      do clause <- index (split (py "WHERE") after) 0;
      Ok (contains (py ",") clause)
    else Ok false
  else Ok false.

(** Detect potential Cartesian joins (multiple tables without proper
    JOIN/WHERE). *)
Fixpoint cartesian_join_loop (queries : list Query) (issues : list Issue)
  : res (list Issue) :=
  match queries with
  | [] => Ok issues
  | q :: t =>
      if str_eqb (query_type q) (py "SELECT") && (1 <? length (tables q)) then
        (* Check for comma-separated tables without JOIN keyword *)
        do found <- comma_in_from q;
        if found
        then cartesian_join_loop t (issues ++ [cartesian_join_issue q])
        else cartesian_join_loop t issues
      else cartesian_join_loop t issues
  end.
Definition detect_cartesian_join (queries : list Query) : res (list Issue) :=
  cartesian_join_loop queries [].

(** Run all analyzers and collect issues. *)
Definition analyze_queries (queries : list Query) : res (list Issue) :=
  (* N+1 detection *)
  do n_plus_one <- detect_n_plus_one queries;
  let all_issues :=
    match n_plus_one with
    | Some (i :: l) => i :: l
    | _ => []
    end in
  (* Other detections *)
  let all_issues := all_issues ++ detect_missing_where queries in
  let all_issues := all_issues ++ detect_select_star queries in
  let all_issues := all_issues ++ detect_duplicate_queries queries in
  do cartesian <- detect_cartesian_join queries;
  Ok (all_issues ++ cartesian).

End QueryAnalyzer.

(* ================================================================== *)
(** ** explain_parser.py *)
(* ================================================================== *)

Module ExplainParser.

(** The Python values a plan node can hold: what [json.loads] returns,
    [None], and the numbers the text parsers compute.  A [dict] is the list
    of its items; a key is looked up from the left. *)
Inductive pyval : Type :=
| PNone
| PBool (b : bool)
| PInt (z : Z)
| PFloat (q : Q)
| PStr (s : str)
| PList (l : list pyval)
| PDict (d : list (str * pyval)).

(** Represents a node in the query plan. *)
Record ExplainNode : Type := mkNode {
  node_type : pyval;
  relation : pyval;
  cost : pyval;
  rows : pyval;
  actual_time : option Q;
  actual_rows : option Z;
  loops : option Z;
  children : list pyval;
  raw : str;
  warnings : list str
}.

(** Represents a detected issue in the plan. *)
Record ExplainIssue : Type := mkIssue {
  severity : str;              (* HIGH, MEDIUM, LOW *)
  issue_node_type : str;
  message : str;
  suggestion : str
}.

(** *** Binary64 arithmetic of the row-ratio test *)

Definition prec : Z := 53.
Definition emax : Z := 1024.

Definition float_of_Z (z : Z) : spec_float :=
  match z with
  | Z0 => S754_zero false
  | Zpos p => binary_normalize prec emax (Zpos p) 0 false
  | Zneg p => binary_normalize prec emax (Zneg p) 0 false
  end.

(** [a / b] on integers: the quotient rounded once to the nearest binary64
    number; a zero divisor and a quotient beyond the range raise. *)
Definition true_div (a b : Z) : res spec_float :=
  match a, b with
  | _, Z0 => Raise ZeroDivisionError
  | Z0, _ => Ok (S754_zero (b <? 0)%Z)
  | _, _ =>
      let sign := xorb (a <? 0)%Z (b <? 0)%Z in
      let '(mz, ez, lz) :=
        SFdiv_core_binary prec emax (Z.abs a) 0 (Z.abs b) 0 in
      match binary_round_aux prec emax sign mz ez lz with
      | S754_infinity _ => Raise OverflowError
      | q => Ok q
      end
  end.

(** The literals [10] and [0.1] of the test, the second one as the binary64
    number Python reads it as: 7205759403792794 * 2^-56. *)
Definition float_10 : spec_float := float_of_Z 10.
Definition float_0_1 : spec_float := S754_finite false 7205759403792794 (-56).

Definition float_gt (x y : spec_float) : bool := SFltb y x.
Definition float_lt (x y : spec_float) : bool := SFltb x y.

(** *** The PostgreSQL text format *)

Definition digit_or_dot (c : ascii) : bool := is_digit c || Ascii.eqb c ".".

(** [^[\s\->]*([\w\s]+?)(?:\s+on\s+([\w\.]+))?\s*]
    [\(cost=([\d.]+)\.\.([\d.]+)\s+rows=(\d+)\s+width=(\d+)\)]
    [(?:\s*\(actual time=([\d.]+)\.\.([\d.]+)\s+rows=(\d+)\s+loops=(\d+)\))?] *)
Definition node_pattern : regex :=
  Seqs [Bol;
        Star (Chr (fun c => is_space c || Ascii.eqb c "-" || Ascii.eqb c ">"));
        Grp 1 (LazyPlus (Chr (fun c => is_word c || is_space c)));
        Opt (Seqs [Plus Space; Str (py "on"); Plus Space;
                   Grp 2 (Plus (Chr (fun c => is_word c || Ascii.eqb c ".")))]);
        Star Space;
        Str (py "(cost="); Grp 3 (Plus (Chr digit_or_dot));
        Str (py ".."); Grp 4 (Plus (Chr digit_or_dot));
        Plus Space; Str (py "rows="); Grp 5 (Plus Digit);
        Plus Space; Str (py "width="); Grp 6 (Plus Digit);
        Lit ")";
        Opt (Seqs [Star Space;
                   Str (py "(actual time="); Grp 7 (Plus (Chr digit_or_dot));
                   Str (py ".."); Grp 8 (Plus (Chr digit_or_dot));
                   Plus Space; Str (py "rows="); Grp 9 (Plus Digit);
                   Plus Space; Str (py "loops="); Grp 10 (Plus Digit);
                   Lit ")"])].

(** [shared read=(\d+)] *)
Definition re_shared_read : regex :=
  Seq (Str (py "shared read=")) (Grp 1 (Plus Digit)).

(** [float(m.group(n))] and [int(m.group(n))]; a group that took no part in
    the match is [None], which neither accepts. *)
Definition float_group (n : nat) (st : mstate) : res Q :=
  match group n (caps st) with
  | Some s => py_float s
  | None => Raise TypeError
  end.
Definition int_group (n : nat) (st : mstate) : res Z :=
  match group n (caps st) with
  | Some s => py_int s
  | None => Raise TypeError
  end.

Definition pystr_opt (o : option str) : pyval :=
  match o with Some s => PStr s | None => PNone end.

Definition seq_scan_issue (node_type : str) (relation : option str) : ExplainIssue :=
  mkIssue (py "MEDIUM") node_type
    (py "Sequential scan on " ++
       match relation with
       | Some (c :: r) => c :: r
       | _ => py "table"
       end)
    (py "Consider adding an index on filtered/joined columns").

Definition mismatch_issue (node_type : str) (estimated_rows actual_rows : Z)
  : ExplainIssue :=
  mkIssue (py "MEDIUM") node_type
    (py "Row estimate mismatch: estimated " ++ str_of_Z estimated_rows
        ++ py ", actual " ++ str_of_Z actual_rows)
    (py "Run ANALYZE on the table to update statistics").

Definition nested_loop_issue (node_type : str) (loops : Z) : ExplainIssue :=
  mkIssue (py "HIGH") node_type
    (py "Nested loop with " ++ str_of_Z loops ++ py " iterations")
    (py "Consider using a hash or merge join, or add an index").

Definition sort_spill_issue : ExplainIssue :=
  mkIssue (py "HIGH") (py "Sort") (py "Sort spilling to disk")
    (py "Increase work_mem or optimize query to reduce sort size").

Definition buffer_issue (pages : str) : ExplainIssue :=
  mkIssue (py "LOW") (py "Buffer")
    (py "High buffer reads: " ++ pages ++ py " pages")
    (py "Query may benefit from caching or index optimization").

(** The row-ratio test of a node:
    [if actual_rows is not None and estimated_rows > 0:]
    [ratio = actual_rows / estimated_rows; if ratio > 10 or ratio < 0.1: ...] *)
Definition ratio_issues (node_type : str) (estimated_rows : Z)
  (actual_rows : option Z) : res (list ExplainIssue) :=
  match actual_rows with
  | Some actual =>
      if (0 <? estimated_rows)%Z then
        do ratio <- true_div actual estimated_rows;
        if float_gt ratio float_10 || float_lt ratio float_0_1
        then Ok [mismatch_issue node_type estimated_rows actual]
        else Ok []
      else Ok []
  | None => Ok []
  end.

(** The body of [if node_match:]: the node of a matched line and the issues
    detected on it. *)
Definition node_of_match (line : str) (node_match : mstate)
  : res (ExplainNode * list ExplainIssue) :=
  let node_type := strip (match group 1 (caps node_match) with
                          | Some s => s | None => [] end) in
  let relation := group 2 (caps node_match) in
  do startup_cost <- float_group 3 node_match;
  do total_cost <- float_group 4 node_match;
  do estimated_rows <- int_group 5 node_match;
  do actual <-
    match group 7 (caps node_match) with
    | Some (_ :: _) =>
        do actual_time <- float_group 8 node_match;
        do actual_rows <- int_group 9 node_match;
        do loops <- int_group 10 node_match;
        Ok (Some actual_time, Some actual_rows, Some loops)
    | _ => Ok (None, None, None)
    end;
  let '(actual_time, actual_rows, loops) := actual in
  let node :=
    mkNode (PStr node_type) (pystr_opt relation) (PFloat total_cost)
           (PInt estimated_rows) actual_time actual_rows loops [] line [] in
  (* Detect issues *)
  let issues :=
    if contains (py "Seq Scan") node_type
    then [seq_scan_issue node_type relation] else [] in
  do ratio <- ratio_issues node_type estimated_rows actual_rows;
  let issues := issues ++ ratio in
  let issues :=
    issues ++
    match loops with
    | Some n =>
        if contains (py "Nested Loop") node_type && negb (n =? 0)%Z
           && (100 <? n)%Z
        then [nested_loop_issue node_type n] else []
    | None => []
    end in
  Ok (node, issues).

(** The checks for other warning patterns, made on every line that is not a
    footer. *)
Definition line_warnings (line : str) : res (list ExplainIssue) :=
  let issues :=
    if contains (py "Sort Method: external") line then [sort_spill_issue] else [] in
  if contains (py "Buffers: shared read") line then
    (* High buffer reads might indicate cache misses *)
    match re_search re_shared_read line with
    | Some (_, buffer_match) =>
        do pages <- int_group 1 buffer_match;
        if (10000 <? pages)%Z
        then Ok (issues ++
                 [buffer_issue (match group 1 (caps buffer_match) with
                                | Some s => s | None => [] end)])
        else Ok issues
    | None => Ok issues
    end
  else Ok issues.

Definition is_footer (line : str) : bool :=
  existsb (fun p => startswith p (strip line))
          [py "Planning"; py "Execution"; py "Total runtime"].

(** One turn of the loop over the lines: the node of the line, if it has
    one, and the issues of the line. *)
Definition postgres_line (line : str)
  : res (option ExplainNode * list ExplainIssue) :=
  (* Skip planning/execution time lines *)
  if is_footer line then Ok (None, [])
  else
    do found <-
      match re_match node_pattern line with
      | Some node_match =>
          do ni <- node_of_match line node_match;
          Ok (Some (fst ni), snd ni)
      | None => Ok (None, [])
      end;
    do warn <- line_warnings line;
    Ok (fst found, snd found ++ warn).

Definition newline : str := ["010"%char].

Fixpoint postgres_lines (lines : list str)
  (nodes : list ExplainNode) (issues : list ExplainIssue)
  : res (list ExplainNode * list ExplainIssue) :=
  match lines with
  | [] => Ok (nodes, issues)
  | line :: t =>
      do r <- postgres_line line;
      postgres_lines t
        (match fst r with Some n => nodes ++ [n] | None => nodes end)
        (issues ++ snd r)
  end.

(** Parse PostgreSQL EXPLAIN ANALYZE output. *)
Definition parse_postgres_explain (text : str)
  : res (list ExplainNode * list ExplainIssue) :=
  postgres_lines (split newline (strip text)) [] [].

(** *** The MySQL tabular format *)

Definition full_table_scan_issue (table : str) : ExplainIssue :=
  mkIssue (py "HIGH") (py "Full Table Scan")
    (py "Full table scan on " ++ table)
    (py "Add an index on columns used in WHERE/JOIN").

Definition full_index_scan_issue (table : str) : ExplainIssue :=
  mkIssue (py "MEDIUM") (py "Full Index Scan")
    (py "Full index scan on " ++ table)
    (py "Query may not be using index efficiently").

Definition filesort_issue : ExplainIssue :=
  mkIssue (py "MEDIUM") (py "Filesort") (py "Using filesort for ORDER BY")
    (py "Add index that matches ORDER BY columns").

Definition temporary_issue : ExplainIssue :=
  mkIssue (py "MEDIUM") (py "Temporary Table") (py "Creating temporary table")
    (py "Optimize query to avoid temporary tables").

(** [str(x)] of an optional text, as an f-string prints it. *)
Definition format_opt (o : option str) : str :=
  match o with Some s => s | None => py "None" end.

(** The header test: ['select_type' in line.lower() or line.startswith('+')]. *)
Definition is_header (line : str) : bool :=
  contains (py "select_type") (lower line) || startswith (py "+") line.

(** [[p.strip() for p in line.split('|') if p.strip()]] *)
Definition cells (line : str) : list str :=
  map strip (filter (fun p => negb (str_eqb (strip p) []))
                    (split (py "|") line)).

(** The body of [if len(parts) >= 10:].  Python's
    [parts[i] if len(parts) > i else None] is [nth_error parts i]. *)
Definition node_of_cells (line : str) (parts : list str)
  : res (ExplainNode * list ExplainIssue) :=
  (* id, select_type, table, partitions, type, possible_keys, key, key_len,
     ref, rows, filtered, Extra *)
  let table := nth_error parts 2 in
  let access_type := nth_error parts 4 in
  let key := nth_error parts 6 in
  do rows <-
    match nth_error parts 9 with
    | Some p => if isdigit p then do n <- py_int p; Ok (PInt n) else Ok PNone
    | None => Ok PNone
    end;
  let extra := match nth_error parts 11 with Some e => e | None => [] end in
  let node :=
    mkNode (match access_type with
            | Some (c :: a) => PStr (c :: a)
            | _ => PStr (py "UNKNOWN")
            end)
           (pystr_opt table) PNone rows None None None [] line [] in
  (* Detect issues *)
  let is_type (t : str) :=
    match access_type with Some a => str_eqb a t | None => false end in
  let issues :=
    (if is_type (py "ALL") then [full_table_scan_issue (format_opt table)] else [])
    ++ (if is_type (py "index") then [full_index_scan_issue (format_opt table)] else [])
    ++ (if contains (py "Using filesort") extra then [filesort_issue] else [])
    ++ (if contains (py "Using temporary") extra then [temporary_issue] else []) in
  Ok (node, issues).

(** One turn of the loop over the rows. *)
Definition mysql_line (line : str)
  : res (option ExplainNode * list ExplainIssue) :=
  (* Skip header lines *)
  if is_header line then Ok (None, [])
  else
    let parts := cells line in
    if 10 <=? length parts then
      do ni <- node_of_cells line parts;
      Ok (Some (fst ni), snd ni)
    else Ok (None, []).

Fixpoint mysql_lines (lines : list str)
  (nodes : list ExplainNode) (issues : list ExplainIssue)
  : res (list ExplainNode * list ExplainIssue) :=
  match lines with
  | [] => Ok (nodes, issues)
  | line :: t =>
      do r <- mysql_line line;
      mysql_lines t
        (match fst r with Some n => nodes ++ [n] | None => nodes end)
        (issues ++ snd r)
  end.

(** The tabular part of [parse_mysql_explain]. *)
Definition parse_mysql_tabular (text : str)
  : res (list ExplainNode * list ExplainIssue) :=
  mysql_lines (split newline (strip text)) [] [].

(** *** The MySQL JSON format *)

Fixpoint lookup (key : str) (d : list (str * pyval)) : option pyval :=
  match d with
  | [] => None
  | (k, v) :: t => if str_eqb k key then Some v else lookup key t
  end.

Definition is_pystr (key : str) (v : pyval) : bool :=
  match v with PStr s => str_eqb s key | _ => false end.

(** [key in v] *)
Definition py_in (key : str) (v : pyval) : res bool :=
  match v with
  | PDict d => Ok (is_some (lookup key d))
  | PList l => Ok (existsb (is_pystr key) l)
  | PStr s => Ok (contains key s)
  | _ => Raise TypeError
  end.

(** [v[key]] for a text key *)
Definition getitem (v : pyval) (key : str) : res pyval :=
  match v with
  | PDict d => match lookup key d with Some x => Ok x | None => Raise KeyError end
  | _ => Raise TypeError
  end.

(** [v.get(key, default)] *)
Definition py_get (v : pyval) (key : str) (default : pyval) : res pyval :=
  match v with
  | PDict d => Ok (match lookup key d with Some x => x | None => default end)
  | _ => Raise AttributeError
  end.

Section Json.

(** Library functions of the Python runtime: [json.dumps(v, indent=2)],
    [str(v)] as an f-string prints a value, and [json.loads], which gives
    [None] here where it raises [JSONDecodeError]. *)
Variable json_dumps : pyval -> str.
Variable py_str : pyval -> str.
Variable json_loads : str -> option pyval.

Definition json_scan_issue (table_name : pyval) : ExplainIssue :=
  mkIssue (py "HIGH") (py "Full Table Scan")
    (py "Full table scan on " ++ py_str table_name)
    (py "Add an index on columns used in WHERE/JOIN").

(** The body of [if 'table' in block:]. *)
Definition table_node (block : pyval)
  : res (ExplainNode * list ExplainIssue) :=
  do table <- getitem block (py "table");
  do access_type <- py_get table (py "access_type") (PStr (py "UNKNOWN"));
  do table_name <- py_get table (py "table_name") PNone;
  do cost_info <- py_get table (py "cost_info") (PDict []);
  do read_cost <- py_get cost_info (py "read_cost") PNone;
  do rows_examined <- py_get table (py "rows_examined_per_scan") PNone;
  let node :=
    mkNode access_type table_name read_cost rows_examined None None None []
           (json_dumps table) [] in
  do access <- py_get table (py "access_type") PNone;
  Ok (node,
      if is_pystr (py "ALL") access then [json_scan_issue table_name] else []).

Definition nesting_keys : list str :=
  [py "nested_loop"; py "query_block"; py "ordering_operation";
   py "grouping_operation"].

Definition is_dict (v : pyval) : bool :=
  match v with PDict _ => true | _ => false end.

(** [process_block]: the nodes and issues are threaded through the calls;
    [depth] is the number of nested calls Python still allows. *)
Fixpoint process_block (depth : nat) (block : pyval)
  (acc : list ExplainNode * list ExplainIssue)
  : res (list ExplainNode * list ExplainIssue) :=
  match depth with
  | O => Raise RecursionError
  | S depth' =>
      do has_table <- py_in (py "table") block;
      do acc <-
        (if has_table then
           do ni <- table_node block;
           Ok (fst acc ++ [fst ni], snd acc ++ snd ni)
         else Ok acc);
      (* Process nested blocks *)
      (fix keys (ks : list str) acc {struct ks} :=
         match ks with
         | [] => Ok acc
         | key :: ks' =>
             do present <- py_in key block;
             if present then
               do v <- getitem block key;
               let items := match v with PList l => l | _ => [v] end in
               do acc <-
                 (fix each (items : list pyval) acc {struct items} :=
                    match items with
                    | [] => Ok acc
                    | item :: rest =>
                        if is_dict item then
                          do acc <- process_block depth' item acc;
                          each rest acc
                        else each rest acc
                    end) items acc;
               keys ks' acc
             else keys ks' acc
         end) nesting_keys acc
  end.

(** Parse MySQL EXPLAIN FORMAT=JSON output. *)
Definition parse_mysql_explain_json (depth : nat) (data : pyval)
  : res (list ExplainNode * list ExplainIssue) :=
  do block <- py_get data (py "query_block") data;
  process_block depth block ([], []).

(** Parse MySQL EXPLAIN output (JSON or tabular format). *)
Definition parse_mysql_explain (depth : nat) (text : str)
  : res (list ExplainNode * list ExplainIssue) :=
  (* Try JSON format first *)
  match json_loads text with
  | Some data =>
      do is_plan <- py_in (py "query_block") data;
      if is_plan then parse_mysql_explain_json depth data
      else parse_mysql_tabular text
  | None => parse_mysql_tabular text
  end.

End Json.

End ExplainParser.

(* ================================================================== *)
(** ** The specification's wording of the detectors *)
(* ================================================================== *)

Module Spec.
Import QueryAnalyzer.

(** The distinct texts of a list, in the order of their first occurrence. *)
Fixpoint distinct (l : list str) : list str :=
  match l with
  | [] => []
  | x :: t => x :: filter (fun y => negb (str_eqb y x)) (distinct t)
  end.

Definition mem (k : str) (l : list str) : bool := existsb (str_eqb k) l.

(** The values of a list grouped by a key: the keys in the order of their
    first occurrence, each with its values in the order of the list. *)
Definition groups_of {V : Type} (key : V -> str) (l : list V) : dict V :=
  map (fun n => (n, filter (fun v => str_eqb (key v) n) l))
      (distinct (map key l)).

(** The occurrences of a normalized text in the log, with their indices. *)
Definition occurrences_of (n : str) (queries : list Query) : list (nat * Query) :=
  filter (fun iq => str_eqb (normalized (snd iq)) n) (enumerate queries).

(** Last index minus first index. *)
Definition index_span (occ : list (nat * Query)) : Z :=
  Z.of_nat (last (map fst occ) 0) - Z.of_nat (hd 0 (map fst occ)).

(** A group of at least 3 occurrences whose index span is at most twice
    its size. *)
Definition is_burst (occ : list (nat * Query)) : bool :=
  (3 <=? length occ) && (index_span occ <=? 2 * Z.of_nat (length occ))%Z.

(** Repeated-statement burst: one issue per qualifying group. *)
Definition n_plus_one_spec (queries : list Query) : list Issue :=
  map (fun n => n_plus_one_issue (occurrences_of n queries))
      (filter (fun n => is_burst (occurrences_of n queries))
              (distinct (map normalized queries))).

(** Missing filter: a SELECT with neither a WHERE nor a LIMIT clause. *)
Definition lacks_filter (q : Query) : bool :=
  str_eqb (query_type q) (py "SELECT") && negb (has_where q) && negb (has_limit q).

End Spec.

(** The specification's wording of the normalizer. *)
Module NormSpec.
Import QueryAnalyzer.



(** Step 2 of the normalizer: [' '.join(sql.split())]. *)
Definition collapse (s : str) : str := join (py " ") (split_ws s).

(** A word: not empty and without blanks. *)
Definition word (w : str) : Prop :=
  w <> [] /\ forallb (fun c => negb (is_space c)) w = true.

End NormSpec.
Import NormSpec.

(** The scanners behind the patterns of the normalizer. *)
Module Scan.
Import QueryAnalyzer.

(** The position [n] characters further on. *)
Fixpoint fwd (n : nat) (st : mstate) : mstate :=
  match n with
  | O => st
  | S n' =>
      match rest st with
      | c :: t => fwd n' (advance c t st)
      | [] => st
      end
  end.

(** The length of the longest prefix of [s] in the class [p]. *)
Fixpoint run (p : ascii -> bool) (s : str) : nat :=
  match s with
  | c :: t => if p c then S (run p t) else 0
  | [] => 0
  end.

(** The length of a match, if there is one. *)
Definition mlen (r : regex) (p : nat) (pv : option ascii) (s : str) : option nat :=
  match match_at r p pv s with
  | Some st => Some (pos st - p)
  | None => None
  end.

(** The characters of the body of a string literal, other than escapes. *)
Definition lit_char (c : ascii) : bool := negb (Ascii.eqb c "'" || Ascii.eqb c "\").

(** After an opening quote: the number of characters up to and including
    the closing quote, if the literal is closed. *)
Fixpoint close (s : str) : option nat :=
  match s with
  | [] => None
  | c :: t =>
      if lit_char c then option_map S (close t)
      else if Ascii.eqb "\" c then
        match t with
        | e :: t' =>
            if negb (Ascii.eqb e "010") then option_map (fun n => S (S n)) (close t')
            else None
        | [] => None
        end
      else Some 1
  end.

(** The length of the string literal at the head of [s]. *)
Definition lit_len (s : str) : option nat :=
  match s with
  | c :: t => if Ascii.eqb "'" c then option_map S (close t) else None
  | [] => None
  end.


(** The body of a string literal: [(?:[^'\\]|\\.)]. *)
Definition lit_body : regex :=
  Alt (Chr (fun c => negb (Ascii.eqb c "'" || Ascii.eqb c "\")))
      (Seq (Lit "\") Dot).

Definition head_is (p : ascii -> bool) (s : str) : bool :=
  match s with c :: _ => p c | [] => false end.

(** The length of the numeric literal at the head of [s]; [wb] tells if
    the character before it is a word character. *)
Definition num_len (wb : bool) (s : str) : option nat :=
  let d1 := run is_digit s in
  let s2 := skipn d1 s in
  if (d1 =? 0) || wb then None
  else
    let whole := if head_is is_word s2 then None else Some d1 in
    match s2 with
    | c :: e :: t =>
        if Ascii.eqb "." c && is_digit e then
          let d2 := run is_digit (e :: t) in
          if head_is is_word (skipn d2 (e :: t)) then whole
          else Some (d1 + 1 + d2)
        else whole
    | _ => whole
    end.

Definition is_word_opt (pv : option ascii) : bool :=
  match pv with Some c => is_word c | None => false end.


(** After a digit: the rest of the number pattern, [(?:\.\d+)?\b]. *)
Definition after_digits (st : mstate) : option mstate :=
  m (Seq (Opt (Seq (Lit ".") (Plus Digit))) WordB) st Some.

Definition word_boundary (st : mstate) : option mstate :=
  m WordB st Some.

(** A scanner reads a prefix of a text and gives its length. *)
Definition scanner : Type := str -> option nat.

Definition sc_str (pat : str) : scanner :=
  fun s => if startswith pat s then Some (length pat) else None.

Definition sc_run (p : ascii -> bool) : scanner := fun s => Some (run p s).

Definition sc_plus (p : ascii -> bool) : scanner :=
  fun s => if run p s =? 0 then None else Some (run p s).

Definition then_sc (a b : scanner) : scanner :=
  fun s =>
    match a s with
    | Some k =>
        match b (skipn k s) with
        | Some j => Some (k + j)
        | None => None
        end
    | None => None
    end.

Definition not_paren (c : ascii) : bool := negb (Ascii.eqb ")" c).

(** The length of the prefix [Executing (...): ] of a text. *)
Definition exec_len : scanner :=
  then_sc (sc_str (py "Executing ("))
    (then_sc (sc_plus not_paren)
       (then_sc (sc_str (py "):")) (sc_run is_space))).

(** The length of the prefix [Query: ] of a text. *)
Definition query_len : scanner :=
  then_sc (sc_str (py "Query:")) (sc_run is_space).

(** [re.sub] with the length of the match at a position given by [len],
    which is told if the character before the position is a word
    character. *)
Fixpoint gsub (len : bool -> str -> option nat) (repl : str) (wb : bool)
  (s : str) (skip : nat) : str :=
  match s with
  | [] =>
      match len wb [] with
      | Some _ => repl
      | None => []
      end
  | c :: t =>
      match skip with
      | S n => gsub len repl (is_word c) t n
      | O =>
          match len wb s with
          | Some (S n) => repl ++ gsub len repl (is_word c) t n
          | Some O => repl ++ c :: gsub len repl (is_word c) t 0
          | None => c :: gsub len repl (is_word c) t 0
          end
      end
  end.

Definition bounded (sc : scanner) : Prop :=
  forall s n, sc s = Some n -> n <= length s.

End Scan.
Import Scan.

Unset Implicit Arguments.

(** Texts that differ in a literal only. *)
Module Literal.
Import QueryAnalyzer.

(** The characters of a numeric literal. *)
Definition inert_char (c : ascii) : bool := is_digit c || Ascii.eqb c ".".

(** A numeric literal, as the number pattern reads it: digits, or digits,
    a point and digits. *)
Definition is_numeral (n : str) : bool :=
  (0 <? run is_digit n)
  && match skipn (run is_digit n) n with
     | [] => true
     | c :: r => Ascii.eqb "." c && (0 <? length r) && forallb is_digit r
     end.

(** A character that may stand next to a numeric literal: no word
    character and no point. *)
Definition okd (c : ascii) : bool := negb (is_word c || Ascii.eqb c ".").

(** The text before a literal ends, and the text after it starts, with
    such a character or is empty. *)
Definition ends_ok (pre : str) : bool := okd (last pre " "%char).
Definition starts_ok (post : str) : bool := okd (hd " "%char post).

(** Whitespace collapsing, character by character: [in_word] tells that a
    word has been read, so that a run of blanks before the next word gives
    one space. *)
Fixpoint squeeze (in_word : bool) (s : str) : str :=
  match s with
  | [] => []
  | c :: t =>
      if is_space c then
        if in_word then
          match squeeze false t with
          | [] => []
          | l => " "%char :: l
          end
        else squeeze false t
      else c :: squeeze true t
  end.

(** The same for a text that is followed by a word. *)
Fixpoint squeeze_before (in_word : bool) (s : str) : str :=
  match s with
  | [] => []
  | c :: t =>
      if is_space c then
        if in_word then " "%char :: squeeze_before false t
        else squeeze_before false t
      else c :: squeeze_before true t
  end.

Section Related.
Variables n1 n2 : str.

(** Two numbers of characters to pass over in [pre ++ n1 ++ post] and in
    [pre ++ n2 ++ post] that end at the same place: inside [pre], or
    inside [post]. *)
Definition skiprel (pre : str) (k1 k2 : nat) : Prop :=
  (k1 = k2 /\ k1 <= length pre)
  \/ exists j, k1 = length pre + length n1 + j /\ k2 = length pre + length n2 + j.

Definition lenrel (pre : str) (o1 o2 : option nat) : Prop :=
  match o1, o2 with
  | None, None => True
  | Some k1, Some k2 => skiprel pre k1 k2
  | _, _ => False
  end.

(** A scanner that does not tell [n1] from [n2]. *)
Definition inert_sc (sc : scanner) : Prop :=
  forall pre post, lenrel pre (sc (pre ++ n1 ++ post)) (sc (pre ++ n2 ++ post)).

(** Two texts that differ in the literal only, the literal being set off
    on both sides. *)
Definition related (t1 t2 : str) : Prop :=
  exists pre post,
    t1 = pre ++ n1 ++ post /\ t2 = pre ++ n2 ++ post
    /\ ends_ok pre = true /\ starts_ok post = true.

Definition eq_or_related (t1 t2 : str) : Prop :=
  t1 = t2 \/ related t1 t2.

End Related.

(** Whether the character before a position is a word character, after
    the text [a] has been passed over. *)
Definition wb_after (wb : bool) (a : str) : bool :=
  match a with
  | [] => wb
  | _ :: _ => is_word (last a " "%char)
  end.

(** The substitution of the string pattern, as [gsub] reads a text. *)
Definition lit_sub : bool -> str -> nat -> str :=
  gsub (fun _ : bool => lit_len) (py "'?'").

(** A quoted string literal with the body [b]. *)
Definition quoted (b : str) : str := "'"%char :: b ++ ["'"%char].

(** The body of a string literal, as the string pattern reads it:
    characters other than the quote and the backslash, and escapes (a
    backslash and a character that is no line feed). *)
Fixpoint is_body (b : str) : bool :=
  match b with
  | [] => true
  | c :: t =>
      if lit_char c then is_body t
      else if Ascii.eqb "\" c then
        match t with
        | e :: t' => negb (Ascii.eqb e "010") && is_body t'
        | [] => false
        end
      else false
  end.

(** No string literal is left open at the end of [s]; [inq] tells that
    [s] starts inside one. *)
Fixpoint balanced (inq : bool) (s : str) : bool :=
  match s with
  | [] => negb inq
  | c :: t =>
      if inq then
        if lit_char c then balanced true t
        else if Ascii.eqb "\" c then
          match t with
          | e :: t' => negb (Ascii.eqb e "010") && balanced true t'
          | [] => false
          end
        else balanced false t
      else balanced (Ascii.eqb "'" c) t
  end.

(** A scanner that reads a text the same when a quote follows it. *)
Definition stable (sc : scanner) (a : str) : Prop :=
  forall x, sc (a ++ "'"%char :: x) = sc a.

(** [pre] ends inside the parenthesis of an [Executing (] prefix. *)
Definition exec_open (pre : str) : bool :=
  startswith (py "Executing (") pre && forallb not_paren (skipn 11 pre).

(** A text without the prefixes of the log. *)
Definition strip_prefixes (s : str) : str :=
  re_sub re_query [] (re_sub re_executing [] s).

(** Two texts that differ in the values of literals only: numeric
    literals set off from the text around them, and quoted string
    literals that follow a text with no open literal. *)
Inductive differ_in_literals : str -> str -> Prop :=
| dl_same (s : str) : differ_in_literals s s
| dl_number (pre n1 n2 post t : str) :
    is_numeral n1 = true -> is_numeral n2 = true ->
    ends_ok pre = true -> starts_ok post = true ->
    differ_in_literals (pre ++ n2 ++ post) t ->
    differ_in_literals (pre ++ n1 ++ post) t
| dl_string (pre b1 b2 post t : str) :
    is_body b1 = true -> is_body b2 = true ->
    exec_open pre = false ->
    balanced false (strip_prefixes pre) = true ->
    differ_in_literals (pre ++ quoted b2 ++ post) t ->
    differ_in_literals (pre ++ quoted b1 ++ post) t.

End Literal.
Import Literal.

(* ================================================================== *)
(** ** ASCII texts *)
(* ================================================================== *)

(** Python classifies, compares and converts a character outside ASCII by
    its Unicode properties ([str.upper] may change the length of a text,
    [\s], [\w] and [str.isdigit] take characters beyond the ASCII
    classes).  The character classes of [PyStr] are those of the ASCII
    characters; the statements that depend on them are made for ASCII
    texts. *)
Module AsciiText.

Definition is_ascii (c : ascii) : bool := code c <? 128.

(** A text of ASCII characters. *)
Definition ascii_text (s : str) : Prop := forallb is_ascii s = true.

End AsciiText.

(* ================================================================== *)
(** ** Further definitions: the other detectors, the log file, the
       results of the plan parsers *)
(* ================================================================== *)

(** The wording of the other detectors. *)
Module DetectorSpec.
Import QueryAnalyzer Spec.

(** The number of queries of a log with the raw text [r]. *)
Definition count_raw (r : str) (queries : list Query) : nat :=
  length (filter (fun q => str_eqb (raw q) r) queries).

Definition duplicate_issue (raw_query : str) (n : nat) : Issue :=
  mkIssue (py "MEDIUM") (py "Duplicate Query")
    (py "Identical query executed " ++ str_of_nat n ++ py " times")
    [raw_query]
    (py "Consider caching the result or restructuring code to avoid repeated queries").

(** One issue per raw text that occurs at least 3 times, in the order in
    which the texts first occur. *)
Definition duplicates_spec (queries : list Query) : list Issue :=
  map (fun r => duplicate_issue r (count_raw r queries))
      (filter (fun r => 3 <=? count_raw r queries)
              (distinct (map raw queries))).

(** The SELECT queries that select all columns. *)
Definition select_star_hits (queries : list Query) : list Query :=
  filter (fun q => selects_all q && str_eqb (query_type q) (py "SELECT")) queries.

(** The text before the first occurrence of [sep], and the text after it. *)
Fixpoint before (sep s : str) : str :=
  match s with
  | [] => []
  | c :: t => if startswith sep s then [] else c :: before sep t
  end.
Fixpoint after (sep s : str) : str :=
  match s with
  | [] => []
  | c :: t => if startswith sep s then skipn (length sep) s else after sep t
  end.

(** The part of a text the Cartesian-join test reads: from the first FROM
    to the next FROM or WHERE. *)
Definition from_clause (u : str) : str :=
  before (py "WHERE") (before (py "FROM") (after (py "FROM") u)).

(** The queries the Cartesian-join detector reports. *)
Definition cartesian_flagged (q : Query) : bool :=
  str_eqb (query_type q) (py "SELECT") && (1 <? length (tables q))
  && contains (py "FROM") (upper (raw q)) && negb (has_join q)
  && contains (py ",") (from_clause (upper (raw q))).

(** The severities and the categories of the issues of the detectors. *)
Definition severity_of_category (c : str) : option str :=
  if str_eqb c (py "N+1 Query") then Some (py "HIGH")
  else if str_eqb c (py "Missing WHERE") then Some (py "MEDIUM")
  else if str_eqb c (py "SELECT *") then Some (py "LOW")
  else if str_eqb c (py "Duplicate Query") then Some (py "MEDIUM")
  else if str_eqb c (py "Cartesian Join") then Some (py "HIGH")
  else None.

(** An issue as the detectors build it: its severity is the one of its
    category, and it cites one to three raw texts of the log. *)
Definition well_formed_issue (queries : list Query) (i : Issue) : Prop :=
  severity_of_category (category i) = Some (severity i)
  /\ 1 <= length (QueryAnalyzer.queries i) <= 3
  /\ incl (QueryAnalyzer.queries i) (map raw queries).

(** The raw texts an issue cites are texts of SELECT queries of the log. *)
Definition cites_selects (queries : list Query) (i : Issue) : Prop :=
  forall r, In r (QueryAnalyzer.queries i) ->
            exists q, In q queries /\ raw q = r /\ query_type q = py "SELECT".

End DetectorSpec.

(** The analysis steps of [main] in query_analyzer.py. *)
Module QueryMain.
Import QueryAnalyzer.

(** [severity_order = {'LOW': 0, 'MEDIUM': 1, 'HIGH': 2}] *)
Definition severity_order : list (str * Z) :=
  [(py "LOW", 0%Z); (py "MEDIUM", 1%Z); (py "HIGH", 2%Z)].

(** [d[k]] on a dict with text keys; a missing key raises. *)
Fixpoint dict_getitem {V : Type} (d : list (str * V)) (k : str) : res V :=
  match d with
  | [] => Raise KeyError
  | (k', v) :: t => if str_eqb k' k then Ok v else dict_getitem t k
  end.

(** [[i for i in issues if severity_order[i.severity] >= min_level]] *)
Fixpoint at_least (min_level : Z) (issues : list Issue) : res (list Issue) :=
  match issues with
  | [] => Ok []
  | i :: t =>
      do level <- dict_getitem severity_order (severity i);
      do rest <- at_least min_level t;
      Ok (if (min_level <=? level)%Z then i :: rest else rest)
  end.

(** Filter by severity:
    [min_level = severity_order[args.min_severity]] and the list
    comprehension. *)
Definition filter_by_severity (min_severity : str) (issues : list Issue)
  : res (list Issue) :=
  do min_level <- dict_getitem severity_order min_severity;
  at_least min_level issues.

End QueryMain.

(** Groups that every match of a pattern captures. *)
Module Captured.

(** Every match of [r] passes through the group [n]. *)
Fixpoint sets (n : nat) (r : regex) : Prop :=
  match r with
  | Grp k a => k = n \/ sets n a
  | Seq a b => sets n a \/ sets n b
  | Alt a b => sets n a /\ sets n b
  | _ => False
  end.

(** The group [n] has taken part in the match so far. *)
Definition captured (n : nat) (st : mstate) : Prop :=
  exists w, group n (caps st) = Some w.

(** The text left and the texts captured hold characters of the class [P]
    only. *)
Definition within (P : ascii -> bool) (st : mstate) : Prop :=
  forallb P (rest st) = true
  /\ Forall (fun c => forallb P (snd c) = true) (caps st).

(** A table name as [parse_query] extracts it. *)
Definition table_name (t : str) : Prop :=
  t <> [] /\ forallb is_word t = true
  /\ forallb (fun c => negb (is_lower_char c)) t = true.

(** The type of a query by the keyword its text starts with. *)
Definition classify (u : str) : str :=
  if startswith (py "SELECT") u then py "SELECT"
  else if startswith (py "INSERT") u then py "INSERT"
  else if startswith (py "UPDATE") u then py "UPDATE"
  else if startswith (py "DELETE") u then py "DELETE"
  else py "OTHER".

(** Two parsed queries with the same type, tables and flags. *)
Definition same_shape (a b : QueryAnalyzer.Query) : Prop :=
  QueryAnalyzer.query_type a = QueryAnalyzer.query_type b
  /\ QueryAnalyzer.tables a = QueryAnalyzer.tables b
  /\ QueryAnalyzer.has_where a = QueryAnalyzer.has_where b
  /\ QueryAnalyzer.has_limit a = QueryAnalyzer.has_limit b
  /\ QueryAnalyzer.has_join a = QueryAnalyzer.has_join b
  /\ QueryAnalyzer.selects_all a = QueryAnalyzer.selects_all b.

End Captured.

(** The results of the plan parsers, put together. *)
Module PlanResults.
Import ExplainParser.

Definition plan : Type := (list ExplainNode * list ExplainIssue)%type.

(** The nodes and the issues of [r] after those of [acc]. *)
Definition after_acc (acc : plan) (r : res plan) : res plan :=
  match r with
  | Ok (nodes, issues) => Ok (fst acc ++ nodes, snd acc ++ issues)
  | Raise e => Raise e
  end.

(** The results of two parses one after the other; the first exception
    raised is the one of the whole. *)
Definition both (r1 r2 : res plan) : res plan :=
  match r1 with
  | Ok acc => after_acc acc r2
  | Raise e => Raise e
  end.

(** The group [n] occurs in the pattern. *)
Fixpoint mentions (n : nat) (r : regex) : bool :=
  match r with
  | Grp k a => (k =? n) || mentions n a
  | Seq a b => mentions n a || mentions n b
  | Alt a b => mentions n a || mentions n b
  | Star a => mentions n a
  | LazyStar a => mentions n a
  | _ => false
  end.

(** The group [n] of [r] captures only texts that satisfy [Q]. *)
Fixpoint grp_at (n : nat) (Q : str -> Prop) (r : regex) : Prop :=
  match r with
  | Seq a b => grp_at n Q a /\ grp_at n Q b
  | Alt a b => grp_at n Q a /\ grp_at n Q b
  | Star a => grp_at n Q a
  | LazyStar a => grp_at n Q a
  | Grp k a =>
      (k = n ->
       forall st st1, reach a st st1 -> Q (firstn (pos st1 - pos st) (rest st)))
      /\ grp_at n Q a
  | _ => True
  end.

(** The part of the node pattern before the optional actual figures, and
    the actual figures. *)
Definition plan_part : list regex :=
  [Bol;
   Star (Chr (fun c => is_space c || Ascii.eqb c "-" || Ascii.eqb c ">"));
   Grp 1 (LazyPlus (Chr (fun c => is_word c || is_space c)));
   Opt (Seqs [Plus Space; Str (py "on"); Plus Space;
              Grp 2 (Plus (Chr (fun c => is_word c || Ascii.eqb c ".")))]);
   Star Space;
   Str (py "(cost="); Grp 3 (Plus (Chr digit_or_dot));
   Str (py ".."); Grp 4 (Plus (Chr digit_or_dot));
   Plus Space; Str (py "rows="); Grp 5 (Plus Digit);
   Plus Space; Str (py "width="); Grp 6 (Plus Digit);
   Lit ")"].

Definition actual_part : regex :=
  Seqs [Star Space;
        Str (py "(actual time="); Grp 7 (Plus (Chr digit_or_dot));
        Str (py ".."); Grp 8 (Plus (Chr digit_or_dot));
        Plus Space; Str (py "rows="); Grp 9 (Plus Digit);
        Plus Space; Str (py "loops="); Grp 10 (Plus Digit);
        Lit ")"].

(** A line the PostgreSQL parser passes over: a footer, or a line without
    an opening parenthesis and without a colon. *)
Definition plain_line (line : str) : bool :=
  forallb (fun c => negb (Ascii.eqb "(" c || Ascii.eqb ":" c)) line.
Definition ignored_line (line : str) : bool :=
  is_footer line || plain_line line.

(** The exceptions the PostgreSQL parser can raise. *)
Definition number_error (e : pyexc) : Prop :=
  e = ValueError \/ e = OverflowError.

(** The keys of a block that [process_block] reads. *)
Definition is_block_key (k : str) : bool :=
  str_eqb k (py "table") || existsb (str_eqb k) nesting_keys.

(** A block without the keys [process_block] does not read. *)
Definition read_keys (d : list (str * pyval)) : list (str * pyval) :=
  filter (fun kv => is_block_key (fst kv)) d.

(** The loop over the items of a nesting key, and the loop over the
    nesting keys, of [process_block]; [pb] is the recursive call. *)
Definition process_items (pb : pyval -> plan -> res plan)
  : list pyval -> plan -> res plan :=
  fix each (items : list pyval) (acc : plan) {struct items} : res plan :=
    match items with
    | [] => Ok acc
    | item :: rest =>
        if is_dict item then
          do acc <- pb item acc;
          each rest acc
        else each rest acc
    end.

Definition process_keys (pb : pyval -> plan -> res plan) (block : pyval)
  : list str -> plan -> res plan :=
  fix keys (ks : list str) (acc : plan) {struct ks} : res plan :=
    match ks with
    | [] => Ok acc
    | key :: ks' =>
        do present <- py_in key block;
        if present then
          do v <- getitem block key;
          let items := match v with PList l => l | _ => [v] end in
          do acc <- process_items pb items acc;
          keys ks' acc
        else keys ks' acc
    end.

(** The exceptions the MySQL JSON parser can raise. *)
Definition shape_error (e : pyexc) : Prop :=
  e = TypeError \/ e = AttributeError \/ e = RecursionError.

End PlanResults.

(** [parse_log_file] of query_analyzer.py. *)
Module QueryLog.
Import QueryAnalyzer.

Definition newline : str := ["010"%char].

(** [.] under [re.DOTALL]: any character. *)
Definition Any : regex := Chr (fun _ => true).

(** [s.startswith(p)] without regard to case, as [re.IGNORECASE] compares
    the characters of a literal. *)
Fixpoint startswith_nocase (p s : str) : bool :=
  match p, s with
  | [], _ => true
  | _ :: _, [] => false
  | a :: p', c :: s' =>
      Ascii.eqb (upper_char a) (upper_char c) && startswith_nocase p' s'
  end.

(** A lookahead that ends a pattern, read on the text left: [(?=w|\Z)]
    under [re.IGNORECASE]. *)
Definition word_or_end (w : str) (left : str) : bool :=
  startswith_nocase w left
  || match left with [] => true | _ :: _ => false end.

(** One attempt to match [r] followed by the lookahead [ahead]. *)
Definition match_ahead (r : regex) (ahead : str -> bool) (p : nat)
  (pv : option ascii) (s : str) : option mstate :=
  m r (MState p pv s []) (fun st => if ahead (rest st) then Some st else None).

(** [re.findall] for a pattern with one group that ends with a lookahead:
    the texts of the group in the matches, from left to right; [skip]
    counts the characters of the current match still to pass over. *)
Fixpoint findall_ahead (r : regex) (ahead : str -> bool) (g : nat) (p : nat)
  (pv : option ascii) (s : str) (skip : nat) : list str :=
  match s with
  | [] => []
  | c :: t =>
      match skip with
      | S n => findall_ahead r ahead g (S p) (Some c) t n
      | O =>
          match match_ahead r ahead p pv s with
          | Some st =>
              match group g (caps st) with Some x => x | None => [] end
              :: findall_ahead r ahead g (S p) (Some c) t (pos st - p - 1)
          | None => findall_ahead r ahead g (S p) (Some c) t 0
          end
      end
  end.

(** Sequelize: [Executing \([^)]+\):\s*(.+?)(?=Executing|\Z)] *)
Definition re_sequelize : regex :=
  Seqs [StrI (py "Executing ("); Plus (NotLit ")"); StrI (py "):");
        Star Space; Grp 1 (LazyPlus Any)].

(** Prisma: [Query:\s*(.+?)(?=Query:|\Z)] *)
Definition re_prisma : regex :=
  Seqs [StrI (py "Query:"); Star Space; Grp 1 (LazyPlus Any)].

(** Generic SQL statements:
    [((?:SELECT|INSERT|UPDATE|DELETE|WITH)\s+.+?;)] *)
Definition re_statement : regex :=
  Grp 1 (Seqs [Alt (StrI (py "SELECT")) (Alt (StrI (py "INSERT"))
                 (Alt (StrI (py "UPDATE")) (Alt (StrI (py "DELETE"))
                    (StrI (py "WITH")))));
               Plus Space; LazyPlus Any; Lit ";"]).

(** The three patterns with their lookaheads, in the order in which they
    are tried; all with [re.DOTALL | re.IGNORECASE | re.MULTILINE]. *)
Definition patterns : list (regex * (str -> bool)) :=
  [(re_sequelize, word_or_end (py "Executing"));
   (re_prisma, word_or_end (py "Query:"));
   (re_statement, fun _ => true)].

(** [[m.strip() for m in matches if m.strip()]] *)
Definition stripped (matches : list str) : list str :=
  map strip (filter (fun x => negb (str_eqb (strip x) [])) matches).

Definition keywords : list str :=
  [py "SELECT"; py "INSERT"; py "UPDATE"; py "DELETE"; py "WITH"].

(** The loop over the patterns: the queries of the first pattern that has
    a match. *)
Fixpoint first_pattern (ps : list (regex * (str -> bool))) (content : str)
  : list str :=
  match ps with
  | [] => []
  | (r, ahead) :: ps' =>
      match findall_ahead r ahead 1 0 None content 0 with
      | [] => first_pattern ps' content
      | matches => stripped matches
      end
  end.

(** Fallback: treat each line as a potential query. *)
Definition keyword_lines (content : str) : list str :=
  filter (fun line =>
            negb (str_eqb line [])
            && existsb (fun kw => startswith kw (upper line)) keywords)
         (map strip (split newline content)).

(** A query as [parse_log_file] returns it: not empty and without
    blanks at its ends. *)
Definition trimmed (q : str) : Prop := q <> [] /\ strip q = q.

(** [w in s] without regard to case. *)
Fixpoint contains_nocase (w s : str) : bool :=
  startswith_nocase w s ||
  match s with
  | [] => false
  | _ :: t => contains_nocase w t
  end.

(** A statement as a log holds it: trimmed, and without the marker [w]
    of the log format. *)
Definition logged (w : str) (q : str) : Prop :=
  trimmed q /\ contains_nocase w q = false.

(** A connection name of a Sequelize log line. *)
Definition logged_name (name : str) : Prop :=
  name <> [] /\ forallb not_paren name = true.

(** The lines of a Sequelize log and of a Prisma log. *)
Definition sequelize_entry (e : str * str) : str :=
  py "Executing (" ++ fst e ++ py "): " ++ snd e ++ newline.
Definition prisma_entry (q : str) : str :=
  py "Query: " ++ q ++ newline.

(** A statement of a plain log: a keyword in any case, blanks, and a text
    without semicolon that does not start with a blank, closed by a
    semicolon. *)
Inductive plain_statement : str -> Prop :=
| plain_statement_intro (k ws body : str) :
    In (upper k) keywords ->
    ws <> [] -> forallb is_space ws = true ->
    body <> [] -> head_is is_space body = false ->
    forallb (fun c => negb (Ascii.eqb ";" c)) body = true ->
    plain_statement (k ++ ws ++ body ++ py ";").

(** The line of a statement in a plain log. *)
Definition plain_entry (q : str) : str := q ++ newline.

(** A line the fallback keeps. *)
Definition keyword_line (line : str) : bool :=
  existsb (fun kw => startswith kw (upper line)) keywords.

(** Parse a log file and extract SQL queries. *)
Definition parse_log_file (content : str) : list str :=
  match first_pattern patterns content with
  | [] => keyword_lines content
  | queries => queries
  end.

End QueryLog.


(** The order in which [format_report] of explain_parser.py lists the
    issues. *)
Module PlanReport.
Import ExplainParser QueryMain.

(** [{'HIGH': 0, 'MEDIUM': 1, 'LOW': 2}] *)
Definition report_order : list (str * Z) :=
  [(py "HIGH", 0%Z); (py "MEDIUM", 1%Z); (py "LOW", 2%Z)].

(** [key=lambda x: {'HIGH': 0, 'MEDIUM': 1, 'LOW': 2}[x.severity]] *)
Definition severity_key (x : ExplainIssue) : res Z :=
  dict_getitem report_order (severity x).

(** [sorted] computes the key of every element once, from left to
    right. *)
Fixpoint keyed (issues : list ExplainIssue) : res (list (Z * ExplainIssue)) :=
  match issues with
  | [] => Ok []
  | x :: t =>
      do k <- severity_key x;
      do r <- keyed t;
      Ok ((k, x) :: r)
  end.

(** [sorted] is stable: an element goes in front of the elements after it
    whose key is not smaller. *)
Fixpoint insert_keyed (kx : Z * ExplainIssue) (l : list (Z * ExplainIssue))
  : list (Z * ExplainIssue) :=
  match l with
  | [] => [kx]
  | ky :: t =>
      if (fst kx <=? fst ky)%Z then kx :: l else ky :: insert_keyed kx t
  end.

(** [sorted(issues, key=lambda x: {'HIGH': 0, 'MEDIUM': 1, 'LOW': 2}[x.severity])] *)
Definition sorted_issues (issues : list ExplainIssue)
  : res (list ExplainIssue) :=
  do ks <- keyed issues;
  Ok (map snd (fold_right insert_keyed [] ks)).

(** The issues of one severity, in the order of the plan. *)
Definition with_severity (s : str) (issues : list ExplainIssue)
  : list ExplainIssue :=
  filter (fun i => str_eqb (severity i) s) issues.

(** The severities the report knows. *)
Definition known_severity (i : ExplainIssue) : Prop :=
  severity i = py "HIGH" \/ severity i = py "MEDIUM" \/ severity i = py "LOW".

End PlanReport.

Set Implicit Arguments.

(** The specification's wording of the plan parsers. *)
Module PlanSpec.
Import ExplainParser.

(** A row of the tabular format that yields a node: not a header line (it
    does not hold [select_type] in any case and does not start with [+]),
    and cut at [|] it has at least 10 cells that are not empty once
    trimmed. *)
Definition is_data_row (line : str) : bool :=
  negb (contains (py "select_type") (lower line))
  && negb (startswith (py "+") line)
  && (10 <=? length (filter (fun p => negb (str_eqb (strip p) []))
                            (split (py "|") line))).

(** The rows cell of a line, the tenth, is a run of more digits than
    [int] reads. *)
Definition long_rows_cell (line : str) : bool :=
  match nth_error (cells line) 9 with
  | Some p => isdigit p && (int_max_str_digits <? length p)
  | None => false
  end.

(** A data row on which the parser raises. *)
Definition unreadable_row (line : str) : bool :=
  is_data_row line && long_rows_cell line.

(** A cost or a row count that is absent or a number not below zero. *)
Definition nonneg (v : pyval) : Prop :=
  match v with
  | PNone => True
  | PInt z => (0 <= z)%Z
  | PFloat q => (0 <= q)%Q
  | _ => False
  end.

(** A plan document whose table fragment holds negative numbers. *)
Definition negative_plan : pyval :=
  PDict [(py "query_block",
          PDict [(py "table",
                  PDict [(py "table_name", PStr (py "orders"));
                         (py "access_type", PStr (py "ref"));
                         (py "rows_examined_per_scan", PInt (-5));
                         (py "cost_info",
                          PDict [(py "read_cost", PFloat (-1))])])])].

Definition single_table_plan (rows_examined read_cost : pyval) : pyval :=
  PDict [(py "query_block",
          PDict [(py "table",
                  PDict [(py "rows_examined_per_scan", rows_examined);
                         (py "cost_info",
                          PDict [(py "read_cost", read_cost)])])])].
End PlanSpec.

(** The logs of the specification's examples. *)
Module Examples.
Import QueryAnalyzer.

(** Five consecutive queries that differ in a literal only. *)
Definition five_consecutive : list str :=
  [py "SELECT * FROM orders WHERE user_id = 1";
   py "SELECT * FROM orders WHERE user_id = 2";
   py "SELECT * FROM orders WHERE user_id = 3";
   py "SELECT * FROM orders WHERE user_id = 4";
   py "SELECT * FROM orders WHERE user_id = 5"].

(** An unrelated query: each one reads a table of its own. *)
Definition unrelated (i : nat) : str :=
  py "SELECT name FROM t" ++ str_of_nat i ++ py " LIMIT 1".

(** The same five queries spread across 500 unrelated ones: one of them
    before every hundredth unrelated query. *)
Definition spread_log : list str :=
  flat_map
    (fun i =>
       (if i mod 100 =? 0
        then [py "SELECT * FROM orders WHERE user_id = "
                ++ str_of_nat (S (i / 100))]
        else [])
       ++ [unrelated i])
    (seq 0 500).

End Examples.

(* ================================================================== *)
(** ** Facts about strings *)
(* ================================================================== *)

Lemma str_eqb_eq (a b : str) : str_eqb a b = true <-> a = b.
Proof.
  revert b. induction a as [|x a IH]; intros [|y b]; cbn [str_eqb];
    try (split; [discriminate | congruence]); [tauto|].
  rewrite andb_true_iff, Ascii.eqb_eq, IH. split.
  - intros [-> ->]. reflexivity.
  - intros E. now inversion E.
Qed.

Lemma str_eqb_refl (a : str) : str_eqb a a = true.
Proof. now apply str_eqb_eq. Qed.

Lemma str_eqb_neq (a b : str) : str_eqb a b = false <-> a <> b.
Proof.
  rewrite <- str_eqb_eq. now destruct (str_eqb a b).
Qed.

Lemma str_eqb_sym (a b : str) : str_eqb a b = str_eqb b a.
Proof.
  destruct (str_eqb a b) eqn:E.
  - apply str_eqb_eq in E. subst. now rewrite str_eqb_refl.
  - apply str_eqb_neq in E. symmetry. apply str_eqb_neq. congruence.
Qed.

(** A text that holds a non-empty separator is cut into two pieces at least. *)
Lemma split_go_contains (sep s : str) :
  sep <> [] -> contains sep s = true ->
  exists w x ws, split_go sep s 0 = (w, x :: ws).
Proof.
  intros Hsep. induction s as [|c t IH]; intros H.
  - simpl in H. destruct sep; [congruence | discriminate].
  - cbn [split_go]. destruct (startswith sep (c :: t)) eqn:E.
    + destruct (split_go sep t (length sep - 1)) as [w ws]. now eauto.
    + cbn [contains] in H. rewrite E in H. simpl in H.
      destruct (IH H) as (w & x & ws & ->). now eauto.
Qed.

Lemma split_contains_index (sep s : str) :
  sep <> [] -> contains sep s = true -> exists x, index (split sep s) 1 = Ok x.
Proof.
  intros Hsep H. destruct (split_go_contains s Hsep H) as (w & x & ws & E).
  unfold split. rewrite E. now exists x.
Qed.

Lemma split_index_0 (sep s : str) : exists x, index (split sep s) 0 = Ok x.
Proof.
  unfold split. destruct (split_go sep s 0) as [w ws]. now exists w.
Qed.

(* ================================================================== *)
(** ** The detectors of query_analyzer.py *)
(* ================================================================== *)

Section DetectorFacts.
Import QueryAnalyzer Spec.

Lemma missing_where_loop (qs : list Query) (acc : list Issue) :
  fold_left
    (fun issues q =>
       if str_eqb (query_type q) (py "SELECT") && negb (has_where q)
          && negb (has_limit q)
       then issues ++ [missing_where_issue q]
       else issues) qs acc
  = acc ++ map missing_where_issue (filter lacks_filter qs).
Proof.
  revert acc. induction qs as [|q t IH]; intros acc; cbn [fold_left filter map].
  - now rewrite app_nil_r.
  - rewrite IH. fold (lacks_filter q).
    destruct (lacks_filter q); cbn [map]; [|reflexivity].
    now rewrite <- app_assoc.
Qed.

(** The guarded indexing of the Cartesian-join test never raises. *)
Lemma comma_in_from_total (q : Query) : exists b, comma_in_from q = Ok b.
Proof.
  unfold comma_in_from.
  destruct (contains (py "FROM") (upper (raw q))) eqn:E; [|now eauto].
  destruct (negb (has_join q)); [|now eauto].
  destruct (split_contains_index (sep := py "FROM") (upper (raw q))) as [x ->];
    [discriminate | assumption |].
  cbn [bind].
  destruct (split_index_0 (py "WHERE") x) as [y ->]. cbn [bind]. now eauto.
Qed.

Lemma cartesian_join_loop_total (qs : list Query) (acc : list Issue) :
  exists l, cartesian_join_loop qs acc = Ok l.
Proof.
  revert acc. induction qs as [|q t IH]; intros acc; cbn [cartesian_join_loop].
  - now eauto.
  - destruct (str_eqb (query_type q) (py "SELECT") && (1 <? length (tables q)));
      [|apply IH].
    destruct (comma_in_from_total q) as [b ->]. cbn [bind].
    destruct b; apply IH.
Qed.

Lemma detect_cartesian_join_total (qs : list Query) :
  exists l, detect_cartesian_join qs = Ok l.
Proof. apply cartesian_join_loop_total. Qed.

End DetectorFacts.

(** *** Grouping by a key *)

Section Grouping.
Import QueryAnalyzer Spec.
Variable V : Type.
Variable key : V -> str.

Lemma mem_In (k : str) (l : list str) : mem k l = true <-> In k l.
Proof.
  unfold mem. rewrite existsb_exists. split.
  - intros (x & Hx & E). apply str_eqb_eq in E. now subst.
  - intros H. exists k. split; [assumption | apply str_eqb_refl].
Qed.

Lemma In_distinct (k : str) (l : list str) : In k (distinct l) <-> In k l.
Proof.
  induction l as [|x t IH]; cbn [distinct]; [tauto|].
  cbn [In]. rewrite filter_In, IH. split.
  - intros [H | [H _]]; auto.
  - intros [H | H]; auto.
    destruct (str_eqb k x) eqn:E.
    + apply str_eqb_eq in E. auto.
    + right. split; [assumption | reflexivity].
Qed.

Lemma mem_distinct (k : str) (l : list str) : mem k (distinct l) = mem k l.
Proof.
  apply eq_true_iff_eq. rewrite !mem_In. apply In_distinct.
Qed.

Lemma NoDup_filter {A : Type} (f : A -> bool) (l : list A) :
  NoDup l -> NoDup (filter f l).
Proof.
  induction 1 as [|x l Hx Hl IH]; cbn [filter]; [constructor|].
  destruct (f x); [|assumption].
  constructor; [|assumption]. rewrite filter_In. tauto.
Qed.

Lemma NoDup_distinct (l : list str) : NoDup (distinct l).
Proof.
  induction l as [|x t IH]; cbn [distinct]; constructor.
  - rewrite filter_In. intros [_ H]. now rewrite str_eqb_refl in H.
  - now apply NoDup_filter.
Qed.

Lemma distinct_snoc (l : list str) (k : str) :
  distinct (l ++ [k]) = distinct l ++ (if mem k l then [] else [k]).
Proof.
  induction l as [|x t IH]; [reflexivity|].
  cbn [app distinct]. rewrite IH, filter_app. cbn [mem existsb].
  fold (mem k t). f_equal. f_equal.
  destruct (str_eqb k x) eqn:E; cbn [orb].
  - destruct (mem k t); cbn [filter]; [reflexivity|]. now rewrite E.
  - destruct (mem k t); cbn [filter]; [reflexivity|]. now rewrite E.
Qed.

Lemma dict_append_map (F : str -> list V) (k : str) (v : V) (ks : list str) :
  NoDup ks ->
  dict_append k v (map (fun n => (n, F n)) ks)
  = map (fun n => (n, F n ++ if str_eqb k n then [v] else [])) ks
    ++ (if mem k ks then [] else [(k, [v])]).
Proof.
  induction 1 as [|n t Hn Ht IH]; [reflexivity|].
  cbn [map dict_append mem existsb app]. fold (mem k t).
  rewrite (str_eqb_sym n k).
  destruct (str_eqb k n) eqn:E; cbn [orb].
  - apply str_eqb_eq in E. subst n. rewrite app_nil_r. f_equal.
    apply map_ext_in. intros a Ha.
    destruct (str_eqb k a) eqn:E'; [|now rewrite app_nil_r].
    apply str_eqb_eq in E'. now subst.
  - rewrite IH, app_nil_r. reflexivity.
Qed.

Lemma filter_key_absent (k : str) (l : list V) :
  mem k (map key l) = false -> filter (fun v => str_eqb (key v) k) l = [].
Proof.
  induction l as [|x t IH]; [reflexivity|].
  cbn [map mem existsb filter]. fold (mem k (map key t)).
  rewrite (str_eqb_sym (key x) k). destruct (str_eqb k (key x)); [discriminate|].
  exact IH.
Qed.

Lemma groups_of_snoc (l : list V) (v : V) :
  dict_append (key v) v (groups_of key l) = groups_of key (l ++ [v]).
Proof.
  unfold groups_of. rewrite dict_append_map by apply NoDup_distinct.
  rewrite map_app. cbn [map]. rewrite distinct_snoc, map_app.
  f_equal.
  - apply map_ext. intros n. rewrite filter_app. cbn [filter].
    now rewrite (str_eqb_sym (key v) n).
  - rewrite mem_distinct.
    destruct (mem (key v) (map key l)) eqn:E; [reflexivity|].
    cbn [map]. rewrite filter_app, (filter_key_absent _ _ E).
    cbn [filter]. now rewrite str_eqb_refl.
Qed.

(** Filling a [defaultdict(list)] in a loop groups the values by their key. *)
Lemma fold_dict_append (l l0 : list V) :
  fold_left (fun d v => dict_append (key v) v d) l (groups_of key l0)
  = groups_of key (l0 ++ l).
Proof.
  revert l0. induction l as [|v t IH]; intros l0; cbn [fold_left].
  - now rewrite app_nil_r.
  - rewrite groups_of_snoc, IH, <- app_assoc. reflexivity.
Qed.

End Grouping.

(** *** The repeated-statement burst detector *)

Section Burst.
Import QueryAnalyzer Spec.

Lemma last_cons_default {A : Type} (y : A) (t : list A) (x : A) :
  last (y :: t) x = last t y.
Proof.
  revert y x. induction t as [|z t IH]; intros y x; [reflexivity|].
  change (last (y :: z :: t) x) with (last (z :: t) x).
  now rewrite (IH z x), (IH z y).
Qed.

Lemma fold_max_sorted (t : list nat) (x : nat) :
  StronglySorted lt (x :: t) ->
  fold_left Z.max (map Z.of_nat t) (Z.of_nat x) = Z.of_nat (last t x).
Proof.
  revert x. induction t as [|y t IH]; intros x H; [reflexivity|].
  cbn [map fold_left]. inversion H as [|? ? Hs Hf]; subst.
  inversion Hf as [|? ? Hxy _]; subst.
  rewrite Z.max_r by lia. rewrite IH by assumption.
  now rewrite last_cons_default.
Qed.

Lemma fold_min_sorted (t : list nat) (x : nat) :
  StronglySorted lt (x :: t) ->
  fold_left Z.min (map Z.of_nat t) (Z.of_nat x) = Z.of_nat x.
Proof.
  revert x. induction t as [|y t IH]; intros x H; [reflexivity|].
  cbn [map fold_left]. inversion H as [|? ? Hs Hf]; subst.
  inversion Hf as [|? ? Hxy Hf']; subst.
  rewrite Z.min_l by lia. apply IH.
  constructor; [|assumption]. now inversion Hs.
Qed.

Lemma filter_combine_seq_sorted {A : Type} (f : nat * A -> bool)
  (l : list A) (a n : nat) :
  StronglySorted lt (map fst (filter f (combine (seq a n) l))).
Proof.
  revert a l. induction n as [|n IH]; intros a l; [constructor|].
  destruct l as [|x l]; [constructor|].
  cbn [seq combine filter]. destruct (f (a, x)); [|apply IH].
  cbn [map fst]. constructor; [apply IH|].
  apply Forall_forall. intros i Hi. apply in_map_iff in Hi.
  destruct Hi as ([j y] & <- & Hj). apply filter_In in Hj.
  destruct Hj as [Hj _]. apply in_combine_l, in_seq in Hj. cbn [fst]. lia.
Qed.

Lemma map_key_enumerate {A B : Type} (g : A -> B) (l : list A) (a : nat) :
  map (fun iq => g (snd iq)) (combine (seq a (length l)) l) = map g l.
Proof.
  revert a. induction l as [|x l IH]; intros a; [reflexivity|].
  cbn [length seq combine map snd]. now rewrite IH.
Qed.

(** On a group taken from the log in order, [max] and [min] do not raise,
    and their difference is the span from the first index to the last. *)
Lemma burst_test (occ : list (nat * Query)) :
  occ <> [] -> StronglySorted lt (map fst occ) ->
  exists hi lo,
    py_max (map (fun iq => Z.of_nat (fst iq)) occ) = Ok hi /\
    py_min (map (fun iq => Z.of_nat (fst iq)) occ) = Ok lo /\
    (hi - lo)%Z = index_span occ.
Proof.
  destruct occ as [|[i q] t]; [congruence|]. intros _ H.
  cbn [map fst] in *. unfold py_max, py_min, index_span.
  rewrite <- (map_map fst Z.of_nat).
  exists (Z.of_nat (last (map fst t) i)), (Z.of_nat i).
  rewrite fold_max_sorted, fold_min_sorted by assumption.
  cbn [map fst hd]. now rewrite last_cons_default.
Qed.

Lemma n_plus_one_groups_spec (queries : list Query) (ks : list str)
  (acc : list Issue) :
  n_plus_one_groups (map (fun n => (n, occurrences_of n queries)) ks) acc
  = Ok (acc ++ map (fun n => n_plus_one_issue (occurrences_of n queries))
                   (filter (fun n => is_burst (occurrences_of n queries)) ks)).
Proof.
  revert acc. induction ks as [|k ks IH]; intros acc;
    cbn [map n_plus_one_groups filter].
  - now rewrite app_nil_r.
  - unfold is_burst at 1.
    destruct (3 <=? length (occurrences_of k queries)) eqn:E3; cbn [andb];
      [|apply IH].
    destruct (burst_test (occ := occurrences_of k queries))
      as (hi & lo & -> & -> & Hspan).
    + intros E. rewrite E in E3. discriminate.
    + apply filter_combine_seq_sorted.
    + cbn [bind]. rewrite Hspan, (Z.mul_comm (Z.of_nat _) 2).
      destruct (index_span (occurrences_of k queries)
                <=? 2 * Z.of_nat (length (occurrences_of k queries)))%Z;
        rewrite IH; [|reflexivity].
      cbn [map]. now rewrite <- app_assoc.
Qed.

Lemma detect_n_plus_one_spec (queries : list Query) :
  detect_n_plus_one queries
  = Ok (match n_plus_one_spec queries with
        | [] => None
        | i :: l => Some (i :: l)
        end).
Proof.
  unfold detect_n_plus_one.
  change (@nil (str * list (nat * Query)))
    with (groups_of (fun iq : nat * Query => normalized (snd iq)) []).
  rewrite fold_dict_append. cbn [app]. unfold groups_of, enumerate.
  rewrite map_key_enumerate.
  change (combine (seq 0 (length queries)) queries) with (enumerate queries).
  change (fun n : str =>
            (n, filter (fun v : nat * Query => str_eqb (normalized (snd v)) n)
                       (enumerate queries)))
    with (fun n : str => (n, occurrences_of n queries)).
  rewrite (n_plus_one_groups_spec queries (distinct (map normalized queries)) []).
  cbn [bind app]. fold (n_plus_one_spec queries).
  now destruct (n_plus_one_spec queries).
Qed.

Lemma analyze_queries_total (queries : list Query) :
  exists l, analyze_queries queries = Ok l.
Proof.
  unfold analyze_queries. rewrite detect_n_plus_one_spec. cbn [bind].
  destruct (detect_cartesian_join_total queries) as [l ->]. cbn [bind].
  now eauto.
Qed.

End Burst.

(* ================================================================== *)
(** ** The claims about query_analyzer.py *)
(* ================================================================== *)

Section QueryAnalyzerClaims.
Import QueryAnalyzer Spec Examples.

(** C1.  Repeated-statement burst: the detector emits exactly one HIGH
    "N+1 Query" issue per group of queries with the same normalized text
    that has at least 3 occurrences and whose index span (last index minus
    first index) is at most twice its size, in the order in which the
    groups first occur, and each issue cites the raw text of the first 3
    occurrences.  Five consecutive occurrences give one HIGH issue with 3
    sample queries; the same five spread across 500 unrelated queries give
    no issue. *)
Theorem burst_detector_correct :
  (forall queries,
      detect_n_plus_one queries
      = Ok (match n_plus_one_spec queries with
            | [] => None
            | i :: l => Some (i :: l)
            end))
  /\ (forall occ,
         severity (n_plus_one_issue occ) = py "HIGH" /\
         category (n_plus_one_issue occ) = py "N+1 Query" /\
         QueryAnalyzer.queries (n_plus_one_issue occ)
         = map (fun iq => raw (snd iq)) (firstn 3 occ))
  /\ detect_n_plus_one (map parse_query five_consecutive)
     = Ok (Some [mkIssue (py "HIGH") (py "N+1 Query")
                   (py "Detected 5 similar queries executed in sequence")
                   [py "SELECT * FROM orders WHERE user_id = 1";
                    py "SELECT * FROM orders WHERE user_id = 2";
                    py "SELECT * FROM orders WHERE user_id = 3"]
                   (py "Use eager loading (include/preload/prefetch_related) to fetch related data in one query")])
  /\ length spread_log = 505
  /\ map normalized (map parse_query five_consecutive)
     = repeat (py "SELECT * FROM ORDERS WHERE USER_ID = ?") 5
  /\ length (filter (fun q => str_eqb (normalized q)
                                (py "SELECT * FROM ORDERS WHERE USER_ID = ?"))
                    (map parse_query spread_log)) = 5
  /\ detect_n_plus_one (map parse_query spread_log) = Ok None.
Proof.
  split; [exact detect_n_plus_one_spec|].
  split; [intros occ; split; [|split]; reflexivity|].
  split; [vm_compute; reflexivity|].
  split; [vm_compute; reflexivity|].
  split; [vm_compute; reflexivity|].
  split; vm_compute; reflexivity.
Qed.

(** C7.  Missing filter: the detector emits one MEDIUM "Missing WHERE"
    issue per SELECT query that has neither a WHERE clause nor a LIMIT
    clause, in the order of the log, and nothing for any other query.
    [SELECT * FROM users] gives one MEDIUM issue; with [LIMIT 10] or with
    [WHERE active = true] it gives none. *)
Theorem missing_where_correct :
  (forall queries,
      detect_missing_where queries
      = map missing_where_issue (filter lacks_filter queries))
  /\ (forall q,
         severity (missing_where_issue q) = py "MEDIUM" /\
         category (missing_where_issue q) = py "Missing WHERE" /\
         QueryAnalyzer.queries (missing_where_issue q) = [raw q])
  /\ detect_missing_where [parse_query (py "SELECT * FROM users")]
     = [missing_where_issue (parse_query (py "SELECT * FROM users"))]
  /\ detect_missing_where [parse_query (py "SELECT * FROM users LIMIT 10")] = []
  /\ detect_missing_where
       [parse_query (py "SELECT * FROM users WHERE active = true")] = [].
Proof.
  split.
  { intros queries. unfold detect_missing_where.
    now rewrite missing_where_loop. }
  split; [intros q; split; [|split]; reflexivity|].
  split; [vm_compute; reflexivity|].
  split; vm_compute; reflexivity.
Qed.

(** C2.  Implicit cross join, on the specification's own example: for
    [SELECT * FROM a, b WHERE a.id = b.a_id] the table pattern of
    [parse_query] finds the table after FROM only, so the query counts one
    table, the test [len(q.tables) > 1] fails and the detector emits
    nothing, although the query has no JOIN keyword and a comma in its FROM
    clause. *)
Theorem cartesian_join_misses_comma_join :
  let q := parse_query (py "SELECT * FROM a, b WHERE a.id = b.a_id") in
  query_type q = py "SELECT"
  /\ has_join q = false
  /\ comma_in_from q = Ok true
  /\ tables q = [py "A"]
  /\ detect_cartesian_join [q] = Ok []
  /\ detect_cartesian_join
       [parse_query (py "SELECT * FROM a JOIN b ON a.id = b.a_id")] = Ok [].
Proof.
  cbv zeta.
  split; [vm_compute; reflexivity|].
  split; [vm_compute; reflexivity|].
  split; [vm_compute; reflexivity|].
  split; [vm_compute; reflexivity|].
  split; vm_compute; reflexivity.
Qed.

(** C4, as stated, fails on the empty log: the N+1 detector returns [None],
    not a sequence. *)
Lemma n_plus_one_returns_none :
  detect_n_plus_one [] = Ok None
  /\ ~ (exists issues : list Issue, detect_n_plus_one [] = Ok (Some issues)).
Proof.
  split; [reflexivity|]. intros [issues H]. discriminate.
Qed.

(** C4, amended.  Detector contract: the missing-filter, over-fetch and
    duplicate detectors are functions from logs to sequences of issues; the
    Cartesian-join detector and [analyze_queries] return a sequence of
    issues on every log; the N+1 detector returns [None] when no group
    qualifies and the non-empty sequence of its issues otherwise; on the
    empty log every sequence is empty. *)
Theorem detector_contract :
  (forall queries, exists l, detect_cartesian_join queries = Ok l)
  /\ (forall queries, exists l, analyze_queries queries = Ok l)
  /\ (forall queries,
         n_plus_one_spec queries = [] -> detect_n_plus_one queries = Ok None)
  /\ (forall queries,
         n_plus_one_spec queries <> [] ->
         detect_n_plus_one queries = Ok (Some (n_plus_one_spec queries)))
  /\ detect_missing_where [] = []
  /\ detect_select_star [] = []
  /\ detect_duplicate_queries [] = []
  /\ detect_cartesian_join [] = Ok []
  /\ analyze_queries [] = Ok [].
Proof.
  split; [exact detect_cartesian_join_total|].
  split; [exact analyze_queries_total|].
  split.
  { intros queries H. rewrite detect_n_plus_one_spec. now rewrite H. }
  split.
  { intros queries H. rewrite detect_n_plus_one_spec.
    destruct (n_plus_one_spec queries); [congruence | reflexivity]. }
  repeat split.
Qed.

(** C9.  Detector totality: no detector raises, on any log.  The N+1
    detector takes [max] and [min] of non-empty groups only; the
    Cartesian-join detector indexes the pieces of the text cut at FROM only
    when FROM occurs in it, and the first piece of a text cut at WHERE
    always exists, so its test is total also for queries without FROM or
    without WHERE; the other detectors are total functions. *)
Theorem detectors_total :
  (forall queries, exists r, detect_n_plus_one queries = Ok r)
  /\ (forall queries, exists l, detect_cartesian_join queries = Ok l)
  /\ (forall queries, exists l, analyze_queries queries = Ok l)
  /\ (forall q, exists b, comma_in_from q = Ok b)
  /\ (forall q, contains (py "FROM") (upper (raw q)) = false ->
                comma_in_from q = Ok false)
  /\ detect_cartesian_join [parse_query (py "SELECT 1, 2")] = Ok []
  /\ detect_cartesian_join
       [parse_query (py "SELECT * FROM a, (SELECT x FROM b) t")]
     = Ok [cartesian_join_issue
             (parse_query (py "SELECT * FROM a, (SELECT x FROM b) t"))].
Proof.
  split.
  { intros queries. rewrite detect_n_plus_one_spec. now eauto. }
  split; [exact detect_cartesian_join_total|].
  split; [exact analyze_queries_total|].
  split; [exact comma_in_from_total|].
  split.
  { intros q H. unfold comma_in_from. now rewrite H. }
  split; vm_compute; reflexivity.
Qed.

End QueryAnalyzerClaims.

(* ================================================================== *)
(** ** Numerals *)
(* ================================================================== *)

Lemma is_digit_not_sign (c : ascii) :
  is_digit c = true -> Ascii.eqb c "-" = false /\ Ascii.eqb c "+" = false.
Proof.
  intros H. split; destruct (Ascii.eqb_spec c "-"), (Ascii.eqb_spec c "+");
    subst; try reflexivity; discriminate.
Qed.

Lemma digits_val_acc (s : str) (a : Z) :
  (0 <= a)%Z ->
  (0 <= fold_left (fun acc c => 10 * acc + digit_val c) s a)%Z.
Proof.
  revert a. induction s as [|c s IH]; intros a Ha; cbn [fold_left]; [assumption|].
  apply IH. unfold digit_val. lia.
Qed.

Lemma digits_val_nonneg (s : str) : (0 <= digits_val s)%Z.
Proof. apply digits_val_acc. lia. Qed.

Lemma cut_sign_digit (c : ascii) (s : str) :
  is_digit c = true -> cut_sign (c :: s) = (None, c :: s).
Proof.
  intros H. unfold cut_sign.
  destruct (is_digit_not_sign c H) as [-> ->]. reflexivity.
Qed.

(** On what [isdigit] accepts, [int] reads a number not below 0 when the
    digits are within the limit, and raises [ValueError] when they are
    not. *)
Lemma py_int_digits (s : str) :
  isdigit s = true ->
  py_int s = if length s <=? int_max_str_digits
             then Ok (digits_val s) else Raise ValueError.
Proof.
  intros H. destruct s as [|c s]; [discriminate|].
  unfold py_int. cbn [isdigit forallb] in H.
  apply andb_true_iff in H. destruct H as [Hc Hs].
  rewrite cut_sign_digit by assumption. cbn [isdigit forallb].
  now rewrite Hc, Hs.
Qed.

Lemma py_int_isdigit (s : str) :
  isdigit s = true -> length s <= int_max_str_digits ->
  py_int s = Ok (digits_val s).
Proof.
  intros H L. rewrite (py_int_digits s H).
  apply Nat.leb_le in L. now rewrite L.
Qed.

Lemma py_int_long (s : str) :
  isdigit s = true -> int_max_str_digits < length s ->
  py_int s = Raise ValueError.
Proof.
  intros H L. rewrite (py_int_digits s H).
  apply Nat.leb_gt in L. now rewrite L.
Qed.

Lemma py_int_isdigit_ok (s : str) (z : Z) :
  isdigit s = true -> py_int s = Ok z -> z = digits_val s.
Proof.
  intros H. rewrite (py_int_digits s H).
  destruct (length s <=? int_max_str_digits); [|discriminate].
  now intros E; injection E as <-.
Qed.

Lemma py_int_error (s : str) (e : pyexc) : py_int s = Raise e -> e = ValueError.
Proof.
  unfold py_int. destruct (cut_sign s) as [sign d].
  destruct (isdigit d); [destruct (length d <=? int_max_str_digits)|];
    try discriminate; now intros H; injection H as <-.
Qed.

(* ================================================================== *)
(** ** The MySQL tabular parser *)
(* ================================================================== *)

Section Tabular.
Import ExplainParser PlanSpec AsciiText.

(** The row count of a row: [int(parts[9]) if len(parts) > 9 and
    parts[9].isdigit() else None]. *)
Lemma node_of_cells_fields (line : str) (parts : list str)
  (node : ExplainNode) (issues : list ExplainIssue) :
  node_of_cells line parts = Ok (node, issues) ->
  raw node = line /\ cost node = PNone /\ nonneg (rows node).
Proof.
  unfold node_of_cells.
  destruct (nth_error parts 9) as [p|]; cbn [bind].
  - destruct (isdigit p) eqn:E.
    + destruct (py_int p) as [n|e] eqn:En; cbn [bind]; [|discriminate].
      apply (@py_int_isdigit_ok _ _ E) in En. subst n.
      intros H. injection H as <- _. cbn.
      repeat split. apply digits_val_nonneg.
    + cbn [bind]. intros H. injection H as <- _. cbn. tauto.
  - intros H. injection H as <- _. cbn. tauto.
Qed.

Lemma node_of_cells_ok (line : str) (parts : list str) :
  match nth_error parts 9 with
  | Some p => isdigit p && (int_max_str_digits <? length p)
  | None => false
  end = false ->
  exists node issues, node_of_cells line parts = Ok (node, issues).
Proof.
  unfold node_of_cells.
  destruct (nth_error parts 9) as [p|]; cbn [bind]; [|now eauto].
  destruct (isdigit p) eqn:E; cbn [andb bind]; [|now eauto].
  intros L. apply Nat.ltb_ge in L.
  rewrite (@py_int_isdigit _ E L). cbn [bind]. now eauto.
Qed.

Lemma node_of_cells_long (line : str) (parts : list str) :
  match nth_error parts 9 with
  | Some p => isdigit p && (int_max_str_digits <? length p)
  | None => false
  end = true ->
  node_of_cells line parts = Raise ValueError.
Proof.
  unfold node_of_cells.
  destruct (nth_error parts 9) as [p|]; [|discriminate].
  destruct (isdigit p) eqn:E; cbn [andb]; [|discriminate].
  intros L. apply Nat.ltb_lt in L.
  now rewrite (@py_int_long _ E L).
Qed.

Lemma node_of_cells_error (line : str) (parts : list str) (e : pyexc) :
  node_of_cells line parts = Raise e -> e = ValueError.
Proof.
  unfold node_of_cells.
  destruct (nth_error parts 9) as [p|]; [|discriminate].
  destruct (isdigit p); [|discriminate].
  destruct (py_int p) as [n|e'] eqn:En; cbn [bind]; [discriminate|].
  intros H. injection H as <-. now apply py_int_error in En.
Qed.

Lemma is_data_row_cells (line : str) :
  is_data_row line = negb (is_header line) && (10 <=? length (cells line)).
Proof.
  unfold is_data_row, is_header, cells. rewrite length_map, negb_orb.
  reflexivity.
Qed.

Lemma mysql_line_data_row (line : str) :
  is_data_row line = true ->
  mysql_line line
  = do ni <- node_of_cells line (cells line); Ok (Some (fst ni), snd ni).
Proof.
  rewrite is_data_row_cells. intros H. apply andb_true_iff in H.
  destruct H as [Hh Hc]. apply negb_true_iff in Hh.
  unfold mysql_line. now rewrite Hh, Hc.
Qed.

Lemma mysql_line_row (line : str) :
  is_data_row line = true -> long_rows_cell line = false ->
  exists node issues,
    mysql_line line = Ok (Some node, issues) /\ raw node = line
    /\ cost node = PNone /\ nonneg (rows node).
Proof.
  intros H L. rewrite (@mysql_line_data_row line H).
  destruct (@node_of_cells_ok line (cells line) L) as (node & issues & E).
  rewrite E. cbn [bind fst snd]. exists node, issues.
  split; [reflexivity|]. now apply (@node_of_cells_fields _ _ _ _ E).
Qed.

Lemma mysql_line_unreadable (line : str) :
  unreadable_row line = true -> mysql_line line = Raise ValueError.
Proof.
  unfold unreadable_row. intros H. apply andb_true_iff in H.
  destruct H as [H L]. rewrite (@mysql_line_data_row line H).
  now rewrite (@node_of_cells_long line (cells line) L).
Qed.

Lemma mysql_line_skip (line : str) :
  is_data_row line = false -> mysql_line line = Ok (None, []).
Proof.
  rewrite is_data_row_cells. intros H. unfold mysql_line.
  destruct (is_header line); [reflexivity|]. cbn [negb andb] in H.
  now rewrite H.
Qed.

(** What a line that is read gives. *)
Lemma mysql_line_ok (line : str) (r : option ExplainNode * list ExplainIssue) :
  mysql_line line = Ok r ->
  if is_data_row line
  then exists node, fst r = Some node /\ raw node = line
                    /\ cost node = PNone /\ nonneg (rows node)
  else r = (None, []).
Proof.
  destruct (is_data_row line) eqn:E.
  - rewrite (@mysql_line_data_row line E).
    destruct (node_of_cells line (cells line)) as [[node issues]|e] eqn:N;
      cbn [bind]; [|discriminate].
    intros H. injection H as <-. cbn [fst snd]. exists node.
    split; [reflexivity|]. now apply (@node_of_cells_fields _ _ _ _ N).
  - rewrite (@mysql_line_skip line E). now intros H; injection H as <-.
Qed.

Lemma mysql_line_error (line : str) (e : pyexc) :
  mysql_line line = Raise e -> e = ValueError /\ unreadable_row line = true.
Proof.
  intros H. unfold unreadable_row. destruct (is_data_row line) eqn:E.
  - rewrite (@mysql_line_data_row line E) in H.
    destruct (node_of_cells line (cells line)) as [ni|e'] eqn:N; cbn [bind] in H;
      [discriminate|].
    injection H as <-. split; [now apply node_of_cells_error in N|].
    cbn [andb]. unfold long_rows_cell.
    destruct (match nth_error (cells line) 9 with
              | Some p => isdigit p && (int_max_str_digits <? length p)
              | None => false
              end) eqn:L; [reflexivity|].
    destruct (@node_of_cells_ok line (cells line) L) as (n & i & E').
    congruence.
  - rewrite (@mysql_line_skip line E) in H. discriminate.
Qed.

(** The lines that are read: the nodes are those of the data rows. *)
Lemma mysql_lines_ok (lines : list str) :
  forall nodes0 issues0 r,
    mysql_lines lines nodes0 issues0 = Ok r ->
    exists nodes issues,
      r = (nodes0 ++ nodes, issues0 ++ issues)
      /\ map raw nodes = filter is_data_row lines
      /\ Forall (fun n => cost n = PNone /\ nonneg (rows n)) nodes.
Proof.
  induction lines as [|line t IH]; intros nodes0 issues0 r;
    cbn [mysql_lines filter].
  - intros H. injection H as <-. exists [], []. now rewrite !app_nil_r.
  - destruct (mysql_line line) as [x|e] eqn:L; cbn [bind]; [|discriminate].
    apply mysql_line_ok in L. intros H. apply IH in H.
    destruct H as (nodes & issues & -> & Hmap & Hall).
    destruct (is_data_row line).
    + destruct L as (node & Ex & Hraw & Hn). rewrite Ex.
      exists (node :: nodes), (snd x ++ issues).
      rewrite <- !app_assoc. cbn [app map]. rewrite Hraw, Hmap.
      repeat split; auto.
    + subst x. cbn [fst snd]. exists nodes, issues.
      now rewrite app_nil_r.
Qed.

Lemma mysql_lines_rows (lines : list str) :
  Forall (fun line => unreadable_row line = false) lines ->
  forall nodes0 issues0,
  exists r, mysql_lines lines nodes0 issues0 = Ok r.
Proof.
  induction 1 as [|line t Hl _ IH]; intros nodes0 issues0;
    cbn [mysql_lines]; [now eauto|].
  destruct (mysql_line line) as [x|e] eqn:L; cbn [bind]; [apply IH|].
  apply mysql_line_error in L. destruct L as [_ L]. congruence.
Qed.

Lemma mysql_lines_error (lines : list str) :
  forall nodes0 issues0 e,
    mysql_lines lines nodes0 issues0 = Raise e ->
    e = ValueError /\ Exists (fun line => unreadable_row line = true) lines.
Proof.
  induction lines as [|line t IH]; intros nodes0 issues0 e;
    cbn [mysql_lines]; [discriminate|].
  destruct (mysql_line line) as [x|e'] eqn:L; cbn [bind].
  - intros H. apply IH in H. destruct H as [-> H]. split; [reflexivity|].
    now apply Exists_cons_tl.
  - intros H. injection H as <-. apply mysql_line_error in L.
    destruct L as [-> L]. split; [reflexivity|]. now apply Exists_cons_hd.
Qed.

Lemma mysql_lines_skip (lines : list str) (nodes0 : list ExplainNode)
  (issues0 : list ExplainIssue) :
  mysql_lines lines nodes0 issues0
  = mysql_lines (filter is_data_row lines) nodes0 issues0.
Proof.
  revert nodes0 issues0. induction lines as [|line t IH]; intros nodes0 issues0;
    cbn [filter]; [reflexivity|].
  destruct (is_data_row line) eqn:E; cbn [mysql_lines].
  - destruct (mysql_line line); cbn [bind]; [apply IH | reflexivity].
  - rewrite (@mysql_line_skip line E). cbn [bind fst snd].
    rewrite app_nil_r. apply IH.
Qed.

End Tabular.

Section TabularClaim.
Import ExplainParser PlanSpec AsciiText.

(** C10.  The claim fails on a data row whose rows cell is a run of more
    digits than [int] reads: the guard [parts[9].isdigit()] lets the cell
    through, [int] raises [ValueError], and the parser returns neither the
    node of the row nor the nodes of the other rows. *)
Lemma mysql_tabular_row_raises :
  let row :=
    py "| 1 | SIMPLE | users | NULL | ALL | NULL | NULL | NULL | NULL | "
       ++ repeat "1"%char 4301 ++ py " | 100.00 | NULL |" in
  is_data_row row = true
  /\ mysql_line row = Raise ValueError
  /\ parse_mysql_tabular
       (py "| 1 | SIMPLE | orders | NULL | ref | NULL | NULL | NULL | NULL | 10 | 100.00 | NULL |"
           ++ newline ++ row)
     = Raise ValueError.
Proof. vm_compute. repeat split. Qed.

(** X21.  In the MySQL tabular parser a line of ASCII text produces a plan
    node if and only if it is not a header line (it does not hold
    [select_type] in any case and does not start with [+]) and, cut at
    [|], it has at least 10 cells that are not empty once trimmed, unless
    the tenth cell is a run of more than 4300 digits, on which the parser
    raises [ValueError]; every other line is skipped and leaves neither a
    node nor an issue.  So the parser raises, and then [ValueError], exactly
    when the text has such a row; otherwise the nodes are those of the
    data rows, in order, and dropping the other lines changes nothing. *)
Theorem mysql_tabular_rows :
  (forall line,
      ascii_text line ->
      is_data_row line = true -> long_rows_cell line = false ->
      exists node issues,
        mysql_line line = Ok (Some node, issues) /\ raw node = line)
  /\ (forall line,
         ascii_text line ->
         is_data_row line = true -> long_rows_cell line = true ->
         mysql_line line = Raise ValueError)
  /\ (forall line,
         ascii_text line ->
         is_data_row line = false -> mysql_line line = Ok (None, []))
  /\ (forall text,
         ascii_text text ->
         Forall (fun line => unreadable_row line = false)
                (split newline (strip text)) ->
         exists nodes issues,
           parse_mysql_tabular text = Ok (nodes, issues)
           /\ map raw nodes = filter is_data_row (split newline (strip text)))
  /\ (forall text,
         ascii_text text ->
         Exists (fun line => unreadable_row line = true)
                (split newline (strip text)) ->
         parse_mysql_tabular text = Raise ValueError)
  /\ (forall lines,
         Forall ascii_text lines ->
         mysql_lines lines [] [] = mysql_lines (filter is_data_row lines) [] []).
Proof.
  split.
  { intros line _ H L. destruct (@mysql_line_row line H L) as (n & i & E & R & _).
    now eauto. }
  split.
  { intros line _ H L. apply mysql_line_unreadable. unfold unreadable_row.
    now rewrite H, L. }
  split; [intros line _; apply mysql_line_skip|].
  split.
  { intros text _ F. unfold parse_mysql_tabular.
    destruct (@mysql_lines_rows _ F [] []) as [r E].
    destruct (@mysql_lines_ok _ _ _ _ E) as (nodes & issues & -> & Hraw & _).
    rewrite E. cbn [app]. now eauto. }
  split.
  { intros text _ X. unfold parse_mysql_tabular.
    destruct (mysql_lines (split newline (strip text)) [] []) as [r|e] eqn:E.
    - exfalso. destruct (@mysql_lines_ok _ _ _ _ E) as (nodes & issues & _).
      clear nodes issues. revert E. generalize (@nil ExplainNode).
      generalize (@nil ExplainIssue). revert r.
      induction X as [line t Hl|line t _ IH]; intros r i0 n0;
        cbn [mysql_lines].
      + now rewrite (@mysql_line_unreadable line Hl).
      + destruct (mysql_line line); cbn [bind]; [apply IH | discriminate].
    - now apply mysql_lines_error in E as [-> _]. }
  intros lines _. apply mysql_lines_skip.
Qed.

Lemma mysql_tabular_rows_witness :
  (exists node issues,
      mysql_line (py "| 1 | SIMPLE | users | NULL | ALL | NULL | NULL | NULL | NULL | 1000 | 100.00 | Using filesort |")
      = Ok (Some node, issues))
  /\ mysql_line (py "| id | select_type | table | partitions | type | possible_keys | key | key_len | ref | rows | filtered | Extra |")
     = Ok (None, [])
  /\ mysql_line (py "+----+-------------+-------+") = Ok (None, [])
  /\ mysql_line (py "| 1 | SIMPLE | users | NULL | ALL | NULL | NULL | NULL | NULL |")
     = Ok (None, []).
Proof.
  split.
  { destruct (proj1 mysql_tabular_rows
                (py "| 1 | SIMPLE | users | NULL | ALL | NULL | NULL | NULL | NULL | 1000 | 100.00 | Using filesort |")
                eq_refl eq_refl eq_refl) as (n & i & E & _).
    now eauto. }
  split; [apply (proj1 (proj2 (proj2 mysql_tabular_rows))); reflexivity|].
  split; apply (proj1 (proj2 (proj2 mysql_tabular_rows))); reflexivity.
Defined.

End TabularClaim.

(* ================================================================== *)
(** ** The matcher and the texts it captures *)
(* ================================================================== *)

Section Soundness.

Lemma m_sound (r : regex) :
  forall st k res,
    m r st k = Some res -> exists st', reach r st st' /\ k st' = Some res.
Proof.
  induction r as [|p|a IHa b IHb|a IHa b IHb|a IHa|a IHa|n a IHa| |];
    intros st k res H; cbn [m reach] in *.
  - now eauto.
  - destruct (rest st) as [|c t] eqn:E; [discriminate|].
    destruct (p c) eqn:Ep; [|discriminate].
    exists (advance c t st). split; [|assumption]. now exists c, t.
  - apply IHa in H. destruct H as (mid & Ha & H).
    apply IHb in H. destruct H as (st' & Hb & H). now eauto.
  - destruct (m a st k) eqn:E.
    + inversion H; subst. apply IHa in E. destruct E as (st' & ? & ?). now eauto.
    + apply IHb in H. destruct H as (st' & ? & ?). now eauto.
  - revert H. generalize (S (length (rest st))). intros fuel. revert st.
    induction fuel as [|f IHf]; intros st H; cbn [star_loop] in H.
    + exists st. split; [apply iter_nil | assumption].
    + match type of H with
      | match ?x with _ => _ end = _ => destruct x eqn:E
      end.
      * inversion H; subst. apply IHa in E. destruct E as (st1 & Ha & E).
        destruct (pos st <? pos st1); [|discriminate].
        apply IHf in E. destruct E as (st' & Hs & E).
        exists st'. split; [|assumption]. now apply iter_cons with st1.
      * exists st. split; [apply iter_nil | assumption].
  - revert H. generalize (S (length (rest st))). intros fuel. revert st.
    induction fuel as [|f IHf]; intros st H; cbn [lazy_loop] in H.
    + exists st. split; [apply iter_nil | assumption].
    + destruct (k st) eqn:Ek.
      * inversion H; subst. exists st. split; [apply iter_nil | assumption].
      * apply IHa in H. destruct H as (st1 & Ha & E).
        destruct (pos st <? pos st1); [|discriminate].
        apply IHf in E. destruct E as (st' & Hs & E).
        exists st'. split; [|assumption]. now apply iter_cons with st1.
  - apply IHa in H. destruct H as (st1 & Ha & H). now eauto.
  - destruct (pos st =? 0) eqn:E; [|discriminate].
    apply Nat.eqb_eq in E. now eauto.
  - destruct (xorb (word_before st) (word_after st)) eqn:E; [|discriminate].
    now eauto.
Qed.

Lemma match_at_sound (r : regex) (p : nat) (pv : option ascii) (s : str)
  (st' : mstate) :
  match_at r p pv s = Some st' -> reach r (MState p pv s []) st'.
Proof.
  intros H. apply m_sound in H. destruct H as (st1 & Hr & E).
  now inversion E; subst.
Qed.

End Soundness.

Section Captures.

Lemma reach_pos_le (r : regex) :
  forall st st', reach r st st' -> pos st <= pos st'.
Proof.
  induction r as [|p|a IHa b IHb|a IHa b IHb|a IHa|a IHa|n a IHa| |];
    intros st st' H; cbn [reach] in H.
  - subst. lia.
  - destruct H as (c & t & _ & _ & ->). cbn. lia.
  - destruct H as (mid & Ha & Hb). apply IHa in Ha. apply IHb in Hb. lia.
  - destruct H as [H | H]; auto.
  - induction H as [st|st mid st' H1 _ IH]; [lia|]. apply IHa in H1. lia.
  - induction H as [st|st mid st' H1 _ IH]; [lia|]. apply IHa in H1. lia.
  - destruct H as (st1 & Ha & ->). apply IHa in Ha. cbn. lia.
  - destruct H as [_ ->]. lia.
  - destruct H as [_ ->]. lia.
Qed.

Lemma reach_caps (Q : str -> Prop) (r : regex) :
  grp_inv Q r ->
  forall st st',
    reach r st st' ->
    Forall (fun c => Q (snd c)) (caps st) ->
    Forall (fun c => Q (snd c)) (caps st').
Proof.
  induction r as [|p|a IHa b IHb|a IHa b IHb|a IHa|a IHa|n a IHa| |];
    intros G st st' H Hc; cbn [reach grp_inv] in *.
  - now subst.
  - destruct H as (c & t & _ & _ & ->). exact Hc.
  - destruct G as [Ga Gb]. destruct H as (mid & Ha & Hb).
    eapply IHb; [assumption | eassumption |]. eapply IHa; eassumption.
  - destruct G as [Ga Gb]. destruct H as [H | H]; [eapply IHa | eapply IHb];
      eassumption.
  - induction H as [st|st mid st' H1 _ IH]; [assumption|].
    apply IH. eapply IHa; eassumption.
  - induction H as [st|st mid st' H1 _ IH]; [assumption|].
    apply IH. eapply IHa; eassumption.
  - destruct G as [Gq Ga]. destruct H as (st1 & Ha & ->). cbn [capture caps].
    constructor; [cbn [snd]; now apply Gq|]. eapply IHa; eassumption.
  - destruct H as [_ ->]. exact Hc.
  - destruct H as [_ ->]. exact Hc.
Qed.

(** A group [(c...)] whose first character is of a class without signs. *)
Lemma reach_class_first (p : ascii -> bool) (r : regex) (st st1 : mstate) :
  (forall c, p c = true -> Ascii.eqb c "-" = false /\ Ascii.eqb c "+" = false) ->
  reach (Seq (Chr p) r) st st1 ->
  no_sign (firstn (pos st1 - pos st) (rest st)).
Proof.
  intros Hp (mid & (c & t & E & Hc & ->) & Hr).
  apply reach_pos_le in Hr. cbn [advance pos] in Hr.
  rewrite E. destruct (pos st1 - pos st) as [|k] eqn:Ek; [lia|].
  cbn [firstn]. exists c, (firstn k t). split; [reflexivity|]. now apply Hp.
Qed.

Lemma group_In (n : nat) (cs : list (nat * str)) (s : str) :
  group n cs = Some s -> In (n, s) cs.
Proof.
  induction cs as [|[i x] cs IH]; cbn [group]; [discriminate|].
  destruct (i =? n) eqn:E.
  - apply Nat.eqb_eq in E. intros H. inversion H; subst. now left.
  - intros H. right. auto.
Qed.

Lemma cut_sign_no_sign (s : str) : no_sign s -> cut_sign s = (None, s).
Proof.
  intros (c & t & -> & E1 & E2). unfold cut_sign. now rewrite E1, E2.
Qed.

Lemma decimal_val_nonneg (ip fp : str) : (0 <= decimal_val ip fp)%Q.
Proof.
  unfold decimal_val, Qle. cbn [Qnum Qden].
  pose proof (digits_val_nonneg (ip ++ fp)). lia.
Qed.

Lemma py_float_no_sign (s : str) (q : Q) :
  no_sign s -> py_float s = Ok q -> (0 <= q)%Q.
Proof.
  intros Hs. unfold py_float. rewrite (cut_sign_no_sign Hs).
  unfold py_float_unsigned.
  destruct (cut_point s) as [ip [fp|]].
  - destruct (_ && _); cbn [bind]; [|discriminate].
    intros H. inversion H; subst. apply decimal_val_nonneg.
  - destruct (isdigit ip); cbn [bind]; [|discriminate].
    intros H. inversion H; subst. apply decimal_val_nonneg.
Qed.

Lemma py_int_no_sign (s : str) (z : Z) :
  no_sign s -> py_int s = Ok z -> (0 <= z)%Z.
Proof.
  intros Hs. unfold py_int. rewrite (cut_sign_no_sign Hs).
  destruct (isdigit s); [|discriminate].
  destruct (length s <=? int_max_str_digits); [|discriminate].
  intros H. inversion H; subst. apply digits_val_nonneg.
Qed.

End Captures.

Section Postgres.
Import ExplainParser PlanSpec.

Ltac no_sign_class :=
  let c := fresh "c" in
  let Hc := fresh "Hc" in
  intros c Hc;
  split;
  [ destruct (Ascii.eqb_spec c "-") | destruct (Ascii.eqb_spec c "+") ];
  try reflexivity; subst; vm_compute in Hc; discriminate Hc.

Lemma node_pattern_groups : grp_inv no_sign node_pattern.
Proof.
  unfold node_pattern, py. cbn -[reach].
  repeat split;
    intros st st1 H; refine (reach_class_first _ H); no_sign_class.
Qed.

Lemma node_match_caps (line : str) (node_match : mstate) :
  re_match node_pattern line = Some node_match ->
  Forall (fun c => no_sign (snd c)) (caps node_match).
Proof.
  intros H. apply match_at_sound in H.
  eapply reach_caps; [apply node_pattern_groups | exact H | constructor].
Qed.

Lemma float_group_nonneg (n : nat) (st : mstate) (q : Q) :
  Forall (fun c => no_sign (snd c)) (caps st) ->
  float_group n st = Ok q -> (0 <= q)%Q.
Proof.
  intros Hc. unfold float_group. destruct (group n (caps st)) as [s|] eqn:E;
    [|discriminate].
  apply group_In in E. rewrite Forall_forall in Hc. apply Hc in E.
  now apply py_float_no_sign.
Qed.

Lemma int_group_nonneg (n : nat) (st : mstate) (z : Z) :
  Forall (fun c => no_sign (snd c)) (caps st) ->
  int_group n st = Ok z -> (0 <= z)%Z.
Proof.
  intros Hc. unfold int_group. destruct (group n (caps st)) as [s|] eqn:E;
    [|discriminate].
  apply group_In in E. rewrite Forall_forall in Hc. apply Hc in E.
  now apply py_int_no_sign.
Qed.

Lemma bind_ok {A B : Type} (x : res A) (f : A -> res B) (b : B) :
  bind x f = Ok b -> exists a, x = Ok a /\ f a = Ok b.
Proof. destruct x; cbn [bind]; [now eauto | discriminate]. Qed.

(** The fields of the node of a matched line. *)
Lemma node_of_match_fields (line : str) (node_match : mstate)
  (node : ExplainNode) (issues : list ExplainIssue) :
  node_of_match line node_match = Ok (node, issues) ->
  exists total_cost estimated_rows,
    float_group 4 node_match = Ok total_cost /\
    int_group 5 node_match = Ok estimated_rows /\
    cost node = PFloat total_cost /\ rows node = PInt estimated_rows /\
    raw node = line /\
    node_type node
    = PStr (strip (match group 1 (caps node_match) with
                   | Some s => s | None => [] end)).
Proof.
  unfold node_of_match. intros H.
  apply bind_ok in H. destruct H as (startup & _ & H).
  apply bind_ok in H. destruct H as (total & Ht & H).
  apply bind_ok in H. destruct H as (est & He & H).
  apply bind_ok in H. destruct H as ([[atime arows] aloops] & _ & H).
  apply bind_ok in H. destruct H as (ratio & _ & H).
  inversion H; subst. exists total, est. cbn. tauto.
Qed.

Lemma postgres_line_nonneg (line : str) (node : ExplainNode)
  (issues : list ExplainIssue) :
  postgres_line line = Ok (Some node, issues) ->
  nonneg (cost node) /\ nonneg (rows node).
Proof.
  unfold postgres_line. destruct (is_footer line); [discriminate|].
  intros H. apply bind_ok in H. destruct H as ([found fissues] & Hf & H).
  apply bind_ok in H. destruct H as (warn & _ & H).
  cbn [fst snd] in H. inversion H; subst.
  destruct (re_match node_pattern line) as [node_match|] eqn:Em; [|discriminate].
  apply bind_ok in Hf. destruct Hf as ([n i] & Hn & Hf).
  cbn [fst snd] in Hf. inversion Hf; subst.
  destruct (node_of_match_fields _ _ Hn)
    as (total & est & Ht & He & -> & -> & _).
  pose proof (node_match_caps _ Em) as Hc. cbn [nonneg]. split.
  - eapply float_group_nonneg; eassumption.
  - eapply int_group_nonneg; eassumption.
Qed.

Lemma postgres_lines_nonneg (lines : list str) :
  forall nodes0 issues0 nodes issues,
    Forall (fun n => nonneg (cost n) /\ nonneg (rows n)) nodes0 ->
    postgres_lines lines nodes0 issues0 = Ok (nodes, issues) ->
    Forall (fun n => nonneg (cost n) /\ nonneg (rows n)) nodes.
Proof.
  induction lines as [|line t IH]; intros nodes0 issues0 nodes issues H0 H;
    cbn [postgres_lines] in H.
  - now inversion H; subst.
  - apply bind_ok in H. destruct H as ([n i] & Hl & H). cbn [fst snd] in H.
    eapply IH; [|exact H]. destruct n as [n|]; [|assumption].
    apply Forall_app. split; [assumption|]. constructor; [|constructor].
    eapply postgres_line_nonneg; eassumption.
Qed.

End Postgres.

(* ================================================================== *)
(** ** The claims about explain_parser.py *)
(* ================================================================== *)

Section PlanClaims.
Import ExplainParser PlanSpec.

(** C6.  The claim fails at a node whose actual row count is beyond the
    range of a float: the estimate 100 is greater than 0 and the ratio of
    the actual count 10^400 to it is greater than 10, so that the claim has
    a MEDIUM issue for the node; the division [actual_rows /
    estimated_rows] raises [OverflowError], and the parser returns neither
    the issue nor the node. *)
Lemma row_ratio_overflows :
  let line :=
    py "Index Scan using orders_pkey on orders  (cost=0.29..8.31 rows=100 width=36) (actual time=0.020..1.250 rows=1"
       ++ repeat "0"%char 400 ++ py " loops=1)" in
  (exists node_match,
      re_match node_pattern line = Some node_match
      /\ int_group 5 node_match = Ok 100%Z
      /\ int_group 9 node_match = Ok (10 ^ 400)%Z)
  /\ (0 < 100)%Z /\ (10 * 100 < 10 ^ 400)%Z
  /\ true_div (10 ^ 400) 100 = Raise OverflowError
  /\ postgres_line line = Raise OverflowError
  /\ parse_postgres_explain line = Raise OverflowError.
Proof.
  cbv zeta. split.
  { eexists. split; [vm_compute; reflexivity|]. split; vm_compute; reflexivity. }
  split; [reflexivity|].
  split; [vm_compute; reflexivity|].
  split; [vm_compute; reflexivity|].
  split; vm_compute; reflexivity.
Qed.

End PlanClaims.

Section NonNegative.
Import ExplainParser PlanSpec.

(** C5, as stated, fails for the MySQL JSON parser: it copies the numbers of
    the document into the node, negative ones too. *)
Lemma json_parser_keeps_negative_values :
  ~ (forall json_dumps py_str nodes issues,
        parse_mysql_explain_json json_dumps py_str 8 negative_plan
        = Ok (nodes, issues) ->
        Forall (fun n => nonneg (cost n) /\ nonneg (rows n)) nodes).
Proof.
  intros H.
  specialize (H (fun _ => []) (fun _ => []) _ _ eq_refl).
  inversion H as [|n l [Hc Hr] _]; subst.
  cbn in Hr. lia.
Qed.

(** C5, amended.  Non-negativity: every node produced by the PostgreSQL
    text parser has a cost and an estimated row count that are at least 0,
    and every node produced by the MySQL tabular parser has no cost and a
    row count that is absent or at least 0.  The MySQL JSON parser stores
    [cost_info.read_cost] and [rows_examined_per_scan] as it finds them in
    the document. *)
Theorem plan_nodes_nonneg :
  (forall text nodes issues,
      parse_postgres_explain text = Ok (nodes, issues) ->
      Forall (fun n => nonneg (cost n) /\ nonneg (rows n)) nodes)
  /\ (forall text nodes issues,
         parse_mysql_tabular text = Ok (nodes, issues) ->
         Forall (fun n => cost n = PNone /\ nonneg (rows n)) nodes)
  /\ (forall json_dumps py_str rows_examined read_cost,
         exists node,
           parse_mysql_explain_json json_dumps py_str 2
             (single_table_plan rows_examined read_cost)
           = Ok ([node], [])
           /\ cost node = read_cost /\ rows node = rows_examined).
Proof.
  split.
  { intros text nodes issues H. unfold parse_postgres_explain in H.
    eapply postgres_lines_nonneg; [|exact H]. constructor. }
  split.
  { intros text nodes issues H. unfold parse_mysql_tabular in H.
    destruct (@mysql_lines_ok _ _ _ _ H) as (nodes' & issues' & E & _ & Hall).
    cbn [app] in E. now inversion E; subst. }
  intros json_dumps py_str rows_examined read_cost.
  eexists. split; [reflexivity|]. split; reflexivity.
Qed.

Lemma plan_nodes_nonneg_witness :
  Forall (fun n => nonneg (cost n) /\ nonneg (rows n))
    [mkNode (PStr (py "Seq Scan")) (PStr (py "users")) (PFloat (43100 # 100))
            (PInt 10000) None None None []
            (py "Seq Scan on users  (cost=0.00..431.00 rows=10000 width=244)")
            []]
  /\ Forall (fun n => cost n = PNone /\ nonneg (rows n))
       [mkNode (PStr (py "ALL")) (PStr (py "users")) PNone (PInt 1000)
               None None None []
               (py "| 1 | SIMPLE | users | NULL | ALL | NULL | NULL | NULL | NULL | 1000 | 100.00 | NULL |")
               []].
Proof.
  split.
  - refine (proj1 plan_nodes_nonneg
              (py "Seq Scan on users  (cost=0.00..431.00 rows=10000 width=244)")
              _ [seq_scan_issue (py "Seq Scan") (Some (py "users"))] _).
    vm_compute. reflexivity.
  - refine (proj1 (proj2 plan_nodes_nonneg)
              (py "| 1 | SIMPLE | users | NULL | ALL | NULL | NULL | NULL | NULL | 1000 | 100.00 | NULL |")
              _ [full_table_scan_issue (py "users")] _).
    vm_compute. reflexivity.
Defined.

End NonNegative.

(* ================================================================== *)
(** ** Texts no pattern matches *)
(* ================================================================== *)

Section Requires.

Lemma reach_suffix (r : regex) :
  forall st st', reach r st st' -> exists w, rest st = w ++ rest st'.
Proof.
  induction r as [|p|a IHa b IHb|a IHa b IHb|a IHa|a IHa|n a IHa| |];
    intros st st' H; cbn [reach] in H.
  - subst. now exists [].
  - destruct H as (c & t & E & _ & ->). exists [c]. now rewrite E.
  - destruct H as (mid & Ha & Hb). apply IHa in Ha. apply IHb in Hb.
    destruct Ha as [w1 E1], Hb as [w2 E2]. exists (w1 ++ w2).
    now rewrite E1, E2, app_assoc.
  - destruct H as [H | H]; auto.
  - induction H as [st|st mid st' H1 _ IH]; [now exists []|].
    apply IHa in H1. destruct H1 as [w1 E1], IH as [w2 E2].
    exists (w1 ++ w2). now rewrite E1, E2, app_assoc.
  - induction H as [st|st mid st' H1 _ IH]; [now exists []|].
    apply IHa in H1. destruct H1 as [w1 E1], IH as [w2 E2].
    exists (w1 ++ w2). now rewrite E1, E2, app_assoc.
  - destruct H as (st1 & Ha & ->). apply IHa in Ha. exact Ha.
  - destruct H as [_ ->]. now exists [].
  - destruct H as [_ ->]. now exists [].
Qed.

Lemma reach_requires (q : ascii -> bool) (r : regex) :
  requires q r ->
  forall st st', reach r st st' -> exists c, In c (rest st) /\ q c = true.
Proof.
  induction r as [|p|a IHa b IHb|a IHa b IHb|a IHa|a IHa|n a IHa| |];
    intros R st st' H; cbn [reach requires] in *; try contradiction.
  - destruct H as (c & t & E & Hp & _). exists c. rewrite E.
    split; [now left | auto].
  - destruct H as (mid & Ha & Hb). destruct R as [R | R].
    + eapply IHa; eassumption.
    + destruct (IHb R _ _ Hb) as (c & Hin & Hq).
      apply reach_suffix in Ha. destruct Ha as [w E]. exists c.
      rewrite E. split; [apply in_or_app; now right | assumption].
  - destruct R as [Ra Rb]. destruct H as [H | H]; [eapply IHa | eapply IHb];
      eassumption.
  - destruct H as (st1 & Ha & _). eapply IHa; eassumption.
Qed.




End Requires.

(* ================================================================== *)
(** ** Whitespace collapsing and upper-casing *)
(* ================================================================== *)

Section Collapse.

Ltac all_chars c := destruct c as [[] [] [] [] [] [] [] []]; reflexivity.

Lemma upper_char_idem (c : ascii) : upper_char (upper_char c) = upper_char c.
Proof. all_chars c. Qed.

Lemma is_space_upper_char (c : ascii) : is_space (upper_char c) = is_space c.
Proof. all_chars c. Qed.


Lemma upper_idem (s : str) : upper (upper s) = upper s.
Proof.
  unfold upper. rewrite map_map. apply map_ext. apply upper_char_idem.
Qed.

Lemma upper_app (a b : str) : upper (a ++ b) = upper a ++ upper b.
Proof. apply map_app. Qed.


Lemma cons_nonempty_words (w : str) (ws : list str) :
  forallb (fun c => negb (is_space c)) w = true -> Forall word ws ->
  Forall word (cons_nonempty w ws).
Proof.
  intros Hw Hws. destruct w as [|c w]; [assumption|].
  cbn [cons_nonempty]. constructor; [|assumption]. split; [discriminate|assumption].
Qed.

Lemma split_ws_go_words (s : str) :
  forallb (fun c => negb (is_space c)) (fst (split_ws_go s)) = true
  /\ Forall word (snd (split_ws_go s)).
Proof.
  induction s as [|c t [IH1 IH2]]; cbn [split_ws_go]; [split; [reflexivity|constructor]|].
  destruct (split_ws_go t) as [w ws]. cbn [fst snd] in *.
  destruct (is_space c) eqn:E; cbn [fst snd].
  - split; [reflexivity|]. now apply cons_nonempty_words.
  - split; [|assumption]. cbn [forallb]. now rewrite E, IH1.
Qed.















End Collapse.

(* ================================================================== *)
(** ** The normalizer *)
(* ================================================================== *)

Section Normalizer.
Import QueryAnalyzer.

















End Normalizer.

(* ================================================================== *)
(** ** The matches of the normalizer's patterns *)
(* ================================================================== *)

Unset Implicit Arguments.

Section Loops.
Import QueryAnalyzer.

Lemma pos_fwd (n : nat) :
  forall st, n <= length (rest st) -> pos (fwd n st) = pos st + n.
Proof.
  induction n as [|n IH]; intros st H; cbn [fwd]; [lia|].
  destruct (rest st) as [|c t] eqn:E; cbn [length] in H; [lia|].
  rewrite IH by (cbn; lia). cbn. lia.
Qed.

Lemma rest_fwd (n : nat) :
  forall st, rest (fwd n st) = skipn n (rest st).
Proof.
  induction n as [|n IH]; intros st; cbn [fwd skipn]; [reflexivity|].
  destruct (rest st) as [|c t] eqn:E; [now rewrite E|].
  now rewrite IH.
Qed.

Lemma caps_fwd (n : nat) : forall st, caps (fwd n st) = caps st.
Proof.
  induction n as [|n IH]; intros st; cbn [fwd]; [reflexivity|].
  destruct (rest st) as [|c t]; [reflexivity|]. now rewrite IH.
Qed.

Lemma run_le (p : ascii -> bool) (s : str) : run p s <= length s.
Proof.
  induction s as [|c t IH]; cbn [run length]; [lia|].
  destruct (p c); lia.
Qed.

(** One turn of the greedy star over a character class. *)
Lemma star_chr_step (p : ascii -> bool) (k : mstate -> option mstate)
  (f : nat) (st : mstate) :
  star_loop (m (Chr p)) k (S f) st
  = match rest st with
    | c :: t =>
        if p c then
          match star_loop (m (Chr p)) k f (advance c t st) with
          | Some x => Some x
          | None => k st
          end
        else k st
    | [] => k st
    end.
Proof.
  cbn [star_loop m]. destruct (rest st) as [|c t]; [reflexivity|].
  destruct (p c); [|reflexivity].
  cbn [advance pos]. now rewrite (proj2 (Nat.ltb_lt _ _) (Nat.lt_succ_diag_r _)).
Qed.

(** A greedy star whose continuation fails before every character of the
    class takes the whole run. *)
Lemma star_chr_det (p : ascii -> bool) (k : mstate -> option mstate)
  (I : mstate -> Prop) :
  (forall st c t, I st -> rest st = c :: t -> p c = true ->
                  k st = None /\ I (advance c t st)) ->
  forall fuel st,
    length (rest st) < fuel -> I st ->
    star_loop (m (Chr p)) k fuel st = k (fwd (run p (rest st)) st).
Proof.
  intros Hk. induction fuel as [|f IH]; intros st Hf HI; [lia|].
  rewrite star_chr_step. destruct (rest st) as [|c t] eqn:E; [reflexivity|].
  cbn [run]. destruct (p c) eqn:Ep; [|reflexivity].
  destruct (Hk st c t HI E Ep) as [Hn HI'].
  cbn [fwd]. rewrite E. cbn [length] in Hf.
  rewrite IH by first [exact HI' | cbn [advance rest]; lia].
  rewrite Hn. change (rest (advance c t st)) with t.
  now destruct (k (fwd (run p t) (advance c t st))).
Qed.

(** A greedy star before the end of the pattern takes the whole run. *)
Lemma star_chr_last (p : ascii -> bool) :
  forall fuel st,
    length (rest st) < fuel ->
    star_loop (m (Chr p)) Some fuel st = Some (fwd (run p (rest st)) st).
Proof.
  induction fuel as [|f IH]; intros st Hf; [lia|].
  rewrite star_chr_step. destruct (rest st) as [|c t] eqn:E; [reflexivity|].
  cbn [run]. destruct (p c) eqn:Ep; [|reflexivity].
  cbn [fwd]. rewrite E. cbn [length] in Hf.
  now rewrite IH by (cbn [advance rest]; lia).
Qed.

End Loops.

Section StringLiteral.
Import QueryAnalyzer.

Lemma lit_loop :
  forall fuel st,
    length (rest st) < fuel ->
    star_loop (m lit_body) (fun st' => m (Lit "'") st' Some) fuel st
    = option_map (fun n => fwd n st) (close (rest st)).
Proof.
  induction fuel as [|f IH]; intros st Hf; [lia|].
  cbn [star_loop]. unfold lit_body at 1. cbn [m Lit Dot].
  destruct (rest st) as [|c t] eqn:E; [reflexivity|].
  cbn [close length] in *. fold (lit_char c).
  destruct (lit_char c) eqn:Ec.
  - cbn [advance pos].
    rewrite (proj2 (Nat.ltb_lt _ _) (Nat.lt_succ_diag_r _)).
    rewrite IH by (cbn [advance rest]; lia). cbn [advance rest].
    destruct (close t) as [n|]; cbn [option_map fwd]; [now rewrite E|].
    unfold lit_char in Ec. apply negb_true_iff, orb_false_iff in Ec.
    destruct Ec as [E1 E2].
    rewrite (Ascii.eqb_sym "\" c), E2, (Ascii.eqb_sym "'" c), E1. reflexivity.
  - destruct (Ascii.eqb "\" c) eqn:Eb.
    + cbn [advance rest]. destruct t as [|e t']; [|destruct (negb (Ascii.eqb e "010")) eqn:Ee].
      * apply Ascii.eqb_eq in Eb. subst c. reflexivity.
      * cbn [advance pos].
        replace (pos st <? S (S (pos st))) with true
          by (symmetry; apply Nat.ltb_lt; lia).
        rewrite IH by (cbn [advance rest length] in *; lia). cbn [advance rest].
        destruct (close t') as [n|]; cbn [option_map fwd].
        -- rewrite E. cbn [advance rest]. reflexivity.
        -- apply Ascii.eqb_eq in Eb. subst c. reflexivity.
      * apply Ascii.eqb_eq in Eb. subst c. reflexivity.
    + unfold lit_char in Ec. apply negb_false_iff, orb_true_iff in Ec.
      destruct Ec as [E1 | E2];
        [|rewrite Ascii.eqb_sym in E2; congruence].
      rewrite (Ascii.eqb_sym "'" c), E1. cbn [option_map fwd]. now rewrite E.
Qed.

Lemma close_le_bounded (k : nat) :
  forall s n, length s <= k -> close s = Some n -> 1 <= n <= length s.
Proof.
  induction k as [|k IH]; intros s n Hk; destruct s as [|c t];
    cbn [close length] in *; try discriminate; try lia.
  destruct (lit_char c).
  - destruct (close t) as [j|] eqn:Ej; cbn [option_map]; [|discriminate].
    intros H. inversion H; subst. apply IH in Ej; lia.
  - destruct (Ascii.eqb "\" c).
    + destruct t as [|e t']; [discriminate|].
      destruct (negb (Ascii.eqb e "010")); [|discriminate].
      destruct (close t') as [j|] eqn:Ej; cbn [option_map]; [|discriminate].
      intros H. inversion H; subst. cbn [length] in *. apply IH in Ej; lia.
    + intros H. inversion H; subst. lia.
Qed.

Lemma close_le (s : str) (n : nat) : close s = Some n -> 1 <= n <= length s.
Proof. apply close_le_bounded with (length s). lia. Qed.

(** The length of a match of the string-literal pattern. *)
Lemma mlen_string_literal (p : nat) (pv : option ascii) (s : str) :
  mlen re_string_literal p pv s = lit_len s.
Proof.
  unfold mlen, match_at, re_string_literal, lit_len. cbn [Seqs m Lit].
  cbn [rest]. destruct s as [|c t]; [reflexivity|].
  destruct (Ascii.eqb "'" c); [|reflexivity].
  change (Alt _ _) with lit_body.
  rewrite lit_loop by (cbn [advance rest]; lia).
  cbn [advance rest]. destruct (close t) as [n|] eqn:En; cbn [option_map]; [|reflexivity].
  apply close_le in En. rewrite pos_fwd by (cbn [advance rest]; lia).
  cbn [advance pos]. f_equal. lia.
Qed.

End StringLiteral.

Section NumberLiteral.
Import QueryAnalyzer.

Lemma prev_fwd_run (p : ascii -> bool) :
  (forall c, p c = true -> is_word c = true) ->
  forall s st, rest st = s -> word_before st = true ->
               word_before (fwd (run p s) st) = true.
Proof.
  intros Hp. induction s as [|c t IH]; intros st E Hw; cbn [run fwd]; [assumption|].
  destruct (p c) eqn:Ep; [|assumption]. cbn [fwd]. rewrite E.
  apply IH; [reflexivity|]. unfold word_before. cbn [advance prev]. now apply Hp.
Qed.

Lemma is_digit_word (c : ascii) : is_digit c = true -> is_word c = true.
Proof.
  unfold is_word. intros ->. now rewrite orb_true_r.
Qed.

Lemma word_after_head (st : mstate) : word_after st = head_is is_word (rest st).
Proof. reflexivity. Qed.

Lemma word_boundary_digit (st : mstate) (c : ascii) (t : str) :
  word_before st = true -> rest st = c :: t -> is_digit c = true ->
  word_boundary st = None.
Proof.
  intros Hw E Hc. unfold word_boundary. cbn [m]. unfold word_after.
  now rewrite Hw, E, (is_digit_word _ Hc).
Qed.

Lemma after_digits_digit (st : mstate) (c : ascii) (t : str) :
  word_before st = true -> rest st = c :: t -> is_digit c = true ->
  after_digits st = None.
Proof.
  intros Hw E Hc. unfold after_digits, Opt. cbn [m Lit]. rewrite E.
  destruct (Ascii.eqb "." c) eqn:Ed.
  - apply Ascii.eqb_eq in Ed. subst c. discriminate.
  - unfold word_after. now rewrite Hw, E, (is_digit_word _ Hc).
Qed.

Lemma word_before_advance (c : ascii) (t : str) (st : mstate) :
  word_before (advance c t st) = is_word c.
Proof. reflexivity. Qed.

Lemma digits_then (k : mstate -> option mstate) (st : mstate) :
  (forall st' c t, word_before st' = true -> rest st' = c :: t ->
                   is_digit c = true -> k st' = None) ->
  m (Plus Digit) st k
  = match rest st with
    | c :: t =>
        if is_digit c then k (fwd (S (run is_digit t)) st) else None
    | [] => None
    end.
Proof.
  intros Hk. unfold Plus, Digit. cbn [m].
  destruct (rest st) as [|c t] eqn:E; [reflexivity|].
  destruct (is_digit c) eqn:Ec; [|reflexivity].
  rewrite (star_chr_det is_digit k (fun st => word_before st = true)).
  - cbn [fwd advance rest]. now rewrite E.
  - intros st' c' t' Hw E' Hc'. split; [eapply Hk; eassumption|].
    rewrite word_before_advance. now apply is_digit_word.
  - cbn [advance rest]. lia.
  - rewrite word_before_advance. now apply is_digit_word.
Qed.

End NumberLiteral.

Section NumberLiteral2.
Import QueryAnalyzer.

Lemma word_boundary_spec (st : mstate) :
  word_boundary st
  = if xorb (word_before st) (head_is is_word (rest st)) then Some st else None.
Proof. reflexivity. Qed.

Lemma after_digits_spec (st : mstate) :
  after_digits st
  = match rest st with
    | c :: e :: t =>
        if Ascii.eqb "." c && is_digit e then
          match word_boundary (fwd (S (S (run is_digit t))) st) with
          | Some x => Some x
          | None => word_boundary st
          end
        else word_boundary st
    | _ => word_boundary st
    end.
Proof.
  unfold after_digits, Opt. cbn [m Lit].
  fold (word_boundary st).
  change (fun st' : mstate =>
            if xorb (word_before st') (word_after st') then Some st' else None)
    with word_boundary.
  destruct (rest st) as [|c [|e t]] eqn:E.
  - reflexivity.
  - destruct (Ascii.eqb "." c); [|reflexivity].
    rewrite digits_then by (intros; eapply word_boundary_digit; eassumption).
    reflexivity.
  - destruct (Ascii.eqb "." c); cbn [andb]; [|reflexivity].
    rewrite digits_then by (intros; eapply word_boundary_digit; eassumption).
    cbn [advance rest]. destruct (is_digit e); [|reflexivity].
    cbn [fwd]. rewrite E. cbn [advance rest]. reflexivity.
Qed.

Lemma word_before_fwd_digits (s : str) (st : mstate) (c : ascii) (t : str) :
  rest st = c :: t -> is_digit c = true ->
  word_before (fwd (S (run is_digit t)) st) = true.
Proof.
  intros E Hc. cbn [fwd]. rewrite E.
  apply (prev_fwd_run is_digit is_digit_word); [reflexivity|].
  rewrite word_before_advance. now apply is_digit_word.
Qed.

Lemma run_digit_cons (c : ascii) (t : str) :
  is_digit c = true -> run is_digit (c :: t) = S (run is_digit t).
Proof. intros H. cbn [run]. now rewrite H. Qed.

(** The length of a match of the number pattern. *)
Lemma mlen_number (p : nat) (pv : option ascii) (s : str) :
  mlen re_number p pv s = num_len (is_word_opt pv) s.
Proof.
  unfold mlen, match_at, re_number. cbn [Seqs]. cbn [m].
  change (fun st' : mstate =>
            m (Plus Digit) st'
              (fun st'0 : mstate =>
                 m (Opt (Seq (Lit ".") (Plus Digit))) st'0
                   (fun st'1 : mstate =>
                      if xorb (word_before st'1) (word_after st'1)
                      then Some st'1 else None)))
    with (fun st' : mstate => m (Plus Digit) st' after_digits).
  unfold word_before at 1, word_after at 1. cbn [prev rest].
  fold (is_word_opt pv). unfold num_len.
  destruct s as [|c t].
  { cbn [run Nat.eqb orb]. now destruct (xorb _ _). }
  destruct (is_digit c) eqn:Ec.
  2:{ cbn [run]. rewrite Ec. cbn [Nat.eqb orb].
      destruct (xorb _ _); [|reflexivity].
      rewrite digits_then by (intros; eapply after_digits_digit; eassumption).
      cbn [rest]. now rewrite Ec. }
  rewrite (is_digit_word _ Ec), (run_digit_cons c t Ec). cbn [Nat.eqb orb].
  destruct (is_word_opt pv); cbn [xorb negb]; [reflexivity|].
  rewrite digits_then by (intros; eapply after_digits_digit; eassumption).
  cbn [rest]. rewrite Ec.
  set (st0 := MState p pv (c :: t) []).
  set (st2 := fwd (S (run is_digit t)) st0).
  assert (Hw2 : word_before st2 = true)
    by (apply (word_before_fwd_digits (c :: t) st0 c t); [reflexivity | exact Ec]).
  assert (Hr2 : rest st2 = skipn (S (run is_digit t)) (c :: t))
    by (unfold st2; now rewrite rest_fwd).
  assert (Hp2 : pos st2 = p + S (run is_digit t)).
  { unfold st2. rewrite pos_fwd; [reflexivity|].
    cbn [st0 rest length]. pose proof (run_le is_digit t). lia. }
  change (m (Opt (Seq (Lit ".") (Plus Digit))) st2 _) with (after_digits st2).
  rewrite after_digits_spec, !word_boundary_spec, Hw2, Hr2.
  set (s2 := skipn (S (run is_digit t)) (c :: t)) in *.
  assert (Hwhole :
    match (if xorb true (head_is is_word s2) then Some st2 else None) with
    | Some st => Some (pos st - p)
    | None => None
    end = (if head_is is_word s2 then None else Some (S (run is_digit t)))).
  { destruct (head_is is_word s2); cbn [xorb negb]; [reflexivity|].
    rewrite Hp2. f_equal. lia. }
  destruct s2 as [|c2 [|e t2]] eqn:Es2; try exact Hwhole.
  destruct (Ascii.eqb "." c2 && is_digit e) eqn:Ef; [|exact Hwhole].
  apply andb_true_iff in Ef. destruct Ef as [_ Ee].
  set (st3 := fwd (S (S (run is_digit t2))) st2).
  assert (Hw3 : word_before st3 = true).
  { unfold st3. cbn [fwd]. rewrite Hr2. cbn [advance rest].
    apply (prev_fwd_run is_digit is_digit_word); [reflexivity|].
    rewrite word_before_advance. now apply is_digit_word. }
  assert (Hr3 : rest st3 = skipn (run is_digit (e :: t2)) (e :: t2)).
  { unfold st3. rewrite rest_fwd, Hr2, (run_digit_cons e t2 Ee). reflexivity. }
  assert (Hp3 : pos st3 = p + S (run is_digit t) + 1 + run is_digit (e :: t2)).
  { unfold st3. rewrite pos_fwd.
    - rewrite Hp2, (run_digit_cons e t2 Ee). lia.
    - rewrite Hr2. cbn [length]. pose proof (run_le is_digit t2). lia. }
  rewrite (word_boundary_spec st3), Hw3, Hr3.
  destruct (head_is is_word (skipn (run is_digit (e :: t2)) (e :: t2)));
    cbn [xorb negb]; [exact Hwhole|].
  rewrite Hp3. f_equal. lia.
Qed.

End NumberLiteral2.

Section Scanners.
Import QueryAnalyzer.

Lemma fwd_add (k : nat) : forall n st, fwd n (fwd k st) = fwd (k + n) st.
Proof.
  induction k as [|k IH]; intros n st; cbn [fwd Nat.add]; [reflexivity|].
  destruct (rest st) as [|c t] eqn:E; [|apply IH].
  destruct n as [|n]; cbn [fwd]; [reflexivity|]. now rewrite E.
Qed.

Lemma startswith_length (pat s : str) :
  startswith pat s = true -> length pat <= length s.
Proof.
  revert s. induction pat as [|a pat IH]; intros s H; cbn [length]; [lia|].
  destruct s as [|c s]; cbn [startswith] in H; [discriminate|].
  apply andb_true_iff in H. destruct H as [_ H]. apply IH in H. cbn [length]. lia.
Qed.

Lemma m_str (pat : str) :
  forall st k,
    m (Str pat) st k
    = match sc_str pat (rest st) with
      | Some n => k (fwd n st)
      | None => None
      end.
Proof.
  unfold sc_str. induction pat as [|a pat IH]; intros st k; cbn [Str m Lit].
  - reflexivity.
  - destruct (rest st) as [|c t] eqn:E; cbn [startswith]; [reflexivity|].
    destruct (Ascii.eqb a c); cbn [andb]; [|reflexivity].
    rewrite IH. cbn [advance rest]. destruct (startswith pat t); [|reflexivity].
    cbn [length fwd]. now rewrite E.
Qed.

Lemma m_plus_det (p : ascii -> bool) (k : mstate -> option mstate)
  (st : mstate) :
  (forall st' c t, rest st' = c :: t -> p c = true -> k st' = None) ->
  m (Plus (Chr p)) st k
  = match sc_plus p (rest st) with
    | Some n => k (fwd n st)
    | None => None
    end.
Proof.
  intros Hk. unfold Plus, sc_plus. cbn [m].
  destruct (rest st) as [|c t] eqn:E; [reflexivity|].
  cbn [run]. destruct (p c) eqn:Ec; [|reflexivity]. cbn [Nat.eqb].
  rewrite (star_chr_det p k (fun _ => True)).
  - cbn [fwd advance rest]. now rewrite E.
  - intros st' c' t' _ E' Hc'. split; [eapply Hk; eassumption | exact I].
  - cbn [advance rest]. lia.
  - exact I.
Qed.

Lemma m_star_last (p : ascii -> bool) (st : mstate) :
  m (Star (Chr p)) st Some = Some (fwd (run p (rest st)) st).
Proof. cbn [m]. apply star_chr_last. lia. Qed.

Lemma bounded_str (pat : str) : bounded (sc_str pat).
Proof.
  intros s n. unfold sc_str. destruct (startswith pat s) eqn:E; [|discriminate].
  intros H. inversion H; subst. now apply startswith_length.
Qed.

Lemma bounded_run (p : ascii -> bool) : bounded (sc_run p).
Proof. intros s n H. inversion H; subst. apply run_le. Qed.

Lemma bounded_plus (p : ascii -> bool) : bounded (sc_plus p).
Proof.
  intros s n. unfold sc_plus. destruct (run p s =? 0); [discriminate|].
  intros H. inversion H; subst. apply run_le.
Qed.

Lemma bounded_then (a b : scanner) : bounded a -> bounded b -> bounded (then_sc a b).
Proof.
  intros Ha Hb s n. unfold then_sc. destruct (a s) as [k|] eqn:Ea; [|discriminate].
  destruct (b (skipn k s)) as [j|] eqn:Eb; [|discriminate].
  intros H. inversion H; subst. apply Ha in Ea. apply Hb in Eb.
  rewrite length_skipn in Eb. lia.
Qed.

Lemma bounded_exec : bounded exec_len.
Proof.
  repeat apply bounded_then; auto using bounded_str, bounded_plus, bounded_run.
Qed.

Lemma bounded_query : bounded query_len.
Proof. apply bounded_then; auto using bounded_str, bounded_run. Qed.

#[local] Arguments Plus : simpl never.
#[local] Arguments Str : simpl never.

(** The length of a match of the two prefix patterns. *)
Lemma mlen_executing (p : nat) (pv : option ascii) (s : str) :
  mlen re_executing p pv s = if p =? 0 then exec_len s else None.
Proof.
  unfold mlen, match_at, re_executing. cbn [Seqs]. cbn [m pos].
  destruct (p =? 0) eqn:Ep; [|reflexivity].
  pose proof (bounded_exec s) as Hb. unfold exec_len, then_sc in *.
  rewrite m_str. cbn [rest].
  destruct (sc_str (py "Executing (") s) as [k1|]; [|reflexivity].
  unfold NotLit. change (fun x : ascii => negb (Ascii.eqb ")" x)) with not_paren.
  rewrite m_plus_det.
  2:{ intros st' c t E Hc. rewrite m_str, E. unfold sc_str.
      change (py "):") with (")"%char :: py ":"). cbn [startswith].
      unfold not_paren in Hc. apply negb_true_iff in Hc. now rewrite Hc. }
  rewrite rest_fwd. cbn [rest].
  destruct (sc_plus not_paren (skipn k1 s)) as [k2|]; [|reflexivity].
  rewrite m_str, fwd_add, rest_fwd. cbn [rest].
  replace (skipn (k1 + k2) s) with (skipn k2 (skipn k1 s))
    by (rewrite skipn_skipn; f_equal; lia).
  destruct (sc_str (py "):") (skipn k2 (skipn k1 s))) as [k3|]; [|reflexivity].
  unfold Space. rewrite star_chr_last by lia.
  rewrite !fwd_add, rest_fwd. cbn [rest sc_run].
  replace (skipn (k1 + k2 + k3) s) with (skipn k3 (skipn k2 (skipn k1 s)))
    by (rewrite !skipn_skipn; f_equal; lia).
  set (k4 := run is_space (skipn k3 (skipn k2 (skipn k1 s)))) in *.
  specialize (Hb _ eq_refl).
  rewrite pos_fwd by (cbn [rest]; lia). cbn [pos]. f_equal. lia.
Qed.

Lemma mlen_query (p : nat) (pv : option ascii) (s : str) :
  mlen re_query p pv s = if p =? 0 then query_len s else None.
Proof.
  unfold mlen, match_at, re_query. cbn [Seqs]. cbn [m pos].
  destruct (p =? 0) eqn:Ep; [|reflexivity].
  pose proof (bounded_query s) as Hb. unfold query_len, then_sc in *.
  rewrite m_str. cbn [rest].
  destruct (sc_str (py "Query:") s) as [k1|]; [|reflexivity].
  unfold Space. rewrite star_chr_last by lia.
  rewrite !fwd_add, rest_fwd. cbn [rest sc_run].
  set (k2 := run is_space (skipn k1 s)) in *.
  specialize (Hb _ eq_refl).
  rewrite pos_fwd by (cbn [rest]; lia). cbn [pos]. f_equal. lia.
Qed.

End Scanners.

Section Substitution.
Import QueryAnalyzer.

Lemma mlen_none (r : regex) (p : nat) (pv : option ascii) (s : str) :
  mlen r p pv s = None -> match_at r p pv s = None.
Proof. unfold mlen. now destruct (match_at r p pv s). Qed.

Lemma sub_from_step (r : regex) (repl : str) (p : nat) (pv : option ascii)
  (c : ascii) (t : str) :
  sub_from r repl p pv (c :: t) 0
  = match mlen r p pv (c :: t) with
    | Some (S n) => repl ++ sub_from r repl (S p) (Some c) t n
    | Some O => repl ++ c :: sub_from r repl (S p) (Some c) t 0
    | None => c :: sub_from r repl (S p) (Some c) t 0
    end.
Proof.
  cbn [sub_from]. unfold mlen. now destruct (match_at r p pv (c :: t)).
Qed.

Lemma sub_from_nil (r : regex) (repl : str) (p : nat) (pv : option ascii)
  (k : nat) :
  sub_from r repl p pv [] k
  = match mlen r p pv [] with Some _ => repl | None => [] end.
Proof.
  cbn [sub_from]. unfold mlen. now destruct (match_at r p pv []).
Qed.

(** [re.sub] is determined by the lengths of the matches. *)
Lemma sub_from_gsub (r : regex) (repl : str) (len : bool -> str -> option nat) :
  (forall p pv s, mlen r p pv s = len (is_word_opt pv) s) ->
  forall s p pv k,
    sub_from r repl p pv s k = gsub len repl (is_word_opt pv) s k.
Proof.
  intros Hlen. induction s as [|c t IH]; intros p pv k.
  - rewrite sub_from_nil, Hlen. reflexivity.
  - destruct k as [|k].
    + rewrite sub_from_step, Hlen. cbn [gsub].
      destruct (len (is_word_opt pv) (c :: t)) as [[|n]|];
        rewrite IH; reflexivity.
    + cbn [sub_from gsub]. now rewrite IH.
Qed.

(** A pattern that matches at the start of the text only. *)
Lemma sub_from_later (r : regex) (repl : str) :
  (forall p pv s, 0 < p -> mlen r p pv s = None) ->
  forall s p pv k, 0 < p -> sub_from r repl p pv s k = skipn k s.
Proof.
  intros Hlen. induction s as [|c t IH]; intros p pv k Hp.
  - rewrite sub_from_nil, Hlen by assumption. now destruct k.
  - destruct k as [|k].
    + rewrite sub_from_step, Hlen by assumption. rewrite IH by lia. reflexivity.
    + cbn [sub_from skipn]. apply IH. lia.
Qed.

Lemma re_sub_anchored (r : regex) (len : scanner) :
  (forall p pv s, mlen r p pv s = if p =? 0 then len s else None) ->
  len [] = None -> (forall s, len s <> Some 0) ->
  forall s, re_sub r [] s
            = match len s with Some k => skipn k s | None => s end.
Proof.
  intros Hlen Hnil Hpos s. unfold re_sub.
  assert (Hlater : forall p pv s, 0 < p -> mlen r p pv s = None).
  { intros p pv s' Hp. rewrite Hlen. destruct p; [lia | reflexivity]. }
  destruct s as [|c t].
  - rewrite sub_from_nil, Hlen. cbn [Nat.eqb]. now rewrite Hnil.
  - rewrite sub_from_step, Hlen. cbn [Nat.eqb].
    destruct (len (c :: t)) as [[|n]|] eqn:E.
    + now apply Hpos in E.
    + cbn [app skipn]. apply sub_from_later; [assumption | lia].
    + rewrite sub_from_later by (assumption || lia). reflexivity.
Qed.

Lemma re_sub_executing (s : str) :
  re_sub re_executing [] s
  = match exec_len s with Some k => skipn k s | None => s end.
Proof.
  apply re_sub_anchored.
  - apply mlen_executing.
  - reflexivity.
  - intros s' H. unfold exec_len, then_sc, sc_str in H.
    destruct (startswith (py "Executing (") s'); [|discriminate].
    destruct (match sc_plus not_paren _ with Some _ => _ | None => _ end);
      [|discriminate].
    inversion H.
Qed.

Lemma re_sub_query (s : str) :
  re_sub re_query [] s
  = match query_len s with Some k => skipn k s | None => s end.
Proof.
  apply re_sub_anchored.
  - apply mlen_query.
  - reflexivity.
  - intros s' H. unfold query_len, then_sc, sc_str in H.
    destruct (startswith (py "Query:") s'); [|discriminate].
    cbn [sc_run] in H. inversion H.
Qed.

Lemma re_sub_string_literal (s : str) :
  re_sub re_string_literal (py "'?'") s
  = gsub (fun _ => lit_len) (py "'?'") false s 0.
Proof.
  unfold re_sub.
  rewrite (sub_from_gsub re_string_literal (py "'?'") (fun _ => lit_len)).
  - reflexivity.
  - intros p pv s'. apply mlen_string_literal.
Qed.

Lemma re_sub_number (s : str) :
  re_sub re_number (py "?") s = gsub num_len (py "?") false s 0.
Proof.
  unfold re_sub. rewrite (sub_from_gsub re_number (py "?") num_len).
  - reflexivity.
  - intros p pv s'. apply mlen_number.
Qed.

End Substitution.

(* ================================================================== *)
(** ** Texts that differ in a literal *)
(* ================================================================== *)
Section Squeezing.
Import QueryAnalyzer.

Lemma join_nonempty (ws : list str) :
  Forall word ws -> ws <> [] -> join (py " ") ws <> [].
Proof.
  intros H Hne. destruct ws as [|w ws]; [congruence|].
  inversion H as [|? ? [Hw _] _]; subst.
  destruct ws as [|w2 ws]; [exact Hw|].
  change (join (py " ") (w :: w2 :: ws))
    with (w ++ py " " ++ join (py " ") (w2 :: ws)).
  destruct w; [congruence | discriminate].
Qed.

(** [squeeze] is [' '.join(s.split())]. *)
Lemma squeeze_split (s : str) :
  squeeze false s = join (py " ") (cons_nonempty (fst (split_ws_go s)) (snd (split_ws_go s)))
  /\ squeeze true s
     = fst (split_ws_go s)
       ++ match snd (split_ws_go s) with
          | [] => []
          | ws => py " " ++ join (py " ") ws
          end.
Proof.
  induction s as [|c t [IHf IHt]]; [split; reflexivity|].
  pose proof (split_ws_go_words t) as [Hw Hws].
  cbn [squeeze split_ws_go].
  destruct (split_ws_go t) as [w ws]. cbn [fst snd] in *.
  destruct (is_space c); cbn [fst snd].
  - split; [exact IHf|]. rewrite IHf. cbn [app].
    pose proof (@cons_nonempty_words w ws Hw Hws) as Hall.
    destruct (cons_nonempty w ws) as [|w0 ws0] eqn:E; [reflexivity|].
    pose proof (join_nonempty (w0 :: ws0) Hall ltac:(discriminate)) as Hne.
    destruct (join (py " ") (w0 :: ws0)); [congruence | reflexivity].
  - rewrite IHt. split.
    + cbn [cons_nonempty]. destruct ws; [now rewrite app_nil_r | reflexivity].
    + reflexivity.
Qed.

Lemma collapse_squeeze (s : str) : collapse s = squeeze false s.
Proof.
  unfold collapse, split_ws. rewrite (proj1 (squeeze_split s)).
  now destruct (split_ws_go s).
Qed.

Lemma squeeze_word (b : bool) (w : str) :
  forallb (fun c => negb (is_space c)) w = true -> squeeze b w = w.
Proof.
  revert b. induction w as [|c w IH]; intros b H; [reflexivity|].
  cbn [forallb] in H. apply andb_true_iff in H. destruct H as [Hc Hw].
  apply negb_true_iff in Hc. cbn [squeeze]. now rewrite Hc, IH.
Qed.

Lemma squeeze_head (b : bool) (c : ascii) (t : str) :
  is_space c = false -> squeeze b (c :: t) = c :: squeeze true t.
Proof. intros H. cbn [squeeze]. now rewrite H. Qed.

(** A text before a word. *)
Lemma squeeze_app_before (pre : str) (c : ascii) (t : str) (b : bool) :
  is_space c = false ->
  squeeze b (pre ++ c :: t) = squeeze_before b pre ++ c :: squeeze true t.
Proof.
  intros Hc. revert b. induction pre as [|d pre IH]; intros b.
  - cbn [app squeeze_before]. now apply squeeze_head.
  - cbn [app squeeze squeeze_before]. destruct (is_space d).
    + rewrite IH. destruct b; [|reflexivity].
      now destruct (squeeze_before false pre).
    + now rewrite IH.
Qed.

(** A text after a word. *)
Lemma squeeze_app_after (w post : str) (b : bool) :
  w <> [] -> forallb (fun c => negb (is_space c)) w = true ->
  squeeze b (w ++ post) = w ++ squeeze true post.
Proof.
  revert b. induction w as [|c w IH]; intros b Hne H; [congruence|].
  cbn [forallb] in H. apply andb_true_iff in H. destruct H as [Hc Hw].
  apply negb_true_iff in Hc. cbn [app]. rewrite squeeze_head by exact Hc.
  destruct w as [|c2 w]; [reflexivity|].
  rewrite IH by (discriminate || assumption). reflexivity.
Qed.

Lemma okd_space : okd " " = true.
Proof. reflexivity. Qed.

Lemma last_cons_ne {A : Type} (c : A) (t : list A) (d : A) :
  t <> [] -> last (c :: t) d = last t d.
Proof. destruct t; [congruence | reflexivity]. Qed.

Lemma ends_ok_cons (c : ascii) (t : str) :
  t <> [] -> ends_ok (c :: t) = ends_ok t.
Proof. intros H. unfold ends_ok. now rewrite last_cons_ne. Qed.

Lemma ends_ok_tail (c : ascii) (t : str) :
  ends_ok (c :: t) = true -> ends_ok t = true.
Proof.
  destruct t as [|d t]; [reflexivity|]. now rewrite ends_ok_cons by discriminate.
Qed.

Lemma ends_ok_squeeze_before (pre : str) (b : bool) :
  ends_ok pre = true -> ends_ok (squeeze_before b pre) = true.
Proof.
  revert b. induction pre as [|c pre IH]; intros b H; [reflexivity|].
  pose proof (ends_ok_tail c pre H) as Ht.
  cbn [squeeze_before]. destruct (is_space c) eqn:Ec.
  - destruct b; [|now apply IH].
    destruct (squeeze_before false pre) as [|x l] eqn:E; [reflexivity|].
    rewrite ends_ok_cons by discriminate. rewrite <- E. now apply IH.
  - destruct (squeeze_before true pre) as [|x l] eqn:E.
    + destruct pre as [|d pre]; [exact H|].
      cbn [squeeze_before] in E. destruct (is_space d); discriminate.
    + rewrite ends_ok_cons by discriminate. rewrite <- E. now apply IH.
Qed.

Lemma starts_ok_squeeze (post : str) :
  starts_ok post = true -> starts_ok (squeeze true post) = true.
Proof.
  destruct post as [|c t]; [reflexivity|]. cbn [squeeze].
  destruct (is_space c); [|auto]. intros _.
  now destruct (squeeze false t).
Qed.

End Squeezing.

Section Inert.
Import QueryAnalyzer.
Variables n1 n2 : str.
Hypothesis Hne1 : n1 <> [].
Hypothesis Hne2 : n2 <> [].
Hypothesis Hin1 : forallb inert_char n1 = true.
Hypothesis Hin2 : forallb inert_char n2 = true.

Lemma skipn_app_le {A : Type} (k : nat) (a b : list A) :
  k <= length a -> skipn k (a ++ b) = skipn k a ++ b.
Proof.
  intros H. rewrite skipn_app. replace (k - length a) with 0 by lia. reflexivity.
Qed.

Lemma skipn_app_ge {A : Type} (j : nat) (a b : list A) :
  skipn (length a + j) (a ++ b) = skipn j b.
Proof.
  rewrite skipn_app. replace (length a + j - length a) with j by lia.
  rewrite skipn_all2 by lia. reflexivity.
Qed.

Lemma run_app_all (p : ascii -> bool) (a b : str) :
  forallb p a = true -> run p (a ++ b) = length a + run p b.
Proof.
  induction a as [|c a IH]; intros H; [reflexivity|].
  cbn [forallb] in H. apply andb_true_iff in H. destruct H as [Hc Ha].
  cbn [app run length]. rewrite Hc, IH by assumption. reflexivity.
Qed.

Lemma run_app_stop (p : ascii -> bool) (a b : str) :
  run p a < length a -> run p (a ++ b) = run p a.
Proof.
  induction a as [|c a IH]; cbn [length run app]; [lia|].
  destruct (p c); [|reflexivity]. intros H. rewrite IH by lia. reflexivity.
Qed.

Lemma run_all_or_stop (p : ascii -> bool) (a : str) :
  run p a < length a \/ forallb p a = true.
Proof.
  induction a as [|c a IH]; [now right|].
  cbn [run length forallb]. destruct (p c); [|left; lia].
  destruct IH as [IH | IH]; [left; lia | now right].
Qed.

Lemma skiprel_same (pre : str) (k : nat) :
  k <= length pre -> skiprel n1 n2 pre k k.
Proof. intros H. left. now split. Qed.

Lemma skiprel_cons (c : ascii) (pre : str) (k1 k2 : nat) :
  skiprel n1 n2 pre k1 k2 -> skiprel n1 n2 (c :: pre) (S k1) (S k2).
Proof.
  intros [[-> H] | [j [-> ->]]].
  - left. cbn [length]. split; [reflexivity | lia].
  - right. exists j. cbn [length]. split; lia.
Qed.

Lemma skiprel_uncons (c : ascii) (pre : str) (k1 k2 : nat) :
  skiprel n1 n2 (c :: pre) (S k1) (S k2) -> skiprel n1 n2 pre k1 k2.
Proof.
  intros [[E H] | [j [E1 E2]]]; cbn [length] in *.
  - left. split; lia.
  - right. exists j. split; lia.
Qed.

Lemma skiprel_zero (pre : str) (k1 k2 : nat) :
  skiprel n1 n2 pre k1 k2 -> (k1 = 0 <-> k2 = 0).
Proof.
  intros [[-> H] | [j [-> ->]]]; [tauto|].
  destruct n1; [congruence|]. destruct n2; [congruence|]. cbn [length]. lia.
Qed.

Lemma lenrel_map_S (c : ascii) (pre : str) (o1 o2 : option nat) :
  lenrel n1 n2 pre o1 o2 ->
  lenrel n1 n2 (c :: pre) (option_map S o1) (option_map S o2).
Proof.
  destruct o1, o2; cbn [lenrel option_map]; auto using skiprel_cons.
Qed.

Lemma inert_head (n : str) :
  n <> [] -> forallb inert_char n = true ->
  exists h m, n = h :: m /\ inert_char h = true /\ forallb inert_char m = true.
Proof.
  intros Hne H. destruct n as [|h m]; [congruence|].
  cbn [forallb] in H. apply andb_true_iff in H. destruct H. now exists h, m.
Qed.

Lemma inert_str (pat : str) :
  forallb (fun c => negb (inert_char c)) pat = true -> inert_sc n1 n2 (sc_str pat).
Proof.
  unfold inert_sc, sc_str. induction pat as [|a pat IH]; intros Hp pre post.
  - cbn [startswith lenrel length]. apply skiprel_same. lia.
  - cbn [forallb] in Hp. apply andb_true_iff in Hp. destruct Hp as [Ha Hp].
    apply negb_true_iff in Ha. destruct pre as [|c pre].
    + destruct (inert_head n1 Hne1 Hin1) as (h1 & m1 & -> & Hh1 & _).
      destruct (inert_head n2 Hne2 Hin2) as (h2 & m2 & -> & Hh2 & _).
      cbn [app startswith].
      destruct (Ascii.eqb_spec a h1); [congruence|].
      destruct (Ascii.eqb_spec a h2); [congruence|]. exact I.
    + cbn [app startswith]. specialize (IH Hp pre post).
      destruct (Ascii.eqb a c); cbn [andb]; [|exact I].
      destruct (startswith pat (pre ++ n1 ++ post)),
               (startswith pat (pre ++ n2 ++ post));
        cbn [lenrel length] in *; auto using skiprel_cons.
Qed.

Lemma run_inert_true (p : ascii -> bool) (n post : str) :
  (forall c, inert_char c = true -> p c = true) ->
  forallb inert_char n = true ->
  run p (n ++ post) = length n + run p post.
Proof.
  intros Hp Hn. apply run_app_all. rewrite forallb_forall in *. auto.
Qed.

Lemma run_inert_false (p : ascii -> bool) (n post : str) :
  (forall c, inert_char c = true -> p c = false) ->
  n <> [] -> forallb inert_char n = true ->
  run p (n ++ post) = 0.
Proof.
  intros Hp Hne Hn. destruct (inert_head n Hne Hn) as (h & m & -> & Hh & _).
  cbn [app run]. now rewrite (Hp h Hh).
Qed.

Lemma inert_run_true (p : ascii -> bool) :
  (forall c, inert_char c = true -> p c = true) -> inert_sc n1 n2 (sc_run p).
Proof.
  intros Hp pre post. unfold sc_run. cbn [lenrel].
  destruct (run_all_or_stop p pre) as [H | H].
  - rewrite (run_app_stop p pre (n1 ++ post)), (run_app_stop p pre (n2 ++ post))
      by assumption.
    apply skiprel_same. lia.
  - rewrite (run_app_all p pre (n1 ++ post)), (run_app_all p pre (n2 ++ post))
      by assumption.
    rewrite (run_inert_true p n1 post), (run_inert_true p n2 post) by assumption.
    right. exists (run p post). split; lia.
Qed.

Lemma inert_run_false (p : ascii -> bool) :
  (forall c, inert_char c = true -> p c = false) -> inert_sc n1 n2 (sc_run p).
Proof.
  intros Hp pre post. unfold sc_run. cbn [lenrel].
  destruct (run_all_or_stop p pre) as [H | H].
  - rewrite (run_app_stop p pre (n1 ++ post)), (run_app_stop p pre (n2 ++ post))
      by assumption.
    apply skiprel_same. lia.
  - rewrite (run_app_all p pre (n1 ++ post)), (run_app_all p pre (n2 ++ post))
      by assumption.
    rewrite (run_inert_false p n1 post), (run_inert_false p n2 post)
      by assumption.
    apply skiprel_same. lia.
Qed.

Lemma inert_plus_true (p : ascii -> bool) :
  (forall c, inert_char c = true -> p c = true) -> inert_sc n1 n2 (sc_plus p).
Proof.
  intros Hp pre post. pose proof (inert_run_true p Hp pre post) as H.
  unfold sc_run, sc_plus in *. cbn [lenrel] in H.
  pose proof (skiprel_zero _ _ _ H) as Hz.
  destruct (run p (pre ++ n1 ++ post)) as [|k1], (run p (pre ++ n2 ++ post)) as [|k2];
    cbn [Nat.eqb lenrel]; try exact I; try exact H.
  - destruct Hz as [Hz _]. specialize (Hz eq_refl). discriminate.
  - destruct Hz as [_ Hz]. specialize (Hz eq_refl). discriminate.
Qed.

Lemma inert_then (a b : scanner) :
  inert_sc n1 n2 a -> inert_sc n1 n2 b -> inert_sc n1 n2 (then_sc a b).
Proof.
  intros Ha Hb pre post. specialize (Ha pre post). unfold then_sc.
  destruct (a (pre ++ n1 ++ post)) as [k1|], (a (pre ++ n2 ++ post)) as [k2|];
    cbn [lenrel] in Ha; try contradiction; [|exact I].
  destruct Ha as [[-> Hk] | [j [-> ->]]].
  - rewrite !skipn_app_le by assumption.
    specialize (Hb (skipn k2 pre) post).
    destruct (b (skipn k2 pre ++ n1 ++ post)) as [j1|],
             (b (skipn k2 pre ++ n2 ++ post)) as [j2|];
      cbn [lenrel] in *; try contradiction; [|exact I].
    unfold skiprel in Hb. rewrite !length_skipn in Hb.
    destruct Hb as [[-> Hj] | [j [-> ->]]].
    + left. split; [reflexivity | lia].
    + right. exists j. split; lia.
  - rewrite <- !Nat.add_assoc, !skipn_app_ge.
    destruct (b (skipn j post)) as [j'|]; cbn [lenrel]; [|exact I].
    right. exists (j + j'). split; lia.
Qed.

Lemma inert_exec : inert_sc n1 n2 exec_len.
Proof.
  unfold exec_len. repeat apply inert_then.
  - apply inert_str. reflexivity.
  - apply inert_plus_true. intros c Hc. unfold not_paren.
    destruct (Ascii.eqb_spec ")" c); [subst; discriminate | reflexivity].
  - apply inert_str. reflexivity.
  - apply inert_run_false. intros c Hc.
    destruct (is_space c) eqn:E; [|reflexivity].
    revert Hc E. destruct c as [[] [] [] [] [] [] [] []]; vm_compute; congruence.
Qed.

Lemma inert_query : inert_sc n1 n2 query_len.
Proof.
  unfold query_len. apply inert_then.
  - apply inert_str. reflexivity.
  - apply inert_run_false. intros c Hc.
    destruct (is_space c) eqn:E; [|reflexivity].
    revert Hc E. destruct c as [[] [] [] [] [] [] [] []]; vm_compute; congruence.
Qed.


Lemma lit_char_inert (c : ascii) : inert_char c = true -> lit_char c = true.
Proof.
  intros H. unfold lit_char.
  destruct (Ascii.eqb_spec c "'"); [subst; discriminate|].
  destruct (Ascii.eqb_spec c "\"); [subst; discriminate|]. reflexivity.
Qed.

Lemma inert_not_quote (c : ascii) : inert_char c = true -> Ascii.eqb "'" c = false.
Proof.
  intros H. destruct (Ascii.eqb_spec "'" c); [subst; discriminate | reflexivity].
Qed.

Lemma inert_not_newline (c : ascii) :
  inert_char c = true -> negb (Ascii.eqb c "010") = true.
Proof.
  intros H. destruct (Ascii.eqb_spec c "010"); [subst; discriminate | reflexivity].
Qed.

Lemma inert_not_space (c : ascii) : inert_char c = true -> is_space c = false.
Proof.
  intros Hc. destruct (is_space c) eqn:E; [|reflexivity].
  revert Hc E. destruct c as [[] [] [] [] [] [] [] []]; vm_compute; congruence.
Qed.

Lemma close_inert_run (m y : str) :
  forallb inert_char m = true ->
  close (m ++ y) = option_map (Nat.add (length m)) (close y).
Proof.
  induction m as [|c m IH]; intros H.
  - cbn [app length]. now destruct (close y).
  - cbn [forallb] in H. apply andb_true_iff in H. destruct H as [Hc Hm].
    cbn [app close length]. rewrite (lit_char_inert c Hc), (IH Hm).
    now destruct (close y).
Qed.

Lemma close_rel (post : str) (k : nat) :
  forall pre, length pre <= k ->
              lenrel n1 n2 pre (close (pre ++ n1 ++ post)) (close (pre ++ n2 ++ post)).
Proof.
  induction k as [|k IH]; intros pre Hk.
  - destruct pre; [|cbn [length] in Hk; lia].
    cbn [app]. rewrite !close_inert_run by assumption.
    destruct (close post) as [j|]; cbn [option_map lenrel]; [|exact I].
    right. exists j. cbn [length]. split; lia.
  - destruct pre as [|c t].
    { cbn [app]. rewrite !close_inert_run by assumption.
      destruct (close post) as [j|]; cbn [option_map lenrel]; [|exact I].
      right. exists j. cbn [length]. split; lia. }
    cbn [length] in Hk. cbn [app close].
    destruct (lit_char c).
    { apply lenrel_map_S. apply IH. lia. }
    destruct (Ascii.eqb "\" c); [|cbn [lenrel]; apply skiprel_same; cbn [length]; lia].
    destruct t as [|e t'].
    + destruct (inert_head n1 Hne1 Hin1) as (h1 & m1 & -> & Hh1 & Hm1).
      destruct (inert_head n2 Hne2 Hin2) as (h2 & m2 & -> & Hh2 & Hm2).
      cbn [app]. rewrite (inert_not_newline h1 Hh1), (inert_not_newline h2 Hh2).
      rewrite !close_inert_run by assumption.
      destruct (close post) as [j|]; cbn [option_map lenrel]; [|exact I].
      right. exists j. cbn [length]. split; lia.
    + cbn [app]. destruct (negb (Ascii.eqb e "010")); [|exact I].
      cbn [length] in Hk. assert (Ht : length t' <= k) by lia.
      specialize (IH t' Ht).
      destruct (close (t' ++ n1 ++ post)) as [j1|],
               (close (t' ++ n2 ++ post)) as [j2|];
        cbn [option_map lenrel] in *; try contradiction; [|exact I].
      now apply skiprel_cons, skiprel_cons.
Qed.

Lemma inert_lit_len : inert_sc n1 n2 lit_len.
Proof.
  intros pre post. destruct pre as [|c t].
  - destruct (inert_head n1 Hne1 Hin1) as (h1 & m1 & -> & Hh1 & _).
    destruct (inert_head n2 Hne2 Hin2) as (h2 & m2 & -> & Hh2 & _).
    cbn [app lit_len]. now rewrite (inert_not_quote h1 Hh1), (inert_not_quote h2 Hh2).
  - cbn [app lit_len]. destruct (Ascii.eqb "'" c); [|exact I].
    apply lenrel_map_S. apply (close_rel post (length t)). lia.
Qed.

(** *** The stages before the number pattern keep the two texts related *)

Lemma ends_ok_skipn (k : nat) :
  forall pre, ends_ok pre = true -> ends_ok (skipn k pre) = true.
Proof.
  induction k as [|k IH]; intros pre H; [exact H|].
  destruct pre as [|c t]; [exact H|]. cbn [skipn]. apply IH.
  now apply ends_ok_tail with c.
Qed.

Lemma related_skipn (pre post : str) (k1 k2 : nat) :
  ends_ok pre = true -> starts_ok post = true -> skiprel n1 n2 pre k1 k2 ->
  eq_or_related n1 n2 (skipn k1 (pre ++ n1 ++ post)) (skipn k2 (pre ++ n2 ++ post)).
Proof.
  intros He Hs [[-> Hk] | [j [-> ->]]].
  - right. exists (skipn k2 pre), post. rewrite !skipn_app_le by assumption.
    repeat split; auto using ends_ok_skipn.
  - left. rewrite <- !Nat.add_assoc, !skipn_app_ge. reflexivity.
Qed.

Lemma stage_anchored (len : scanner) (t1 t2 : str) :
  inert_sc n1 n2 len -> related n1 n2 t1 t2 ->
  eq_or_related n1 n2 (match len t1 with Some k => skipn k t1 | None => t1 end)
                (match len t2 with Some k => skipn k t2 | None => t2 end).
Proof.
  intros Hlen (pre & post & -> & -> & He & Hs). specialize (Hlen pre post).
  destruct (len (pre ++ n1 ++ post)) as [k1|], (len (pre ++ n2 ++ post)) as [k2|];
    cbn [lenrel] in Hlen; try contradiction.
  - now apply related_skipn.
  - right. now exists pre, post.
Qed.

Lemma inert_word (n : str) :
  forallb inert_char n = true -> forallb (fun c => negb (is_space c)) n = true.
Proof.
  intros H. rewrite forallb_forall in *. intros c Hc.
  now rewrite (inert_not_space c (H c Hc)).
Qed.

Lemma collapse_literal (n pre post : str) :
  n <> [] -> forallb inert_char n = true ->
  collapse (pre ++ n ++ post)
  = squeeze_before false pre ++ n ++ squeeze true post.
Proof.
  intros Hne Hn. rewrite collapse_squeeze.
  destruct (inert_head n Hne Hn) as (h & m & -> & Hh & Hm).
  cbn [app]. rewrite squeeze_app_before by now apply inert_not_space.
  f_equal. rewrite <- (squeeze_head true h (m ++ post)) by now apply inert_not_space.
  change (h :: m ++ post) with ((h :: m) ++ post).
  rewrite squeeze_app_after; [reflexivity | discriminate | now apply inert_word].
Qed.

Lemma stage_collapse (t1 t2 : str) :
  related n1 n2 t1 t2 -> related n1 n2 (collapse t1) (collapse t2).
Proof.
  intros (pre & post & -> & -> & He & Hs).
  exists (squeeze_before false pre), (squeeze true post).
  rewrite !collapse_literal by assumption.
  repeat split; auto using ends_ok_squeeze_before, starts_ok_squeeze.
Qed.


(** *** The string-literal pattern *)

Lemma gsub_skip_app (len : bool -> str -> option nat) (repl : str) (a b : str) :
  forall wb j,
    gsub len repl wb (a ++ b) (length a + j) = gsub len repl (wb_after wb a) b j.
Proof.
  induction a as [|c a IH]; intros wb j; [reflexivity|].
  cbn [app length Nat.add gsub]. rewrite IH. f_equal.
  destruct a as [|c2 a]; reflexivity.
Qed.

Lemma gsub_lit_wb (repl : str) (s : str) :
  forall wb wb' k,
    gsub (fun _ => lit_len) repl wb s k = gsub (fun _ => lit_len) repl wb' s k.
Proof.
  induction s as [|c t IH]; intros wb wb' k; [reflexivity|].
  cbn [gsub]. destruct k as [|k]; [|apply IH].
  destruct (lit_len (c :: t)) as [[|n]|]; reflexivity.
Qed.

Lemma gsub_lit_inert (repl : str) (m x : str) (wb : bool) :
  forallb inert_char m = true ->
  gsub (fun _ => lit_len) repl wb (m ++ x) 0
  = m ++ gsub (fun _ => lit_len) repl false x 0.
Proof.
  revert wb. induction m as [|c m IH]; intros wb H.
  - cbn [app]. apply gsub_lit_wb.
  - cbn [forallb] in H. apply andb_true_iff in H. destruct H as [Hc Hm].
    cbn [app gsub lit_len]. rewrite (inert_not_quote c Hc). now rewrite IH.
Qed.

Lemma starts_ok_gsub_lit (post : str) (wb : bool) :
  starts_ok post = true ->
  starts_ok (gsub (fun _ => lit_len) (py "'?'") wb post 0) = true.
Proof.
  destruct post as [|c t]; [reflexivity|]. cbn [gsub]. intros H.
  destruct (lit_len (c :: t)) as [[|n]|]; [reflexivity | reflexivity | exact H].
Qed.

Lemma ends_ok_app (a b : str) : b <> [] -> ends_ok (a ++ b) = ends_ok b.
Proof.
  intros Hb. induction a as [|c a IH]; [reflexivity|].
  cbn [app]. rewrite ends_ok_cons; [exact IH|]. now destruct a, b.
Qed.

Section LiteralStage.
Variable post : str.

Lemma gsub_lit_rel :
  forall pre, ends_ok pre = true ->
  forall wb1 wb2 k1 k2, skiprel n1 n2 pre k1 k2 ->
    lit_sub wb1 (pre ++ n1 ++ post) k1 = lit_sub wb2 (pre ++ n2 ++ post) k2
    \/ exists pre',
         lit_sub wb1 (pre ++ n1 ++ post) k1 = pre' ++ n1 ++ lit_sub false post 0
         /\ lit_sub wb2 (pre ++ n2 ++ post) k2 = pre' ++ n2 ++ lit_sub false post 0
         /\ ends_ok pre' = true
         /\ (pre' = [] -> k1 = length pre).
Proof.
  unfold lit_sub.
  induction pre as [|c t IH]; intros He wb1 wb2 k1 k2 Hk.
  - destruct Hk as [[-> Hk] | [j [-> ->]]].
    + cbn [length] in Hk. assert (k2 = 0) by lia. subst k2. right. exists [].
      cbn [app]. rewrite !gsub_lit_inert by assumption. repeat split.
    + left. cbn [app length Nat.add]. rewrite !gsub_skip_app. apply gsub_lit_wb.
  - pose proof (ends_ok_tail c t He) as Het.
    destruct k1 as [|k1], k2 as [|k2].
    + (* a match may start here *)
      cbn [app gsub].
      pose proof (inert_lit_len (c :: t) post) as Hl. cbn [app] in Hl.
      destruct (lit_len (c :: t ++ n1 ++ post)) as [[|m1]|],
               (lit_len (c :: t ++ n2 ++ post)) as [[|m2]|];
        cbn [lenrel] in Hl; try contradiction;
        try (exfalso; apply skiprel_zero in Hl; lia).
      * destruct (IH Het (is_word c) (is_word c) 0 0 (skiprel_same t 0 (Nat.le_0_l _)))
          as [E | (pre' & E1 & E2 & He' & Hnil)].
        -- left. now rewrite E.
        -- right. exists (py "'?'" ++ c :: pre'). rewrite E1, E2.
           rewrite <- !app_assoc. cbn [app]. repeat split.
           ++ rewrite ends_ok_app by discriminate.
              destruct pre' as [|x l]; [|now rewrite ends_ok_cons by discriminate].
              specialize (Hnil eq_refl). destruct t; [exact He | discriminate].
           ++ discriminate.
      * apply skiprel_uncons in Hl.
        destruct (IH Het (is_word c) (is_word c) m1 m2 Hl)
          as [E | (pre' & E1 & E2 & He' & Hnil)].
        -- left. now rewrite E.
        -- right. exists (py "'?'" ++ pre'). rewrite E1, E2.
           rewrite <- !app_assoc. repeat split.
           ++ destruct pre' as [|x l]; [reflexivity|].
              now rewrite ends_ok_app by discriminate.
           ++ discriminate.
      * destruct (IH Het (is_word c) (is_word c) 0 0 (skiprel_same t 0 (Nat.le_0_l _)))
          as [E | (pre' & E1 & E2 & He' & Hnil)].
        -- left. now rewrite E.
        -- right. exists (c :: pre'). rewrite E1, E2. cbn [app]. repeat split.
           ++ destruct pre' as [|x l]; [|now rewrite ends_ok_cons by discriminate].
              specialize (Hnil eq_refl). destruct t; [exact He | discriminate].
           ++ discriminate.
    + apply skiprel_zero in Hk. destruct Hk as [Hk _].
      specialize (Hk eq_refl). discriminate.
    + apply skiprel_zero in Hk. destruct Hk as [_ Hk].
      specialize (Hk eq_refl). discriminate.
    + apply skiprel_uncons in Hk. cbn [app gsub].
      destruct (IH Het (is_word c) (is_word c) k1 k2 Hk)
        as [E | (pre' & E1 & E2 & He' & Hnil)].
      * now left.
      * right. exists pre'. repeat split; auto.
        intros Hp. cbn [length]. f_equal. now apply Hnil.
Qed.

Lemma stage_string_literal (pre : str) :
  ends_ok pre = true -> starts_ok post = true ->
  eq_or_related n1 n2 (re_sub re_string_literal (py "'?'") (pre ++ n1 ++ post))
                      (re_sub re_string_literal (py "'?'") (pre ++ n2 ++ post)).
Proof.
  intros He Hs. rewrite !re_sub_string_literal.
  destruct (gsub_lit_rel pre He false false 0 0 (skiprel_same pre 0 (Nat.le_0_l _)))
    as [E | (pre' & E1 & E2 & He' & _)].
  - now left.
  - right. exists pre', (lit_sub false post 0). unfold lit_sub in *.
    repeat split; auto using starts_ok_gsub_lit.
Qed.

End LiteralStage.

End Inert.

(** *** The number pattern *)

Section NumberStage.

Lemma digit_word (c : ascii) : is_digit c = true -> is_word c = true.
Proof. intros H. unfold is_word. rewrite H. now rewrite orb_true_r. Qed.

Lemma okd_not_word (c : ascii) : okd c = true -> is_word c = false.
Proof.
  unfold okd. intros H. apply negb_true_iff in H.
  apply orb_false_iff in H. tauto.
Qed.

Lemma okd_not_digit (c : ascii) : okd c = true -> is_digit c = false.
Proof.
  intros H. apply okd_not_word in H. destruct (is_digit c) eqn:E; [|reflexivity].
  apply digit_word in E. congruence.
Qed.

Lemma okd_not_point (c : ascii) : okd c = true -> Ascii.eqb "." c = false.
Proof.
  unfold okd. intros H. apply negb_true_iff in H.
  apply orb_false_iff in H. rewrite Ascii.eqb_sym. tauto.
Qed.

Lemma firstn_run (p : ascii -> bool) (s : str) :
  forallb p (firstn (run p s) s) = true.
Proof.
  induction s as [|c t IH]; [reflexivity|]. cbn [run].
  destruct (p c) eqn:E; [|reflexivity]. cbn [firstn forallb]. now rewrite E.
Qed.

Lemma head_is_skipn_run (p : ascii -> bool) (s : str) :
  head_is p (skipn (run p s) s) = false.
Proof.
  induction s as [|c t IH]; [reflexivity|]. cbn [run].
  destruct (p c) eqn:E; [exact IH|]. cbn [skipn head_is]. exact E.
Qed.

(** The shape of a numeric literal. *)
Lemma numeral_shape (n : str) :
  is_numeral n = true ->
  exists ds tl,
    n = ds ++ tl /\ ds <> [] /\ forallb is_digit ds = true
    /\ (tl = [] \/ exists e r, tl = "."%char :: e :: r
                               /\ forallb is_digit (e :: r) = true).
Proof.
  unfold is_numeral. intros H. apply andb_true_iff in H. destruct H as [Hd Ht].
  apply Nat.ltb_lt in Hd.
  exists (firstn (run is_digit n) n), (skipn (run is_digit n) n).
  split; [now rewrite firstn_skipn|]. split.
  { destruct n as [|c t]; [cbn in Hd; lia|]. cbn [run] in *.
    destruct (is_digit c); [discriminate | lia]. }
  split; [apply firstn_run|].
  destruct (skipn (run is_digit n) n) as [|c r]; [now left|]. right.
  apply andb_true_iff in Ht. destruct Ht as [Ht Hr].
  apply andb_true_iff in Ht. destruct Ht as [Hc Hl].
  apply Ascii.eqb_eq in Hc. subst c. apply Nat.ltb_lt in Hl.
  destruct r as [|e r]; [cbn in Hl; lia|]. now exists e, r.
Qed.

Lemma digits_inert (ds : str) :
  forallb is_digit ds = true -> forallb inert_char ds = true.
Proof.
  induction ds as [|c t IH]; [reflexivity|]. cbn [forallb]. intros H.
  apply andb_true_iff in H. destruct H as [Hc Ht].
  unfold inert_char at 1. rewrite Hc. cbn [orb andb]. now apply IH.
Qed.

Lemma numeral_inert (n : str) :
  is_numeral n = true -> n <> [] /\ forallb inert_char n = true.
Proof.
  intros H. destruct (numeral_shape n H) as (ds & tl & -> & Hne & Hds & Htl).
  split; [destruct ds; [congruence | discriminate]|].
  rewrite forallb_app, (digits_inert ds Hds). cbn [andb].
  destruct Htl as [-> | (e & r & -> & Hr)]; [reflexivity|].
  change (forallb inert_char ("."%char :: e :: r))
    with (inert_char "." && forallb inert_char (e :: r)).
  now rewrite (digits_inert (e :: r) Hr).
Qed.

Lemma run_digits_stop (ds rest : str) :
  forallb is_digit ds = true -> head_is is_digit rest = false ->
  run is_digit (ds ++ rest) = length ds.
Proof.
  intros Hds Hr. rewrite run_app_all by assumption.
  destruct rest as [|c t]; cbn [run head_is] in *; [lia|]. rewrite Hr. lia.
Qed.

Lemma starts_ok_head (post : str) (p : ascii -> bool) :
  starts_ok post = true -> (forall c, okd c = true -> p c = false) ->
  head_is p post = false.
Proof.
  intros H Hp. destruct post as [|c t]; [reflexivity|]. cbn [head_is].
  apply Hp. exact H.
Qed.

(** The whole of a numeric literal is matched where it stands. *)
Lemma num_len_numeral (n post : str) :
  is_numeral n = true -> starts_ok post = true ->
  num_len false (n ++ post) = Some (length n).
Proof.
  intros Hn Hp. destruct (numeral_shape n Hn) as (ds & tl & -> & Hne & Hds & Htl).
  pose proof (starts_ok_head post is_digit Hp okd_not_digit) as Hpd.
  pose proof (starts_ok_head post is_word Hp okd_not_word) as Hpw.
  unfold num_len. rewrite <- app_assoc.
  assert (Hrun : run is_digit (ds ++ tl ++ post) = length ds).
  { apply run_digits_stop; [exact Hds|].
    destruct Htl as [-> | (e & r & -> & _)]; [exact Hpd | reflexivity]. }
  rewrite Hrun.
  assert (Hlen : (length ds =? 0) = false).
  { apply Nat.eqb_neq. destruct ds; [congruence | cbn [length]; lia]. }
  rewrite Hlen. cbn [orb].
  replace (skipn (length ds) (ds ++ tl ++ post)) with (tl ++ post)
    by (rewrite <- (Nat.add_0_r (length ds)), skipn_app_ge; reflexivity).
  destruct Htl as [-> | (e & r & -> & Hr)].
  - cbn [app]. rewrite Hpw, app_nil_r.
    destruct post as [|c [|e t]]; [reflexivity | reflexivity|].
    cbn [starts_ok hd] in Hp. unfold starts_ok in Hp. cbn [hd] in Hp.
    now rewrite (okd_not_point c Hp).
  - cbn [app]. pose proof Hr as Hr'. cbn [forallb] in Hr'.
    apply andb_true_iff in Hr'. destruct Hr' as [He _]. rewrite He.
    cbn [Ascii.eqb Bool.eqb andb].
    change (e :: r ++ post) with ((e :: r) ++ post).
    rewrite (run_digits_stop (e :: r) post Hr Hpd).
    replace (skipn (length (e :: r)) ((e :: r) ++ post)) with post
      by (rewrite <- (Nat.add_0_r (length (e :: r))), skipn_app_ge; reflexivity).
    rewrite Hpw. rewrite !length_app. cbn [length]. f_equal. lia.
Qed.

(** Before the literal, a match neither reaches nor sees it. *)
Lemma run_before (p : ascii -> bool) (a x : str) :
  a <> [] -> p (last a " "%char) = false ->
  run p (a ++ x) = run p a /\ run p a < length a.
Proof.
  intros Hne Hl.
  assert (H : run p a < length a).
  { destruct (run_all_or_stop p a) as [H | H]; [exact H|]. exfalso.
    assert (Hin : In (last a " "%char) a).
    { destruct a as [|c t]; [congruence|].
      destruct (@exists_last _ (c :: t)) as (l & z & E); [discriminate|].
      rewrite E, last_last. apply in_or_app. right. now left. }
    rewrite forallb_forall in H. rewrite (H _ Hin) in Hl. discriminate. }
  split; [now apply run_app_stop | exact H].
Qed.

Lemma head_is_app (p : ascii -> bool) (a x : str) :
  a <> [] -> head_is p (a ++ x) = head_is p a.
Proof. destruct a; [congruence | reflexivity]. Qed.

Lemma last_skipn (a : str) (k : nat) :
  k < length a -> last (skipn k a) " "%char = last a " "%char.
Proof.
  revert a. induction k as [|k IH]; intros a H; [reflexivity|].
  destruct a as [|c t]; [cbn in H; lia|]. cbn [skipn length] in *.
  rewrite IH by lia. destruct t; [cbn in H; lia | reflexivity].
Qed.

Lemma skipn_ne (a : str) (k : nat) : k < length a -> skipn k a <> [].
Proof.
  intros H E. apply (f_equal (@length _)) in E. rewrite length_skipn in E.
  cbn [length] in E. lia.
Qed.

Lemma num_len_before (wb : bool) (a x : str) :
  a <> [] -> ends_ok a = true ->
  num_len wb (a ++ x) = num_len wb a
  /\ forall j, num_len wb a = Some j -> j <= length a.
Proof.
  intros Hne He. unfold ends_ok in He.
  destruct (run_before is_digit a x Hne (okd_not_digit _ He)) as [Hr Hlt].
  unfold num_len. rewrite Hr.
  rewrite skipn_app_le by lia.
  set (d1 := run is_digit a) in *.
  pose proof (skipn_ne a d1 Hlt) as Hs2.
  pose proof (last_skipn a d1 Hlt) as Hlast.
  destruct ((d1 =? 0) || wb); [split; [reflexivity | discriminate]|].
  rewrite head_is_app by exact Hs2.
  destruct (skipn d1 a) as [|c [|e t]] eqn:E2; [congruence | |].
  - (* the last character of [a]: no point *)
    cbn [last] in Hlast. rewrite <- Hlast in He.
    split.
    + cbn [app]. destruct x as [|e t]; [reflexivity|].
      now rewrite (okd_not_point c He).
    + intros j Hj. destruct (head_is is_word [c]); inversion Hj. lia.
  - change ((c :: e :: t) ++ x) with (c :: e :: (t ++ x)). cbv beta iota.
    destruct (Ascii.eqb "." c && is_digit e).
    + assert (Hne2 : e :: t <> []) by discriminate.
      assert (Hl2 : last (e :: t) " "%char = last a " "%char).
      { rewrite <- Hlast. reflexivity. }
      rewrite <- Hl2 in He.
      change (e :: t ++ x) with ((e :: t) ++ x).
      destruct (run_before is_digit (e :: t) x Hne2 (okd_not_digit _ He))
        as [Hr2 Hlt2].
      rewrite Hr2. rewrite skipn_app_le by lia.
      rewrite head_is_app by (apply skipn_ne; exact Hlt2).
      split; [reflexivity|].
      assert (Hlen : length a = d1 + length (c :: e :: t)).
      { rewrite <- E2, length_skipn. lia. }
      intros j Hj. clear Hr2. remember (run is_digit (e :: t)) as d2 eqn:Ed2.
      cbn [length] in *.
      destruct (head_is is_word (skipn d2 (e :: t)));
        [destruct (head_is is_word (c :: e :: t))|];
        try discriminate; injection Hj as <-; lia.
    + split; [reflexivity|]. intros j Hj.
      destruct (head_is is_word (c :: e :: t)); inversion Hj. lia.
Qed.

Lemma gsub_num_wb (post : str) (wb : bool) :
  starts_ok post = true ->
  gsub num_len (py "?") wb post 0 = gsub num_len (py "?") false post 0.
Proof.
  intros H. destruct post as [|c t]; [reflexivity|].
  unfold starts_ok in H. cbn [hd] in H.
  cbn [gsub]. unfold num_len. cbn [run]. rewrite (okd_not_digit c H).
  reflexivity.
Qed.

Lemma gsub_numeral (n post : str) :
  is_numeral n = true -> starts_ok post = true ->
  gsub num_len (py "?") false (n ++ post) 0
  = py "?" ++ gsub num_len (py "?") false post 0.
Proof.
  intros Hn Hp. pose proof (num_len_numeral n post Hn Hp) as Hl.
  destruct (numeral_inert n Hn) as [Hne _].
  destruct n as [|c t]; [congruence|].
  cbn [app gsub] in *. rewrite Hl. cbn [length]. f_equal.
  rewrite <- (Nat.add_0_r (length t)), gsub_skip_app.
  now apply gsub_num_wb.
Qed.

Variables n1 n2 post : str.
Hypothesis Hn1 : is_numeral n1 = true.
Hypothesis Hn2 : is_numeral n2 = true.
Hypothesis Hpost : starts_ok post = true.

Lemma gsub_num_rel :
  forall pre, ends_ok pre = true ->
  forall wb k, k <= length pre -> (pre = [] -> wb = false) ->
    gsub num_len (py "?") wb (pre ++ n1 ++ post) k
    = gsub num_len (py "?") wb (pre ++ n2 ++ post) k.
Proof.
  induction pre as [|c t IH]; intros He wb k Hk Hwb.
  - cbn [length] in Hk. assert (k = 0) by lia. subst k.
    rewrite (Hwb eq_refl). cbn [app].
    now rewrite !gsub_numeral.
  - pose proof (ends_ok_tail c t He) as Het.
    assert (Hw : t = [] -> is_word c = false).
    { intros ->. now apply okd_not_word. }
    cbn [app gsub]. destruct k as [|k].
    + change (c :: t ++ n1 ++ post) with ((c :: t) ++ n1 ++ post).
      change (c :: t ++ n2 ++ post) with ((c :: t) ++ n2 ++ post).
      destruct (num_len_before wb (c :: t) (n1 ++ post)) as [E1 Hb];
        [discriminate | exact He |].
      destruct (num_len_before wb (c :: t) (n2 ++ post)) as [E2 _];
        [discriminate | exact He |].
      rewrite E1, E2.
      destruct (num_len wb (c :: t)) as [[|j]|].
      * now rewrite (IH Het (is_word c) 0 (Nat.le_0_l _) Hw).
      * specialize (Hb (S j) eq_refl). cbn [length] in Hb.
        rewrite (IH Het (is_word c) j); [reflexivity | lia | exact Hw].
      * now rewrite (IH Het (is_word c) 0 (Nat.le_0_l _) Hw).
    + cbn [length] in Hk. apply IH; [exact Het | lia | exact Hw].
Qed.

End NumberStage.

Section NumeralClaim.
Import QueryAnalyzer.

Lemma stage_number (n1 n2 t1 t2 : str) :
  is_numeral n1 = true -> is_numeral n2 = true ->
  related n1 n2 t1 t2 ->
  re_sub re_number (py "?") t1 = re_sub re_number (py "?") t2.
Proof.
  intros H1 H2 (pre & post & -> & -> & He & Hs).
  rewrite !re_sub_number.
  now apply (gsub_num_rel n1 n2 post H1 H2 Hs pre He false 0 (Nat.le_0_l _)).
Qed.

(** Two texts that differ in one numeric literal have one normal form. *)
Lemma normalize_numeral (pre post n1 n2 : str) :
  is_numeral n1 = true -> is_numeral n2 = true ->
  ends_ok pre = true -> starts_ok post = true ->
  normalize_query (pre ++ n1 ++ post) = normalize_query (pre ++ n2 ++ post).
Proof.
  intros H1 H2 He Hs.
  destruct (numeral_inert n1 H1) as [Hne1 Hin1].
  destruct (numeral_inert n2 H2) as [Hne2 Hin2].
  assert (H0 : related n1 n2 (pre ++ n1 ++ post) (pre ++ n2 ++ post))
    by now exists pre, post.
  unfold normalize_query. cbv zeta.
  fold (collapse (re_sub re_query [] (re_sub re_executing [] (pre ++ n1 ++ post)))).
  fold (collapse (re_sub re_query [] (re_sub re_executing [] (pre ++ n2 ++ post)))).
  revert H0. generalize (pre ++ n1 ++ post), (pre ++ n2 ++ post).
  intros t1 t2 H0.
  assert (HE : eq_or_related n1 n2 (re_sub re_executing [] t1)
                              (re_sub re_executing [] t2)).
  { rewrite !re_sub_executing. apply stage_anchored; auto.
    apply inert_exec; auto. }
  destruct HE as [E | HE]; [now rewrite E|].
  assert (HQ : eq_or_related n1 n2
                 (re_sub re_query [] (re_sub re_executing [] t1))
                 (re_sub re_query [] (re_sub re_executing [] t2))).
  { rewrite !re_sub_query. apply stage_anchored; auto.
    apply inert_query; auto. }
  destruct HQ as [E | HQ]; [now rewrite E|].
  apply stage_collapse in HQ; auto.
  destruct HQ as (pre' & post' & E1 & E2 & He' & Hs').
  rewrite E1, E2.
  assert (HS : eq_or_related n1 n2
                 (re_sub re_string_literal (py "'?'") (pre' ++ n1 ++ post'))
                 (re_sub re_string_literal (py "'?'") (pre' ++ n2 ++ post')))
    by (apply stage_string_literal; auto).
  destruct HS as [E | HS]; [now rewrite E|].
  now rewrite (stage_number n1 n2 _ _ H1 H2 HS).
Qed.

End NumeralClaim.

(** *** Quoted string literals *)

Section StringStage.
Import QueryAnalyzer.

Lemma is_body_char (c : ascii) (t : str) :
  lit_char c = true -> is_body (c :: t) = is_body t.
Proof. intros H. cbn [is_body]. now rewrite H. Qed.

Lemma is_body_escape (e : ascii) (t : str) :
  is_body ("\"%char :: e :: t) = negb (Ascii.eqb e "010") && is_body t.
Proof. reflexivity. Qed.

Lemma balanced_char (c : ascii) (t : str) :
  lit_char c = true -> balanced true (c :: t) = balanced true t.
Proof. intros H. cbn [balanced]. now rewrite H. Qed.

Lemma balanced_escape (e : ascii) (t : str) :
  balanced true ("\"%char :: e :: t)
  = negb (Ascii.eqb e "010") && balanced true t.
Proof. reflexivity. Qed.

Lemma balanced_quote (t : str) :
  balanced true ("'"%char :: t) = balanced false t.
Proof. reflexivity. Qed.

Lemma balanced_out (c : ascii) (t : str) :
  balanced false (c :: t) = balanced (Ascii.eqb "'" c) t.
Proof. reflexivity. Qed.

Lemma space_lit_char (c : ascii) : is_space c = true -> lit_char c = true.
Proof.
  intros H. unfold lit_char. apply negb_true_iff, orb_false_iff. split.
  - destruct (Ascii.eqb c "'") eqn:E; [|reflexivity].
    apply Ascii.eqb_eq in E. subst c. discriminate.
  - destruct (Ascii.eqb c "\") eqn:E; [|reflexivity].
    apply Ascii.eqb_eq in E. subst c. discriminate.
Qed.

Lemma space_not_newline_escape : negb (Ascii.eqb " " "010") = true.
Proof. reflexivity. Qed.

Lemma space_not_quote (c : ascii) : is_space c = true -> Ascii.eqb "'" c = false.
Proof.
  intros H. destruct (Ascii.eqb "'" c) eqn:E; [|reflexivity].
  apply Ascii.eqb_eq in E. subst c. discriminate.
Qed.

(** The three cases of a character inside a literal. *)
Lemma lit_cases (c : ascii) :
  lit_char c = true
  \/ (lit_char c = false /\ c = "\"%char)
  \/ (lit_char c = false /\ Ascii.eqb "\" c = false /\ c = "'"%char).
Proof.
  unfold lit_char. destruct (Ascii.eqb c "'") eqn:E1.
  - right. right. apply Ascii.eqb_eq in E1. subst c. now repeat split.
  - destruct (Ascii.eqb c "\") eqn:E2.
    + right. left. apply Ascii.eqb_eq in E2. now subst c.
    + now left.
Qed.

(** Collapsing the whitespace keeps the body of a literal a body. *)
Lemma is_body_squeeze_bounded (m : nat) :
  forall b w, length b <= m -> is_body b = true ->
              is_body (squeeze_before w b) = true.
Proof.
  induction m as [|m IH]; intros b w Hm H.
  - destruct b; [reflexivity | cbn [length] in Hm; lia].
  - destruct b as [|c t]; [reflexivity|]. cbn [length] in Hm.
    destruct (lit_cases c) as [Hc | [[Hc ->] | (Hc & Hb & ->)]].
    + rewrite is_body_char in H by exact Hc. cbn [squeeze_before].
      destruct (is_space c) eqn:Es.
      * destruct w; [rewrite is_body_char by reflexivity|]; apply IH; auto; lia.
      * rewrite is_body_char by exact Hc. apply IH; auto; lia.
    + destruct t as [|e t]; [discriminate|]. rewrite is_body_escape in H.
      apply andb_true_iff in H. destruct H as [He Ht]. cbn [length] in Hm.
      change (squeeze_before w ("\"%char :: e :: t))
        with ("\"%char :: squeeze_before true (e :: t)).
      cbn [squeeze_before]. destruct (is_space e).
      * rewrite is_body_escape. cbn [negb Ascii.eqb andb]. apply IH; auto; lia.
      * rewrite is_body_escape, He. cbn [andb]. apply IH; auto; lia.
    + discriminate.
Qed.

Lemma is_body_squeeze (b : str) (w : bool) :
  is_body b = true -> is_body (squeeze_before w b) = true.
Proof. now apply (is_body_squeeze_bounded (length b)). Qed.

(** Collapsing the whitespace leaves no literal open either. *)
Lemma balanced_squeeze_bounded (m : nat) :
  forall s inq w, length s <= m -> balanced inq s = true ->
                  balanced inq (squeeze_before w s) = true.
Proof.
  induction m as [|m IH]; intros s inq w Hm H.
  - destruct s; [exact H | cbn [length] in Hm; lia].
  - destruct s as [|c t]; [exact H|]. cbn [length] in Hm.
    destruct inq.
    + destruct (lit_cases c) as [Hc | [[Hc ->] | (Hc & Hb & ->)]].
      * rewrite balanced_char in H by exact Hc. cbn [squeeze_before].
        destruct (is_space c) eqn:Es.
        -- destruct w; [rewrite balanced_char by reflexivity|];
             apply IH; auto; lia.
        -- rewrite balanced_char by exact Hc. apply IH; auto; lia.
      * destruct t as [|e t]; [discriminate|]. rewrite balanced_escape in H.
        apply andb_true_iff in H. destruct H as [He Ht]. cbn [length] in Hm.
        change (squeeze_before w ("\"%char :: e :: t))
          with ("\"%char :: squeeze_before true (e :: t)).
        cbn [squeeze_before]. destruct (is_space e).
        -- rewrite balanced_escape. cbn [negb Ascii.eqb andb].
           apply IH; auto; lia.
        -- rewrite balanced_escape, He. cbn [andb]. apply IH; auto; lia.
      * rewrite balanced_quote in H.
        change (squeeze_before w ("'"%char :: t))
          with ("'"%char :: squeeze_before true t).
        rewrite balanced_quote. apply IH; auto; lia.
    + rewrite balanced_out in H. cbn [squeeze_before].
      destruct (is_space c) eqn:Es.
      * rewrite (space_not_quote c Es) in H.
        destruct w; [rewrite balanced_out; cbn [Ascii.eqb]|]; apply IH; auto; lia.
      * rewrite balanced_out. apply IH; auto; lia.
Qed.

Lemma balanced_squeeze (s : str) (w : bool) :
  balanced false s = true -> balanced false (squeeze_before w s) = true.
Proof. now apply (balanced_squeeze_bounded (length s)). Qed.

(** Inside a literal of a text with no open literal: the literal closes
    in the text, whatever follows. *)
Lemma balanced_close_bounded (m : nat) :
  forall t, length t <= m -> balanced true t = true ->
  exists n, n <= length t
            /\ (forall x, close (t ++ x) = Some n)
            /\ balanced false (skipn n t) = true.
Proof.
  induction m as [|m IH]; intros t Hm H.
  - destruct t; [discriminate | cbn [length] in Hm; lia].
  - destruct t as [|c t]; [discriminate|]. cbn [length] in Hm.
    destruct (lit_cases c) as [Hc | [[Hc ->] | (Hc & Hb & ->)]].
    + rewrite balanced_char in H by exact Hc.
      destruct (IH t ltac:(lia) H) as (n & Hn & Hx & Hbal).
      exists (S n). cbn [length skipn]. split; [lia|]. split; [|exact Hbal].
      intros x. cbn [app close]. now rewrite Hc, Hx.
    + destruct t as [|e t]; [discriminate|]. rewrite balanced_escape in H.
      apply andb_true_iff in H. destruct H as [He Ht]. cbn [length] in Hm.
      destruct (IH t ltac:(lia) Ht) as (n & Hn & Hx & Hbal).
      exists (S (S n)). cbn [length skipn]. split; [lia|]. split; [|exact Hbal].
      intros x.
      change (close (("\"%char :: e :: t) ++ x))
        with (if negb (Ascii.eqb e "010")
              then option_map (fun n => S (S n)) (close (t ++ x)) else None).
      now rewrite He, Hx.
    + rewrite balanced_quote in H. exists 1. cbn [length skipn].
      split; [lia|]. split; [|exact H]. reflexivity.
Qed.

Lemma is_body_close_bounded (m : nat) :
  forall b x, length b <= m -> is_body b = true ->
              close (b ++ "'"%char :: x) = Some (S (length b)).
Proof.
  induction m as [|m IH]; intros b x Hm H.
  - destruct b; [reflexivity | cbn [length] in Hm; lia].
  - destruct b as [|c t]; [reflexivity|]. cbn [length] in Hm.
    destruct (lit_cases c) as [Hc | [[Hc ->] | (Hc & Hb & ->)]].
    + rewrite is_body_char in H by exact Hc. cbn [app close length].
      rewrite Hc, IH by (auto; lia). reflexivity.
    + destruct t as [|e t]; [discriminate|]. rewrite is_body_escape in H.
      apply andb_true_iff in H. destruct H as [He Ht]. cbn [length] in Hm.
      change (close (("\"%char :: e :: t) ++ "'"%char :: x))
        with (if negb (Ascii.eqb e "010")
              then option_map (fun n => S (S n)) (close (t ++ "'"%char :: x))
              else None).
      rewrite He, IH by (auto; lia). reflexivity.
    + discriminate.
Qed.

Lemma lit_len_quoted (b x : str) :
  is_body b = true -> lit_len (quoted b ++ x) = Some (length (quoted b)).
Proof.
  intros H. unfold quoted. cbn [app lit_len Ascii.eqb Bool.eqb].
  rewrite <- app_assoc. cbn [app].
  rewrite (is_body_close_bounded (length b) b x (le_n _) H).
  cbn [option_map length]. rewrite length_app. cbn [length].
  f_equal. lia.
Qed.

(** A literal is replaced where it stands, and the text after it is read
    from its start. *)
Lemma gsub_quoted (b x : str) (wb : bool) :
  is_body b = true ->
  gsub (fun _ => lit_len) (py "'?'") wb (quoted b ++ x) 0
  = py "'?'" ++ gsub (fun _ => lit_len) (py "'?'") false x 0.
Proof.
  intros H. pose proof (lit_len_quoted b x H) as Hl.
  unfold quoted in *. cbn [app gsub] in *. rewrite Hl. cbn [length]. f_equal.
  rewrite <- (Nat.add_0_r (length (b ++ ["'"%char]))), gsub_skip_app.
  apply gsub_lit_wb.
Qed.

Lemma gsub_skip_len (len : bool -> str -> option nat) (repl : str)
  (a b : str) (wb : bool) (k : nat) :
  length a = k ->
  gsub len repl wb (a ++ b) k = gsub len repl (wb_after wb a) b 0.
Proof. intros <-. rewrite <- (Nat.add_0_r (length a)) at 1. apply gsub_skip_app. Qed.

Lemma gsub_lit_balanced_bounded (b1 b2 x : str) (m : nat) :
  is_body b1 = true -> is_body b2 = true ->
  forall p wb, length p <= m -> balanced false p = true ->
    gsub (fun _ => lit_len) (py "'?'") wb (p ++ quoted b1 ++ x) 0
    = gsub (fun _ => lit_len) (py "'?'") wb (p ++ quoted b2 ++ x) 0.
Proof.
  intros H1 H2. induction m as [|m IH]; intros p wb Hm H.
  - destruct p; [|cbn [length] in Hm; lia]. cbn [app].
    now rewrite !gsub_quoted.
  - destruct p as [|c t]; [cbn [app]; now rewrite !gsub_quoted|].
    cbn [length] in Hm. rewrite balanced_out in H.
    cbn [app gsub lit_len]. destruct (Ascii.eqb "'" c).
    + destruct (balanced_close_bounded (length t) t (le_n _) H)
        as (n & Hn & Hx & Hbal).
      rewrite !Hx. cbn [option_map]. f_equal.
      assert (Hf : length (firstn n t) = n) by (rewrite length_firstn; lia).
      replace (t ++ quoted b1 ++ x)
        with (firstn n t ++ skipn n t ++ quoted b1 ++ x)
        by (now rewrite app_assoc, firstn_skipn).
      replace (t ++ quoted b2 ++ x)
        with (firstn n t ++ skipn n t ++ quoted b2 ++ x)
        by (now rewrite app_assoc, firstn_skipn).
      rewrite !(gsub_skip_len _ _ _ _ _ _ Hf).
      apply IH; [|exact Hbal]. rewrite length_skipn. lia.
    + f_equal. apply IH; [lia | exact H].
Qed.

(** *** The prefixes of the log, before a quoted literal *)

Lemma startswith_quote (pat a x : str) :
  forallb (fun c => negb (Ascii.eqb c "'")) pat = true ->
  startswith pat (a ++ "'"%char :: x) = startswith pat a.
Proof.
  revert a. induction pat as [|c pat IH]; intros a H; [now destruct a|].
  cbn [forallb] in H. apply andb_true_iff in H. destruct H as [Hc Hp].
  apply negb_true_iff in Hc.
  destruct a as [|d a]; cbn [app startswith]; [now rewrite Hc|].
  now rewrite IH.
Qed.

Lemma stable_str (pat a : str) :
  forallb (fun c => negb (Ascii.eqb c "'")) pat = true -> stable (sc_str pat) a.
Proof. intros H x. unfold sc_str. now rewrite startswith_quote. Qed.

Lemma run_app_false (p : ascii -> bool) (a x : str) (c : ascii) :
  p c = false -> run p (a ++ c :: x) = run p a.
Proof.
  intros H. induction a as [|d a IH]; cbn [app run]; [now rewrite H|].
  now rewrite IH.
Qed.

Lemma stable_run_space (a : str) : stable (sc_run is_space) a.
Proof. intros x. unfold sc_run. now rewrite run_app_false. Qed.

Lemma stable_plus (p : ascii -> bool) (a : str) :
  forallb p a = false -> stable (sc_plus p) a.
Proof.
  intros H x. unfold sc_plus.
  destruct (run_all_or_stop p a) as [Hr | Hr]; [|congruence].
  now rewrite run_app_stop.
Qed.

Lemma stable_then (f g : scanner) (a : str) :
  bounded f -> stable f a ->
  (forall k, f a = Some k -> stable g (skipn k a)) ->
  stable (then_sc f g) a.
Proof.
  intros Hb Hf Hg x. unfold then_sc. rewrite Hf.
  destruct (f a) as [k|] eqn:E; [|reflexivity].
  rewrite skipn_app_le by (now apply Hb). now rewrite (Hg k eq_refl).
Qed.

Lemma stable_query (a : str) : stable query_len a.
Proof.
  apply stable_then; [apply bounded_str | now apply stable_str |].
  intros k _. apply stable_run_space.
Qed.

Lemma stable_exec (a : str) : exec_open a = false -> stable exec_len a.
Proof.
  intros H. apply stable_then; [apply bounded_str | now apply stable_str |].
  unfold sc_str. intros k Hk.
  destruct (startswith (py "Executing (") a) eqn:Es; [|discriminate].
  injection Hk as <-. unfold exec_open in H. rewrite Es in H. cbn [andb] in H.
  apply stable_then; [apply bounded_plus | now apply stable_plus |].
  intros k _.
  apply stable_then; [apply bounded_str | now apply stable_str |].
  intros j _. apply stable_run_space.
Qed.

Lemma strip_stable (len : scanner) (a x : str) :
  bounded len -> stable len a ->
  match len (a ++ "'"%char :: x) with
  | Some k => skipn k (a ++ "'"%char :: x)
  | None => a ++ "'"%char :: x
  end
  = match len a with Some k => skipn k a | None => a end ++ "'"%char :: x.
Proof.
  intros Hb Hs. rewrite Hs. destruct (len a) as [k|] eqn:E; [|reflexivity].
  apply skipn_app_le. now apply Hb.
Qed.

Lemma executing_quote (pre x : str) :
  exec_open pre = false ->
  re_sub re_executing [] (pre ++ "'"%char :: x)
  = re_sub re_executing [] pre ++ "'"%char :: x.
Proof.
  intros H. rewrite !re_sub_executing.
  apply strip_stable; [apply bounded_exec | now apply stable_exec].
Qed.

Lemma query_quote (pre x : str) :
  re_sub re_query [] (pre ++ "'"%char :: x)
  = re_sub re_query [] pre ++ "'"%char :: x.
Proof.
  rewrite !re_sub_query.
  apply strip_stable; [apply bounded_query | apply stable_query].
Qed.

Lemma strip_prefixes_quote (pre x : str) :
  exec_open pre = false ->
  strip_prefixes (pre ++ "'"%char :: x) = strip_prefixes pre ++ "'"%char :: x.
Proof.
  intros H. unfold strip_prefixes.
  now rewrite executing_quote, query_quote.
Qed.

Lemma collapse_quoted (p b x : str) :
  collapse (p ++ quoted b ++ x)
  = squeeze_before false p ++ quoted (squeeze_before true b) ++ squeeze true x.
Proof.
  rewrite collapse_squeeze. unfold quoted. cbn [app].
  rewrite squeeze_app_before by reflexivity. f_equal. f_equal.
  rewrite <- !app_assoc. cbn [app].
  now rewrite squeeze_app_before by reflexivity.
Qed.

(** Two texts that differ in one quoted string literal have one normal
    form. *)
Lemma normalize_quoted (pre post b1 b2 : str) :
  is_body b1 = true -> is_body b2 = true ->
  exec_open pre = false -> balanced false (strip_prefixes pre) = true ->
  normalize_query (pre ++ quoted b1 ++ post)
  = normalize_query (pre ++ quoted b2 ++ post).
Proof.
  intros H1 H2 Ho Hb. unfold normalize_query. cbv zeta.
  fold (strip_prefixes (pre ++ quoted b1 ++ post)).
  fold (strip_prefixes (pre ++ quoted b2 ++ post)).
  fold (collapse (strip_prefixes (pre ++ quoted b1 ++ post))).
  fold (collapse (strip_prefixes (pre ++ quoted b2 ++ post))).
  unfold quoted at 1 2. cbn [app].
  rewrite !strip_prefixes_quote by exact Ho.
  change (strip_prefixes pre ++ "'"%char :: (b1 ++ ["'"%char]) ++ post)
    with (strip_prefixes pre ++ quoted b1 ++ post).
  change (strip_prefixes pre ++ "'"%char :: (b2 ++ ["'"%char]) ++ post)
    with (strip_prefixes pre ++ quoted b2 ++ post).
  rewrite !collapse_quoted, !re_sub_string_literal.
  rewrite (gsub_lit_balanced_bounded
             (squeeze_before true b1) (squeeze_before true b2)
             (squeeze true post) (length (squeeze_before false (strip_prefixes pre)))
             (is_body_squeeze b1 true H1) (is_body_squeeze b2 true H2)
             (squeeze_before false (strip_prefixes pre)) false (le_n _)
             (balanced_squeeze (strip_prefixes pre) false Hb)).
  reflexivity.
Qed.

(** Any number of literals. *)
Lemma normalize_differ (s t : str) :
  differ_in_literals s t -> normalize_query s = normalize_query t.
Proof.
  induction 1 as [s | pre n1 n2 post t H1 H2 He Hs _ IH
                    | pre b1 b2 post t H1 H2 Ho Hb _ IH]; [reflexivity | |].
  - rewrite <- IH. now apply normalize_numeral.
  - rewrite <- IH. now apply normalize_quoted.
Qed.

End StringStage.

(* ================================================================== *)
(** ** The claim about literals *)
(* ================================================================== *)

Section LiteralClaim.
Import QueryAnalyzer AsciiText.

(** C3.  The claim fails on two literals of SQL that the patterns of the
    normalizer, which say they replace string literals and numeric
    literals, read in part only: a quote written twice inside a string
    literal ends the literal and opens a second one, and the exponent of a
    numeric literal hides the number from the pattern.  Two queries that
    differ only in the value of such a literal have different normal
    forms. *)
Lemma normalize_tells_literals_apart :
  normalize_query (py "SELECT * FROM t WHERE name = 'bob'")
  = py "SELECT * FROM T WHERE NAME = '?'"
  /\ normalize_query (py "SELECT * FROM t WHERE name = 'it''s'")
     = py "SELECT * FROM T WHERE NAME = '?''?'"
  /\ normalize_query (py "SELECT * FROM t WHERE name = 'bob'")
     <> normalize_query (py "SELECT * FROM t WHERE name = 'it''s'")
  /\ normalize_query (py "SELECT * FROM t WHERE id = 1")
     = py "SELECT * FROM T WHERE ID = ?"
  /\ normalize_query (py "SELECT * FROM t WHERE id = 1e5")
     = py "SELECT * FROM T WHERE ID = 1E5"
  /\ normalize_query (py "SELECT * FROM t WHERE id = 1")
     <> normalize_query (py "SELECT * FROM t WHERE id = 1e5").
Proof.
  split; [vm_compute; reflexivity|].
  split; [vm_compute; reflexivity|].
  split; [vm_compute; discriminate|].
  split; [vm_compute; reflexivity|].
  split; [vm_compute; reflexivity|].
  vm_compute. discriminate.
Qed.

(** X22.  On ASCII text the normalizer does not tell apart two texts that
    differ in the values of literals of these two shapes: a numeric
    literal (digits, or digits, a point and digits) with no word character
    and no point next to it; a quoted string literal (between two single
    quotes: characters other than the quote and the backslash, and
    backslash escapes) outside the parenthesis of an [Executing (] prefix
    and after a text that, the log prefixes removed, leaves no string
    literal open.  This holds for one such literal and for any number of
    them.  In particular the normal forms of
    [SELECT * FROM t WHERE id = 1] and of [SELECT * FROM t WHERE id = 42]
    are equal. *)
Theorem normalize_literal_insensitive :
  (forall pre post n1 n2 : str,
      ascii_text pre -> ascii_text post ->
      is_numeral n1 = true -> is_numeral n2 = true ->
      ends_ok pre = true -> starts_ok post = true ->
      normalize_query (pre ++ n1 ++ post)
      = normalize_query (pre ++ n2 ++ post))
  /\ (forall pre post b1 b2 : str,
         ascii_text pre -> ascii_text post ->
         ascii_text b1 -> ascii_text b2 ->
         is_body b1 = true -> is_body b2 = true ->
         exec_open pre = false ->
         balanced false (strip_prefixes pre) = true ->
         normalize_query (pre ++ quoted b1 ++ post)
         = normalize_query (pre ++ quoted b2 ++ post))
  /\ (forall s t : str,
         ascii_text s -> ascii_text t ->
         differ_in_literals s t -> normalize_query s = normalize_query t)
  /\ normalize_query (py "SELECT * FROM t WHERE id = 1")
     = normalize_query (py "SELECT * FROM t WHERE id = 42").
Proof.
  split; [intros pre post n1 n2 _ _; apply normalize_numeral|].
  split; [intros pre post b1 b2 _ _ _ _; apply normalize_quoted|].
  split; [intros s t _ _; apply normalize_differ|].
  exact (normalize_numeral (py "SELECT * FROM t WHERE id = ") []
           (py "1") (py "42") eq_refl eq_refl eq_refl eq_refl).
Qed.

Lemma normalize_literal_insensitive_witness :
  normalize_query
    (py "Executing (default): SELECT * FROM users WHERE name = 'bob' AND age > 30.5 LIMIT 10")
  = normalize_query
      (py "Executing (default): SELECT * FROM users WHERE name = 'O\'Neil (jr)' AND age > 7 LIMIT 10").
Proof.
  apply (proj1 (proj2 (proj2 normalize_literal_insensitive)));
    [reflexivity | reflexivity |].
  apply (dl_string
           (py "Executing (default): SELECT * FROM users WHERE name = ")
           (py "bob") (py "O\'Neil (jr)") (py " AND age > 30.5 LIMIT 10"));
    [reflexivity | reflexivity | reflexivity | vm_compute; reflexivity |].
  apply (dl_number
           (py "Executing (default): SELECT * FROM users WHERE name = 'O\'Neil (jr)' AND age > ")
           (py "30.5") (py "7") (py " LIMIT 10"));
    [reflexivity | reflexivity | reflexivity | reflexivity |].
  apply dl_same.
Defined.

End LiteralClaim.

(* ================================================================== *)
(** ** The other detectors of query_analyzer.py *)
(* ================================================================== *)

Section Splitting.

Lemma split_go_skip (sep : str) (s : str) :
  forall k, split_go sep s k = split_go sep (skipn k s) 0.
Proof.
  induction s as [|c t IH]; intros k.
  - now rewrite skipn_nil.
  - destruct k as [|k]; [reflexivity|]. cbn [split_go skipn]. apply IH.
Qed.

Lemma contains_cons (sep : str) (c : ascii) (t : str) :
  contains sep (c :: t) = startswith sep (c :: t) || contains sep t.
Proof. reflexivity. Qed.

(** [s.split(sep)]: the text before the first occurrence of [sep], and
    the pieces of the text after it. *)
Lemma split_first (sep s : str) :
  sep <> [] ->
  split sep s
  = DetectorSpec.before sep s
    :: (if contains sep s then split sep (DetectorSpec.after sep s) else []).
Proof.
  intros Hne. induction s as [|c t IH].
  - destruct sep; [congruence | reflexivity].
  - unfold split in *. cbn [split_go DetectorSpec.before DetectorSpec.after].
    rewrite contains_cons.
    destruct (startswith sep (c :: t)) eqn:Es.
    + cbn [orb]. rewrite split_go_skip.
      destruct sep as [|a sep]; [congruence|].
      change (skipn (length (a :: sep)) (c :: t)) with (skipn (length sep) t).
      replace (length (a :: sep) - 1) with (length sep)
        by (cbn [length]; lia).
      now destruct (split_go (a :: sep) (skipn (length sep) t) 0).
    + cbn [orb]. destruct (split_go sep t 0) as [w ws].
      injection IH as -> ->. reflexivity.
Qed.

End Splitting.

Section OtherDetectors.
Import QueryAnalyzer Spec DetectorSpec.

Lemma duplicate_loop (items : list (str * list Query)) (acc : list Issue) :
  fold_left
    (fun issues item =>
       let '(raw_query, occurrences) := item in
       if 3 <=? length occurrences
       then issues ++ [duplicate_issue raw_query (length occurrences)]
       else issues)
    items acc
  = acc ++ map (fun item => duplicate_issue (fst item) (length (snd item)))
               (filter (fun item => 3 <=? length (snd item)) items).
Proof.
  revert acc. induction items as [|[r occ] t IH]; intros acc.
  - cbn. now rewrite app_nil_r.
  - cbn [fold_left filter fst snd]. destruct (3 <=? length occ).
    + rewrite IH. cbn [map fst snd]. now rewrite <- app_assoc.
    + apply IH.
Qed.

Lemma detect_duplicate_queries_spec (queries : list Query) :
  detect_duplicate_queries queries = duplicates_spec queries.
Proof.
  unfold detect_duplicate_queries, duplicates_spec.
  change (fold_left (fun d q => dict_append (raw q) q d) queries [])
    with (fold_left (fun d q => dict_append (raw q) q d) queries
            (groups_of raw [])).
  rewrite (fold_dict_append raw queries []). cbn [app].
  change (fun (issues : list Issue) (item : str * list Query) =>
            let '(raw_query, occurrences) := item in
            if 3 <=? length occurrences
            then issues ++
                 [mkIssue (py "MEDIUM") (py "Duplicate Query")
                    (py "Identical query executed "
                        ++ str_of_nat (length occurrences) ++ py " times")
                    [raw_query]
                    (py "Consider caching the result or restructuring code to avoid repeated queries")]
            else issues)
    with (fun (issues : list Issue) (item : str * list Query) =>
            let '(raw_query, occurrences) := item in
            if 3 <=? length occurrences
            then issues ++ [duplicate_issue raw_query (length occurrences)]
            else issues).
  rewrite duplicate_loop. cbn [app]. unfold groups_of.
  generalize (distinct (map raw queries)). intros ks.
  induction ks as [|k ks IH]; [reflexivity|].
  cbn [map filter fst snd]. fold (count_raw k queries).
  destruct (3 <=? count_raw k queries); cbn [map fst snd]; now rewrite IH.
Qed.

Lemma count_raw_pos (r : str) (queries : list Query) :
  In r (map raw queries) -> 1 <= count_raw r queries.
Proof.
  unfold count_raw. induction queries as [|q t IH]; [contradiction|].
  cbn [map In filter]. intros [<- | H].
  - rewrite str_eqb_refl. cbn [length]. lia.
  - destruct (str_eqb (raw q) r); cbn [length]; [lia | auto].
Qed.

(** The test of the Cartesian-join detector reads the text between the
    first FROM and the next FROM or WHERE. *)
Lemma comma_in_from_spec (q : Query) :
  comma_in_from q
  = Ok (contains (py "FROM") (upper (raw q)) && negb (has_join q)
        && contains (py ",") (from_clause (upper (raw q)))).
Proof.
  unfold comma_in_from, from_clause.
  destruct (contains (py "FROM") (upper (raw q))) eqn:Ef; [|reflexivity].
  destruct (has_join q); [reflexivity|]. cbn [negb andb].
  rewrite (split_first (py "FROM") (upper (raw q))) by discriminate.
  rewrite Ef.
  rewrite (split_first (py "FROM") (after (py "FROM") (upper (raw q))))
    by discriminate.
  cbn [index nth_error bind].
  rewrite (split_first (py "WHERE")) by discriminate.
  reflexivity.
Qed.

Lemma cartesian_join_loop_spec (queries : list Query) (acc : list Issue) :
  cartesian_join_loop queries acc
  = Ok (acc ++ map cartesian_join_issue (filter cartesian_flagged queries)).
Proof.
  revert acc. induction queries as [|q t IH]; intros acc.
  - cbn. now rewrite app_nil_r.
  - cbn [cartesian_join_loop filter]. unfold cartesian_flagged at 1.
    destruct (str_eqb (query_type q) (py "SELECT") && (1 <? length (tables q))).
    + rewrite comma_in_from_spec. cbn [bind andb].
      rewrite <- andb_assoc.
      destruct (contains (py "FROM") (upper (raw q)) && negb (has_join q)
                && contains (py ",") (from_clause (upper (raw q)))) eqn:E;
        rewrite <- andb_assoc in E; rewrite E.
      * rewrite IH. cbn [map]. now rewrite <- app_assoc.
      * apply IH.
    + cbn [andb]. apply IH.
Qed.

End OtherDetectors.

Section DetectorClaims.
Import QueryAnalyzer Spec DetectorSpec QueryMain.

(** X1.  Exact duplicates: the detector emits one MEDIUM "Duplicate Query"
    issue per raw text that occurs at least 3 times in the log, in the
    order in which the texts first occur; the issue cites the text once and
    its message gives the number of occurrences.  No text is reported
    twice. *)
Theorem duplicate_detector_groups :
  (forall queries,
      detect_duplicate_queries queries
      = map (fun r => duplicate_issue r (count_raw r queries))
            (filter (fun r => 3 <=? count_raw r queries)
                    (distinct (map raw queries))))
  /\ (forall queries,
         NoDup (map QueryAnalyzer.queries (detect_duplicate_queries queries)))
  /\ (forall r n,
         severity (duplicate_issue r n) = py "MEDIUM"
         /\ category (duplicate_issue r n) = py "Duplicate Query"
         /\ QueryAnalyzer.queries (duplicate_issue r n) = [r]).
Proof.
  split; [exact detect_duplicate_queries_spec|].
  split; [|intros r n; repeat split].
  intros queries. rewrite detect_duplicate_queries_spec. unfold duplicates_spec.
  rewrite map_map. cbn [QueryAnalyzer.queries duplicate_issue].
  pose proof (NoDup_filter (fun r => 3 <=? count_raw r queries)
                (NoDup_distinct (map raw queries))) as H.
  revert H. generalize (filter (fun r => 3 <=? count_raw r queries)
                               (distinct (map raw queries))).
  intros l H. induction H as [|x l Hx Hl IH]; [constructor|].
  cbn [map]. constructor; [|exact IH].
  rewrite in_map_iff. intros (y & Hy & Hin). now injection Hy as ->.
Qed.

(** X2.  The Cartesian-join detector emits one issue, in the order of the
    log, for each SELECT query with more than one extracted table whose
    upper-cased text holds FROM, no JOIN, and a comma between the first
    FROM and the next FROM or WHERE; a comma anywhere else in the query
    does not count.  Its test never raises. *)
Theorem cartesian_detector_reads_from_clause :
  (forall q,
      comma_in_from q
      = Ok (contains (py "FROM") (upper (raw q)) && negb (has_join q)
            && contains (py ",") (from_clause (upper (raw q)))))
  /\ (forall queries,
         detect_cartesian_join queries
         = Ok (map cartesian_join_issue (filter cartesian_flagged queries)))
  /\ (forall u,
         contains (py "FROM") u = true ->
         split (py "FROM") u
         = before (py "FROM") u :: split (py "FROM") (after (py "FROM") u)).
Proof.
  split; [exact comma_in_from_spec|]. split.
  - intros queries. unfold detect_cartesian_join.
    now rewrite cartesian_join_loop_spec.
  - intros u H. rewrite split_first by discriminate. now rewrite H.
Qed.

Lemma cartesian_detector_reads_from_clause_witness :
  split (py "FROM") (py "SELECT A FROM T, U WHERE X IN (SELECT 1 FROM V, W)")
  = [py "SELECT A "; py " T, U WHERE X IN (SELECT 1 "; py " V, W)"]
  /\ from_clause (py "SELECT A FROM T, U WHERE X IN (SELECT 1 FROM V, W)")
     = py " T, U ".
Proof.
  split; [|vm_compute; reflexivity].
  rewrite (proj2 (proj2 cartesian_detector_reads_from_clause)
             (py "SELECT A FROM T, U WHERE X IN (SELECT 1 FROM V, W)") eq_refl).
  vm_compute. reflexivity.
Defined.

Lemma analyze_queries_spec (queries : list Query) :
  analyze_queries queries
  = Ok (n_plus_one_spec queries
        ++ map missing_where_issue (filter lacks_filter queries)
        ++ detect_select_star queries
        ++ duplicates_spec queries
        ++ map cartesian_join_issue (filter cartesian_flagged queries)).
Proof.
  unfold analyze_queries. rewrite detect_n_plus_one_spec. cbn [bind].
  unfold detect_cartesian_join. rewrite cartesian_join_loop_spec. cbn [bind app].
  unfold detect_missing_where. rewrite missing_where_loop. cbn [app].
  rewrite detect_duplicate_queries_spec.
  destruct (n_plus_one_spec queries); now rewrite <- !app_assoc.
Qed.

Lemma in_enumerate {A : Type} (l : list A) (i : nat) (x : A) :
  In (i, x) (enumerate l) -> In x l.
Proof. unfold enumerate. apply in_combine_r. Qed.

Lemma In_firstn {A : Type} (n : nat) (l : list A) (x : A) :
  In x (firstn n l) -> In x l.
Proof.
  intros H. rewrite <- (firstn_skipn n l). apply in_or_app. now left.
Qed.

Lemma firstn_bounds {A : Type} (l : list A) :
  3 <= length l -> length (firstn 3 l) = 3.
Proof. intros H. rewrite length_firstn. lia. Qed.

Lemma n_plus_one_well_formed (queries : list Query) :
  Forall (well_formed_issue queries) (n_plus_one_spec queries).
Proof.
  unfold n_plus_one_spec. apply Forall_forall. intros i Hi.
  apply in_map_iff in Hi. destruct Hi as (n & <- & Hn).
  apply filter_In in Hn. destruct Hn as [_ Hb].
  unfold is_burst in Hb. apply andb_true_iff in Hb. destruct Hb as [Hb _].
  apply Nat.leb_le in Hb.
  split; [reflexivity|]. cbn [QueryAnalyzer.queries n_plus_one_issue].
  rewrite length_map. rewrite (firstn_bounds _ Hb). split; [lia|].
  intros r Hr. apply in_map_iff in Hr. destruct Hr as ([j q] & <- & Hq).
  apply In_firstn in Hq. rename Hq into Hq'.
  unfold occurrences_of in Hq'. apply filter_In in Hq'. destruct Hq' as [Hq' _].
  apply in_enumerate in Hq'. cbn [snd]. now apply in_map.
Qed.

Lemma missing_where_well_formed (queries : list Query) :
  Forall (well_formed_issue queries)
         (map missing_where_issue (filter lacks_filter queries)).
Proof.
  apply Forall_forall. intros i Hi.
  apply in_map_iff in Hi. destruct Hi as (q & <- & Hq).
  apply filter_In in Hq. destruct Hq as [Hq _].
  split; [reflexivity|]. cbn [QueryAnalyzer.queries missing_where_issue length].
  split; [lia|]. intros r [<- | []]. now apply in_map.
Qed.

Lemma cartesian_well_formed (queries : list Query) :
  Forall (well_formed_issue queries)
         (map cartesian_join_issue (filter cartesian_flagged queries)).
Proof.
  apply Forall_forall. intros i Hi.
  apply in_map_iff in Hi. destruct Hi as (q & <- & Hq).
  apply filter_In in Hq. destruct Hq as [Hq _].
  split; [reflexivity|]. cbn [QueryAnalyzer.queries cartesian_join_issue length].
  split; [lia|]. intros r [<- | []]. now apply in_map.
Qed.

Lemma duplicates_well_formed (queries : list Query) :
  Forall (well_formed_issue queries) (duplicates_spec queries).
Proof.
  apply Forall_forall. intros i Hi. unfold duplicates_spec in Hi.
  apply in_map_iff in Hi. destruct Hi as (r & <- & Hr).
  apply filter_In in Hr. destruct Hr as [Hr _].
  apply (proj1 (In_distinct _ _)) in Hr.
  split; [reflexivity|]. cbn [QueryAnalyzer.queries duplicate_issue length].
  split; [lia|]. now intros x [<- | []].
Qed.

Lemma select_star_summary (queries : list Query) :
  detect_select_star queries
  = match select_star_hits queries with
    | [] => []
    | _ :: _ =>
        [mkIssue (py "LOW") (py "SELECT *")
           (py "Found " ++ str_of_nat (length (select_star_hits queries))
               ++ py " queries using SELECT *")
           (map raw (firstn 3 (select_star_hits queries)))
           (py "Select only needed columns to reduce data transfer and memory usage")]
    end.
Proof. reflexivity. Qed.

Lemma select_star_well_formed (queries : list Query) :
  Forall (well_formed_issue queries) (detect_select_star queries).
Proof.
  rewrite select_star_summary.
  destruct (select_star_hits queries) as [|q hits] eqn:E; [constructor|].
  constructor; [|constructor].
  split; [reflexivity|]. cbn [QueryAnalyzer.queries]. rewrite length_map.
  split.
  - rewrite length_firstn. cbn [length]. lia.
  - intros r Hr. apply in_map_iff in Hr. destruct Hr as (x & <- & Hx).
    apply In_firstn in Hx. rewrite <- E in Hx.
    unfold select_star_hits in Hx. apply filter_In in Hx.
    apply in_map. tauto.
Qed.

Lemma report_well_formed (queries : list Query) :
  Forall (well_formed_issue queries)
         (n_plus_one_spec queries
          ++ map missing_where_issue (filter lacks_filter queries)
          ++ detect_select_star queries
          ++ duplicates_spec queries
          ++ map cartesian_join_issue (filter cartesian_flagged queries)).
Proof.
  repeat (apply Forall_app; split);
    auto using n_plus_one_well_formed, missing_where_well_formed,
      select_star_well_formed, duplicates_well_formed, cartesian_well_formed.
Qed.

Lemma filter_true {A : Type} (l : list A) : filter (fun _ => true) l = l.
Proof. induction l as [|x l IH]; [reflexivity | cbn [filter]; now rewrite IH]. Qed.

(** X3.  [analyze_queries] never raises and returns the issues of the
    detectors in a fixed order, whatever their severity: the N+1 issues
    (none when the N+1 detector returns [None]), then the missing-WHERE,
    SELECT-star, duplicate and Cartesian-join issues.  Every issue has the
    severity of its category (N+1 and Cartesian join HIGH, missing WHERE
    and duplicate MEDIUM, SELECT star LOW) and cites at least one and at
    most three raw texts of the log. *)
Theorem analyze_queries_report :
  forall queries,
    analyze_queries queries
    = Ok (n_plus_one_spec queries
          ++ map missing_where_issue (filter lacks_filter queries)
          ++ detect_select_star queries
          ++ duplicates_spec queries
          ++ map cartesian_join_issue (filter cartesian_flagged queries))
    /\ Forall (well_formed_issue queries)
              (n_plus_one_spec queries
               ++ map missing_where_issue (filter lacks_filter queries)
               ++ detect_select_star queries
               ++ duplicates_spec queries
               ++ map cartesian_join_issue (filter cartesian_flagged queries)).
Proof.
  intros queries. split; [apply analyze_queries_spec | apply report_well_formed].
Qed.

Lemma at_least_spec (min_level : Z) (issues : list Issue) (queries : list Query) :
  Forall (well_formed_issue queries) issues ->
  at_least min_level issues
  = Ok (filter (fun i =>
                  match dict_getitem severity_order (severity i) with
                  | Ok level => (min_level <=? level)%Z
                  | Raise _ => false
                  end) issues).
Proof.
  induction 1 as [|i t Hi _ IH]; [reflexivity|].
  cbn [at_least filter]. rewrite IH.
  destruct Hi as [Hs _]. unfold severity_of_category in Hs.
  destruct (str_eqb (category i) (py "N+1 Query"));
    [injection Hs as <-; reflexivity|].
  destruct (str_eqb (category i) (py "Missing WHERE"));
    [injection Hs as <-; reflexivity|].
  destruct (str_eqb (category i) (py "SELECT *"));
    [injection Hs as <-; reflexivity|].
  destruct (str_eqb (category i) (py "Duplicate Query"));
    [injection Hs as <-; reflexivity|].
  destruct (str_eqb (category i) (py "Cartesian Join"));
    [injection Hs as <-; reflexivity | discriminate].
Qed.

Lemma severity_cases (queries : list Query) (i : Issue) :
  well_formed_issue queries i ->
  severity i = py "HIGH" \/ severity i = py "MEDIUM" \/ severity i = py "LOW".
Proof.
  intros [Hs _]. unfold severity_of_category in Hs.
  repeat match type of Hs with
         | (if ?b then _ else _) = _ =>
             destruct b; [injection Hs as <-; auto|]
         end.
  discriminate.
Qed.

Lemma filter_by_severity_spec (queries : list Query) (issues : list Issue)
  (min_severity : str) (min_level : Z) (keep : Issue -> bool) :
  Forall (well_formed_issue queries) issues ->
  dict_getitem severity_order min_severity = Ok min_level ->
  (forall s level,
      dict_getitem severity_order s = Ok level ->
      forall i, severity i = s -> keep i = (min_level <=? level)%Z) ->
  filter_by_severity min_severity issues = Ok (filter keep issues).
Proof.
  intros Hw Hm Hk. unfold filter_by_severity. rewrite Hm. cbn [bind].
  rewrite (at_least_spec min_level issues queries Hw). f_equal.
  apply filter_ext_in. intros i Hi.
  rewrite Forall_forall in Hw. specialize (Hw i Hi).
  destruct (severity_cases queries i Hw) as [E | [E | E]];
    rewrite E; symmetry; eapply Hk; try exact E; reflexivity.
Qed.

(** X5.  The severity filter of [main] never raises [KeyError] on the
    issues [analyze_queries] returns, and keeps their order: with the
    minimum LOW it keeps every issue, with MEDIUM it drops the LOW ones
    and with HIGH it keeps the HIGH ones only. *)
Theorem severity_filter_on_report :
  forall queries,
  exists issues,
    analyze_queries queries = Ok issues
    /\ filter_by_severity (py "LOW") issues = Ok issues
    /\ filter_by_severity (py "MEDIUM") issues
       = Ok (filter (fun i => negb (str_eqb (severity i) (py "LOW"))) issues)
    /\ filter_by_severity (py "HIGH") issues
       = Ok (filter (fun i => str_eqb (severity i) (py "HIGH")) issues).
Proof.
  intros queries.
  pose proof (report_well_formed queries) as Hw.
  eexists. split; [apply analyze_queries_spec|].
  split; [|split].
  - rewrite (filter_by_severity_spec queries _ (py "LOW") 0%Z (fun _ => true) Hw eq_refl).
    + now rewrite filter_true.
    + intros s level Hl i _. symmetry. apply Z.leb_le.
      unfold severity_order in Hl. cbn [dict_getitem] in Hl.
      repeat match type of Hl with
             | (if ?b then _ else _) = _ => destruct b; [injection Hl as <-; lia|]
             end.
      discriminate.
  - apply (filter_by_severity_spec queries _ (py "MEDIUM") 1%Z _ Hw eq_refl).
    intros s level Hl i <-. unfold severity_order in Hl. cbn [dict_getitem] in Hl.
    rewrite (str_eqb_sym (severity i) (py "LOW")).
    destruct (str_eqb (py "LOW") (severity i)); [now injection Hl as <-|].
    cbn [negb]. symmetry. apply Z.leb_le.
    repeat match type of Hl with
           | (if ?b then _ else _) = _ => destruct b; [injection Hl as <-; lia|]
           end.
    discriminate.
  - apply (filter_by_severity_spec queries _ (py "HIGH") 2%Z _ Hw eq_refl).
    intros s level Hl i <-. unfold severity_order in Hl. cbn [dict_getitem] in Hl.
    destruct (str_eqb (py "LOW") (severity i)) eqn:E1.
    { injection Hl as <-. apply str_eqb_eq in E1. now rewrite <- E1. }
    destruct (str_eqb (py "MEDIUM") (severity i)) eqn:E2.
    { injection Hl as <-. apply str_eqb_eq in E2. now rewrite <- E2. }
    rewrite (str_eqb_sym (severity i) (py "HIGH")).
    destruct (str_eqb (py "HIGH") (severity i)); [now injection Hl as <-|].
    discriminate.
Qed.

End DetectorClaims.

(* ================================================================== *)
(** ** What parse_query extracts *)
(* ================================================================== *)

Section CapturedGroups.
Import Captured.

Lemma reach_captured (n : nat) (r : regex) :
  forall st st', reach r st st' -> captured n st -> captured n st'.
Proof.
  induction r as [|p|a IHa b IHb|a IHa b IHb|a IHa|a IHa|k a IHa| |];
    intros st st' H Hc; cbn [reach] in H.
  - now subst.
  - destruct H as (c & t & _ & _ & ->). exact Hc.
  - destruct H as (mid & Ha & Hb). eauto.
  - destruct H as [H | H]; eauto.
  - induction H as [st|st mid st' H1 _ IH]; eauto.
  - induction H as [st|st mid st' H1 _ IH]; eauto.
  - destruct H as (st1 & Ha & ->). specialize (IHa _ _ Ha Hc).
    destruct IHa as [w Hw]. unfold captured. cbn [capture caps group].
    destruct (k =? n); eauto.
  - destruct H as [_ ->]. exact Hc.
  - destruct H as [_ ->]. exact Hc.
Qed.

Lemma reach_sets (n : nat) (r : regex) :
  sets n r -> forall st st', reach r st st' -> captured n st'.
Proof.
  induction r as [|p|a IHa b IHb|a IHa b IHb|a IHa|a IHa|k a IHa| |];
    intros S st st' H; cbn [reach sets] in *; try contradiction.
  - destruct H as (mid & Ha & Hb). destruct S as [S | S].
    + eapply reach_captured; eauto.
    + eauto.
  - destruct S as [Sa Sb]. destruct H as [H | H]; eauto.
  - destruct H as (st1 & Ha & ->). destruct S as [-> | S].
    + unfold captured. cbn [capture caps group]. rewrite Nat.eqb_refl. eauto.
    + specialize (IHa S _ _ Ha). destruct IHa as [w Hw].
      unfold captured. cbn [capture caps group]. destruct (k =? n); eauto.
Qed.

Lemma forallb_firstn {A : Type} (P : A -> bool) (k : nat) (l : list A) :
  forallb P l = true -> forallb P (firstn k l) = true.
Proof.
  revert k. induction l as [|x l IH]; intros k H; [now destruct k|].
  destruct k as [|k]; [reflexivity|]. cbn [forallb firstn] in *.
  apply andb_true_iff in H. destruct H as [Hx Hl]. now rewrite Hx, IH.
Qed.

Lemma reach_within (P : ascii -> bool) (r : regex) :
  forall st st', reach r st st' -> within P st -> within P st'.
Proof.
  induction r as [|p|a IHa b IHb|a IHa b IHb|a IHa|a IHa|k a IHa| |];
    intros st st' H Hw; cbn [reach] in H.
  - now subst.
  - destruct H as (c & t & E & _ & ->). destruct Hw as [Hr Hc].
    split; [|exact Hc]. cbn [advance rest]. rewrite E in Hr.
    cbn [forallb] in Hr. apply andb_true_iff in Hr. tauto.
  - destruct H as (mid & Ha & Hb). eauto.
  - destruct H as [H | H]; eauto.
  - induction H as [st|st mid st' H1 _ IH]; eauto.
  - induction H as [st|st mid st' H1 _ IH]; eauto.
  - destruct H as (st1 & Ha & ->). destruct (IHa _ _ Ha Hw) as [Hr Hc].
    split; [exact Hr|]. cbn [capture caps]. constructor; [|exact Hc].
    cbn [snd]. apply forallb_firstn. apply Hw.
  - destruct H as [_ ->]. exact Hw.
  - destruct H as [_ ->]. exact Hw.
Qed.

(** What a run of characters of a class passes over. *)
Lemma iter_class (p : ascii -> bool) (a b : mstate) :
  iter (reach (Chr p)) a b ->
  pos a <= pos b /\ forallb p (firstn (pos b - pos a) (rest a)) = true.
Proof.
  induction 1 as [st|st mid st' H1 _ IH].
  - split; [lia|]. now rewrite Nat.sub_diag.
  - destruct H1 as (c & t & E & Hc & ->). cbn [advance pos rest] in IH.
    destruct IH as [Hle Hf]. split; [lia|]. rewrite E.
    replace (pos st' - pos st) with (S (pos st' - S (pos st))) by lia.
    cbn [firstn forallb]. now rewrite Hc.
Qed.

Lemma reach_plus_class (p : ascii -> bool) (st st1 : mstate) :
  reach (Plus (Chr p)) st st1 ->
  firstn (pos st1 - pos st) (rest st) <> []
  /\ forallb p (firstn (pos st1 - pos st) (rest st)) = true.
Proof.
  intros (mid & (c & t & E & Hc & ->) & Hr). apply iter_class in Hr.
  cbn [advance pos rest] in Hr. destruct Hr as [Hle Hf]. rewrite E.
  replace (pos st1 - pos st) with (S (pos st1 - S (pos st))) by lia.
  cbn [firstn forallb]. rewrite Hc, Hf. split; [discriminate | reflexivity].
Qed.

(** The texts [re.findall] returns for a pattern with a group come from
    matches of the pattern in the text. *)
Lemma findall_from_matches (r : regex) (g : nat) (P : ascii -> bool) (s : str) :
  forallb P s = true ->
  forall p pv skip x,
    In x (findall_from r (Some g) p pv s skip) ->
    exists p' pv' s' st,
      forallb P s' = true
      /\ match_at r p' pv' s' = Some st
      /\ x = match group g (caps st) with Some w => w | None => [] end.
Proof.
  induction s as [|c t IH]; intros HP p pv skip x Hx; [contradiction|].
  pose proof HP as HP'. cbn [forallb] in HP'. apply andb_true_iff in HP'.
  destruct HP' as [_ Ht].
  cbn [findall_from] in Hx. destruct skip as [|k]; [|eauto].
  destruct (match_at r p pv (c :: t)) as [st|] eqn:E; [|eauto].
  destruct Hx as [<- | Hx]; [|eauto].
  exists p, pv, (c :: t), st. auto.
Qed.

End CapturedGroups.

Section ParseQuery.
Import QueryAnalyzer Captured AsciiText.

Lemma not_lower_upper_char (c : ascii) :
  negb (is_lower_char (upper_char c)) = true.
Proof. destruct c as [[] [] [] [] [] [] [] []]; reflexivity. Qed.

Lemma not_lower_upper (s : str) :
  forallb (fun c => negb (is_lower_char c)) (upper s) = true.
Proof.
  induction s as [|c t IH]; [reflexivity|]. cbn [upper map forallb].
  rewrite not_lower_upper_char. exact IH.
Qed.

Lemma table_pattern_sets : sets 1 table_pattern.
Proof. unfold table_pattern. cbn. tauto. Qed.

Lemma table_pattern_words :
  grp_inv (fun w => w <> [] /\ forallb is_word w = true) table_pattern.
Proof.
  unfold table_pattern, py. cbn -[reach].
  repeat match goal with
         | |- _ /\ _ => split
         | |- True => exact I
         end.
  intros st st1 H. now apply reach_plus_class in H.
Qed.

Lemma table_match (p : nat) (pv : option ascii) (s : str) (st : mstate) :
  forallb (fun c => negb (is_lower_char c)) s = true ->
  match_at table_pattern p pv s = Some st ->
  exists w, group 1 (caps st) = Some w /\ table_name w.
Proof.
  intros Hs H. apply match_at_sound in H.
  destruct (reach_sets 1 table_pattern table_pattern_sets _ _ H) as [w Hw].
  exists w. split; [exact Hw|]. apply group_In in Hw.
  pose proof (@reach_caps _ _ table_pattern_words _ _ H (Forall_nil _)) as Hq.
  rewrite Forall_forall in Hq. specialize (Hq _ Hw). cbn [snd] in Hq.
  destruct (reach_within (fun c => negb (is_lower_char c)) table_pattern _ _ H)
    as [_ Hc]; [split; [exact Hs | constructor]|].
  rewrite Forall_forall in Hc. specialize (Hc _ Hw). cbn [snd] in Hc.
  unfold table_name. tauto.
Qed.

(** X6.  The tables of a parsed query, for a query of ASCII text: no name
    occurs twice, and every name is a non-empty run of word characters
    (letters, digits and the underscore) without lower-case letters,
    whatever the query says. *)
Theorem parse_query_tables :
  forall sql,
    ascii_text sql ->
    NoDup (tables (parse_query sql))
    /\ Forall table_name (tables (parse_query sql)).
Proof.
  intros sql _. cbn [parse_query tables]. unfold list_set. split.
  - apply NoDup_nodup.
  - apply Forall_forall. intros t Ht. apply nodup_In in Ht.
    unfold re_findall in Ht.
    destruct (findall_from_matches table_pattern 1
                (fun c => negb (is_lower_char c)) (upper sql)
                (not_lower_upper sql) _ _ _ _ Ht)
      as (p' & pv' & s' & st & Hs' & Hm & ->).
    destruct (table_match p' pv' s' st Hs' Hm) as (w & -> & Hw). exact Hw.
Qed.

Lemma parse_query_tables_witness :
  NoDup (tables (parse_query
                   (py "select * from users u join orders o on u.id = o.user_id")))
  /\ Forall table_name
       (tables (parse_query
                  (py "select * from users u join orders o on u.id = o.user_id"))).
Proof.
  apply (parse_query_tables
           (py "select * from users u join orders o on u.id = o.user_id")).
  reflexivity.
Defined.

End ParseQuery.

Section QueryType.
Import QueryAnalyzer Spec DetectorSpec Captured AsciiText.

Lemma lstrip_blanks (ws x : str) :
  forallb is_space ws = true -> lstrip (ws ++ x) = lstrip x.
Proof.
  induction ws as [|c ws IH]; intros H; [reflexivity|].
  cbn [forallb] in H. apply andb_true_iff in H. destruct H as [Hc Hw].
  cbn [app lstrip]. rewrite Hc. now apply IH.
Qed.

Lemma lstrip_decomp (x : str) :
  exists ws, x = ws ++ lstrip x /\ forallb is_space ws = true.
Proof.
  induction x as [|c t IH]; [now exists []|]. cbn [lstrip].
  destruct (is_space c) eqn:E; [|now exists []].
  destruct IH as (ws & Hx & Hw). exists (c :: ws). cbn [app forallb].
  rewrite E, Hw. split; [now f_equal | reflexivity].
Qed.

Lemma rstrip_decomp (y : str) :
  exists ws, y = rstrip y ++ ws /\ forallb is_space ws = true.
Proof.
  unfold rstrip. destruct (lstrip_decomp (rev y)) as (ws & Hy & Hw).
  exists (rev ws). split.
  - rewrite <- rev_app_distr, <- Hy. now rewrite rev_involutive.
  - rewrite forallb_forall in *. intros c Hc. apply Hw. now apply in_rev.
Qed.

(** A keyword without blanks starts a text if and only if it starts the
    text without its trailing blanks. *)
Lemma startswith_app_blanks (kw a ws : str) :
  forallb (fun c => negb (is_space c)) kw = true ->
  forallb is_space ws = true ->
  startswith kw (a ++ ws) = startswith kw a.
Proof.
  intros Hk Hw. revert a. induction kw as [|k kw IH]; intros a; [now destruct a|].
  cbn [forallb] in Hk. apply andb_true_iff in Hk. destruct Hk as [Hk1 Hk2].
  destruct a as [|c a]; cbn [app startswith].
  - destruct ws as [|d ws]; [reflexivity|]. cbn [startswith].
    cbn [forallb] in Hw. apply andb_true_iff in Hw. destruct Hw as [Hd _].
    destruct (Ascii.eqb_spec k d) as [-> | _]; [|reflexivity].
    rewrite Hd in Hk1. discriminate.
  - now rewrite IH.
Qed.

Lemma startswith_strip (kw x : str) :
  forallb (fun c => negb (is_space c)) kw = true ->
  startswith kw (strip x) = startswith kw (lstrip x).
Proof.
  intros Hk. unfold strip.
  destruct (rstrip_decomp (lstrip x)) as (ws & E & Hw).
  rewrite E at 2. symmetry. now apply startswith_app_blanks.
Qed.

Lemma query_type_classify (sql : str) :
  query_type (parse_query sql) = classify (lstrip (upper sql)).
Proof.
  cbn [parse_query query_type]. unfold classify.
  now rewrite !startswith_strip by reflexivity.
Qed.

Lemma upper_lower_char (c : ascii) : upper_char (lower_char c) = upper_char c.
Proof. destruct c as [[] [] [] [] [] [] [] []]; reflexivity. Qed.

Lemma upper_lower (s : str) : upper (lower s) = upper s.
Proof.
  unfold upper, lower. rewrite map_map. apply map_ext. apply upper_lower_char.
Qed.

Lemma is_space_upper (ws : str) :
  forallb is_space (upper ws) = forallb is_space ws.
Proof.
  induction ws as [|c ws IH]; [reflexivity|]. cbn [upper map forallb].
  rewrite is_space_upper_char. f_equal. exact IH.
Qed.

Lemma same_upper_same_shape (a b : str) :
  upper a = upper b -> same_shape (parse_query a) (parse_query b).
Proof.
  intros E. unfold same_shape, parse_query.
  cbn [query_type tables has_where has_limit has_join selects_all].
  rewrite E. repeat split.
Qed.

(** X7.  For a query of ASCII text, the type of the parsed query is read
    off the keyword the text starts with, after the leading blanks and in
    any case: SELECT, INSERT, UPDATE or DELETE, and OTHER for every other
    text.  The type, the tables and the four flags are read from the
    upper-cased text: they do not change when the text is upper-cased or
    lower-cased, and the type does not change when blanks are put in front
    of the text. *)
Theorem query_type_first_keyword :
  (forall sql,
      ascii_text sql ->
      query_type (parse_query sql) = classify (lstrip (upper sql)))
  /\ (forall sql,
         ascii_text sql ->
         same_shape (parse_query (upper sql)) (parse_query sql)
         /\ same_shape (parse_query (lower sql)) (parse_query sql))
  /\ (forall ws sql,
         ascii_text sql ->
         forallb is_space ws = true ->
         query_type (parse_query (ws ++ sql)) = query_type (parse_query sql)).
Proof.
  split; [intros sql _; apply query_type_classify|]. split.
  - intros sql _. split; apply same_upper_same_shape;
      [apply upper_idem|apply upper_lower].
  - intros ws sql _ H. rewrite !query_type_classify, upper_app.
    rewrite lstrip_blanks; [reflexivity|]. now rewrite is_space_upper.
Qed.

Lemma query_type_first_keyword_witness :
  query_type (parse_query (py "   select * from users"))
  = query_type (parse_query (py "select * from users")).
Proof.
  apply (proj2 (proj2 query_type_first_keyword) (py "   ") (py "select * from users")).
  - reflexivity.
  - reflexivity.
Defined.

Lemma missing_where_cites (queries : list Query) :
  Forall (cites_selects queries) (detect_missing_where queries).
Proof.
  unfold detect_missing_where. rewrite missing_where_loop. cbn [app].
  apply Forall_forall. intros i Hi.
  apply in_map_iff in Hi. destruct Hi as (q & <- & Hq).
  apply filter_In in Hq. destruct Hq as [Hq Hl].
  unfold lacks_filter in Hl. rewrite !andb_true_iff in Hl.
  destruct Hl as [[Ht _] _]. apply str_eqb_eq in Ht.
  intros r [<- | []]. now exists q.
Qed.

Lemma select_star_cites (queries : list Query) :
  Forall (cites_selects queries) (detect_select_star queries).
Proof.
  rewrite select_star_summary.
  destruct (select_star_hits queries) as [|q0 hits] eqn:E; [constructor|].
  constructor; [|constructor]. intros r Hr. cbn [QueryAnalyzer.queries] in Hr.
  apply in_map_iff in Hr. destruct Hr as (q & <- & Hq).
  apply In_firstn in Hq. rewrite <- E in Hq. unfold select_star_hits in Hq.
  apply filter_In in Hq. destruct Hq as [Hq Hl].
  apply andb_true_iff in Hl. destruct Hl as [_ Ht]. apply str_eqb_eq in Ht.
  now exists q.
Qed.

Lemma cartesian_cites (queries : list Query) :
  Forall (cites_selects queries)
         (map cartesian_join_issue (filter cartesian_flagged queries)).
Proof.
  apply Forall_forall. intros i Hi.
  apply in_map_iff in Hi. destruct Hi as (q & <- & Hq).
  apply filter_In in Hq. destruct Hq as [Hq Hl].
  unfold cartesian_flagged in Hl. rewrite !andb_true_iff in Hl.
  destruct Hl as [[[[Ht _] _] _] _]. apply str_eqb_eq in Ht.
  intros r [<- | []]. now exists q.
Qed.

(** X8.  The missing-WHERE, SELECT-star and Cartesian-join detectors
    report SELECT queries only: every raw text they cite is the text of a
    query of the log whose type is SELECT.  A query of another type, such
    as one that starts with WITH or that still carries a log prefix, is
    never reported by them. *)
Theorem select_detectors_cite_selects :
  (forall queries,
      exists cartesian,
        detect_cartesian_join queries = Ok cartesian
        /\ Forall (cites_selects queries)
                  (detect_missing_where queries ++ detect_select_star queries
                   ++ cartesian))
  /\ (forall q,
         query_type q <> py "SELECT" ->
         detect_missing_where [q] = [] /\ detect_select_star [q] = []
         /\ detect_cartesian_join [q] = Ok []).
Proof.
  split.
  - intros queries. eexists. split.
    + unfold detect_cartesian_join. apply cartesian_join_loop_spec.
    + cbn [app]. repeat (apply Forall_app; split);
        auto using missing_where_cites, select_star_cites, cartesian_cites.
  - intros q Hq. apply str_eqb_neq in Hq.
    unfold detect_missing_where, detect_select_star, detect_cartesian_join.
    cbn [fold_left filter cartesian_join_loop]. rewrite Hq.
    cbn [andb]. now rewrite andb_false_r.
Qed.

Lemma select_detectors_cite_selects_witness :
  let q := parse_query (py "WITH t AS (SELECT * FROM a, b) SELECT * FROM t") in
  query_type q = py "OTHER"
  /\ detect_missing_where [q] = [] /\ detect_select_star [q] = []
  /\ detect_cartesian_join [q] = Ok [].
Proof.
  split; [vm_compute; reflexivity|].
  apply (proj2 select_detectors_cite_selects).
  vm_compute. discriminate.
Defined.

End QueryType.

Section LogPrefix.
Import QueryAnalyzer AsciiText.

Lemma startswith_app (p x : str) : startswith p (p ++ x) = true.
Proof.
  induction p as [|c p IH]; [reflexivity|]. cbn [app startswith].
  now rewrite Ascii.eqb_refl.
Qed.

Lemma skipn_prefix {A : Type} (p x : list A) : skipn (length p) (p ++ x) = x.
Proof. induction p; [reflexivity | assumption]. Qed.

Lemma run_blanks (ws x : str) :
  forallb is_space ws = true -> head_is is_space x = false ->
  run is_space (ws ++ x) = length ws.
Proof.
  intros Hw Hx. rewrite run_app_all by exact Hw.
  destruct x as [|c t]; cbn [run head_is] in *; [lia|]. rewrite Hx. lia.
Qed.

Lemma exec_len_none (sql : str) :
  startswith (py "Executing (") sql = false -> exec_len sql = None.
Proof. intros H. unfold exec_len, then_sc, sc_str. now rewrite H. Qed.

Lemma query_len_none (sql : str) :
  startswith (py "Query:") sql = false -> query_len sql = None.
Proof. intros H. unfold query_len, then_sc, sc_str. now rewrite H. Qed.

Lemma exec_len_prefix (name ws sql : str) :
  name <> [] -> forallb not_paren name = true ->
  forallb is_space ws = true -> head_is is_space sql = false ->
  exec_len (py "Executing (" ++ name ++ py "):" ++ ws ++ sql)
  = Some (length (py "Executing (" ++ name ++ py "):" ++ ws)).
Proof.
  intros Hne Hn Hw Hs. unfold exec_len, then_sc, sc_str, sc_plus, sc_run.
  rewrite startswith_app, skipn_prefix.
  assert (Hr : run not_paren (name ++ py "):" ++ ws ++ sql) = length name).
  { rewrite run_app_all by exact Hn.
    change (py "):" ++ ws ++ sql) with (")"%char :: ":"%char :: ws ++ sql).
    cbn. lia. }
  rewrite Hr.
  assert (Hl : (length name =? 0) = false).
  { apply Nat.eqb_neq. destruct name; [congruence | cbn; lia]. }
  rewrite Hl, skipn_prefix, startswith_app, skipn_prefix.
  rewrite (run_blanks ws sql Hw Hs). f_equal.
  rewrite !length_app. lia.
Qed.

Lemma query_len_prefix (ws sql : str) :
  forallb is_space ws = true -> head_is is_space sql = false ->
  query_len (py "Query:" ++ ws ++ sql) = Some (length (py "Query:" ++ ws)).
Proof.
  intros Hw Hs. unfold query_len, then_sc, sc_str, sc_run.
  rewrite startswith_app, skipn_prefix, (run_blanks ws sql Hw Hs).
  now rewrite length_app.
Qed.

(** X9.  The normalizer strips a log prefix whole, on ASCII text: a
    statement that does not start with a blank or with a prefix of its own
    has the same normal form with and without [Executing (name):] in front
    of it, for every non-empty name without a closing parenthesis and any
    blanks after the colon; likewise with [Query:] in front of it.  So a
    log line and the bare statement fall into the same group. *)
Theorem normalize_strips_log_prefix :
  (forall name ws sql,
      ascii_text name -> ascii_text sql ->
      name <> [] -> forallb not_paren name = true ->
      forallb is_space ws = true -> head_is is_space sql = false ->
      startswith (py "Executing (") sql = false ->
      normalize_query (py "Executing (" ++ name ++ py "):" ++ ws ++ sql)
      = normalize_query sql)
  /\ (forall ws sql,
         ascii_text sql ->
         forallb is_space ws = true -> head_is is_space sql = false ->
         startswith (py "Executing (") sql = false ->
         startswith (py "Query:") sql = false ->
         normalize_query (py "Query:" ++ ws ++ sql) = normalize_query sql).
Proof.
  split.
  - intros name ws sql _ _ Hne Hn Hw Hs He. unfold normalize_query. cbv zeta.
    rewrite !re_sub_executing.
    rewrite (exec_len_prefix name ws sql Hne Hn Hw Hs), (exec_len_none sql He).
    replace (py "Executing (" ++ name ++ py "):" ++ ws ++ sql)
      with ((py "Executing (" ++ name ++ py "):" ++ ws) ++ sql)
      by now rewrite <- !app_assoc.
    now rewrite skipn_prefix.
  - intros ws sql _ Hw Hs He Hq. unfold normalize_query. cbv zeta.
    rewrite !re_sub_executing, (exec_len_none sql He).
    rewrite (exec_len_none (py "Query:" ++ ws ++ sql)) by reflexivity.
    rewrite !re_sub_query.
    rewrite (query_len_prefix ws sql Hw Hs), (query_len_none sql Hq).
    replace (py "Query:" ++ ws ++ sql) with ((py "Query:" ++ ws) ++ sql)
      by now rewrite <- !app_assoc.
    now rewrite skipn_prefix.
Qed.

Lemma normalize_strips_log_prefix_witness :
  normalize_query (py "Executing (default): SELECT * FROM users WHERE id = 7")
  = normalize_query (py "SELECT * FROM users WHERE id = 7")
  /\ normalize_query (py "Query:  SELECT * FROM users WHERE id = 7")
     = normalize_query (py "SELECT * FROM users WHERE id = 7").
Proof.
  split.
  - apply (proj1 normalize_strips_log_prefix (py "default") (py " ")
             (py "SELECT * FROM users WHERE id = 7"));
      [reflexivity | reflexivity | discriminate | reflexivity | reflexivity
      | reflexivity | reflexivity].
  - apply (proj2 normalize_strips_log_prefix (py "  ")
             (py "SELECT * FROM users WHERE id = 7")); reflexivity.
Defined.

End LogPrefix.

(* ================================================================== *)
(** ** The plan parsers, line by line *)
(* ================================================================== *)

Section SplitLines.

Lemma split_go_char (c : ascii) (a b : str) :
  split_go [c] (a ++ c :: b) 0
  = (fst (split_go [c] a 0),
     snd (split_go [c] a 0) ++ split [c] b).
Proof.
  induction a as [|x a IH].
  - cbn [app split_go startswith]. rewrite Ascii.eqb_refl. cbn [andb length Nat.sub].
    unfold split. now destruct (split_go [c] b 0).
  - cbn [app split_go startswith length Nat.sub]. rewrite !andb_true_r.
    destruct (Ascii.eqb c x).
    + rewrite IH. now destruct (split_go [c] a 0).
    + rewrite IH. now destruct (split_go [c] a 0).
Qed.

(** Cutting at a character: the pieces of [a ++ c :: b] are the pieces of
    [a] and the pieces of [b]. *)
Lemma split_char_app (c : ascii) (a b : str) :
  split [c] (a ++ c :: b) = split [c] a ++ split [c] b.
Proof.
  unfold split at 1 2. rewrite split_go_char.
  now destruct (split_go [c] a 0).
Qed.

End SplitLines.

Section LineByLine.
Import ExplainParser PlanSpec PlanResults.

Lemma after_acc_assoc (a b : plan) (r : res plan) :
  after_acc a (after_acc b r)
  = after_acc (fst a ++ fst b, snd a ++ snd b) r.
Proof.
  destruct r as [[n i]|e]; [|reflexivity]. cbn [after_acc fst snd].
  now rewrite !app_assoc.
Qed.

Lemma after_acc_nil (r : res plan) : after_acc ([], []) r = r.
Proof. now destruct r as [[n i]|e]. Qed.

Lemma postgres_lines_acc (lines : list str) :
  forall nodes issues,
    postgres_lines lines nodes issues
    = after_acc (nodes, issues) (postgres_lines lines [] []).
Proof.
  induction lines as [|line t IH]; intros nodes issues.
  - cbn. now rewrite !app_nil_r.
  - cbn [postgres_lines]. destruct (postgres_line line) as [[found iss]|e];
      [|reflexivity].
    cbn [bind fst snd]. rewrite IH. symmetry. rewrite IH.
    rewrite after_acc_assoc. cbn [fst snd app].
    destruct found; cbn [app]; now rewrite ?app_nil_r.
Qed.

Lemma postgres_lines_app (a b : list str) :
  postgres_lines (a ++ b) [] []
  = both (postgres_lines a [] []) (postgres_lines b [] []).
Proof.
  assert (H : forall nodes issues,
             postgres_lines (a ++ b) nodes issues
             = both (postgres_lines a nodes issues) (postgres_lines b [] [])).
  { induction a as [|line a IH]; intros nodes issues.
    - cbn [app postgres_lines both]. apply postgres_lines_acc.
    - cbn [app postgres_lines].
      destruct (postgres_line line) as [[found iss]|e]; [|reflexivity].
      cbn [bind]. apply IH. }
  apply H.
Qed.

Lemma mysql_lines_acc (lines : list str) :
  forall nodes issues,
    mysql_lines lines nodes issues
    = after_acc (nodes, issues) (mysql_lines lines [] []).
Proof.
  induction lines as [|line t IH]; intros nodes issues.
  - cbn. now rewrite !app_nil_r.
  - cbn [mysql_lines]. destruct (mysql_line line) as [[found iss]|e];
      [|reflexivity].
    cbn [bind fst snd]. rewrite IH. symmetry. rewrite IH.
    rewrite after_acc_assoc. cbn [fst snd app].
    destruct found; cbn [app]; now rewrite ?app_nil_r.
Qed.

Lemma mysql_lines_app (a b : list str) :
  mysql_lines (a ++ b) [] []
  = both (mysql_lines a [] []) (mysql_lines b [] []).
Proof.
  assert (H : forall nodes issues,
             mysql_lines (a ++ b) nodes issues
             = both (mysql_lines a nodes issues) (mysql_lines b [] [])).
  { induction a as [|line a IH]; intros nodes issues.
    - cbn [app mysql_lines both]. apply mysql_lines_acc.
    - cbn [app mysql_lines].
      destruct (mysql_line line) as [[found iss]|e]; [|reflexivity].
      cbn [bind]. apply IH. }
  apply H.
Qed.

End LineByLine.

Section StripFacts.

Lemma lstrip_head (x : str) : head_is is_space (lstrip x) = false.
Proof.
  induction x as [|c t IH]; [reflexivity|]. cbn [lstrip].
  destruct (is_space c) eqn:E; [exact IH | exact E].
Qed.

Lemma lstrip_fixed (x : str) : head_is is_space x = false -> lstrip x = x.
Proof. destruct x as [|c t]; [reflexivity|]. cbn. now intros ->. Qed.

Lemma rstrip_fixed (x : str) : head_is is_space (rev x) = false -> rstrip x = x.
Proof. intros H. unfold rstrip. rewrite lstrip_fixed by exact H. apply rev_involutive. Qed.

Lemma rstrip_last (x : str) : head_is is_space (rev (rstrip x)) = false.
Proof. unfold rstrip. rewrite rev_involutive. apply lstrip_head. Qed.

Lemma rstrip_head (x : str) :
  head_is is_space x = false -> head_is is_space (rstrip x) = false.
Proof.
  intros H. destruct (rstrip_decomp x) as (ws & E & _).
  destruct (rstrip x) as [|c t]; [reflexivity|].
  rewrite E in H. exact H.
Qed.

(** A text without blanks at its ends. *)
Lemma strip_ends (x : str) :
  head_is is_space (strip x) = false
  /\ head_is is_space (rev (strip x)) = false.
Proof.
  unfold strip. split; [apply rstrip_head, lstrip_head | apply rstrip_last].
Qed.

Lemma strip_fixed (x : str) :
  head_is is_space x = false -> head_is is_space (rev x) = false ->
  strip x = x.
Proof.
  intros H1 H2. unfold strip. rewrite lstrip_fixed by exact H1.
  now apply rstrip_fixed.
Qed.

Lemma strip_idem (x : str) : strip (strip x) = strip x.
Proof. destruct (strip_ends x). now apply strip_fixed. Qed.

Lemma head_is_app_l (p : ascii -> bool) (a b : str) :
  a <> [] -> head_is p (a ++ b) = head_is p a.
Proof. destruct a; [congruence | reflexivity]. Qed.

(** Two trimmed texts, one on the line after the other, make a trimmed
    text. *)
Lemma strip_two (t1 t2 sep : str) :
  t1 <> [] -> t2 <> [] -> strip t1 = t1 -> strip t2 = t2 ->
  strip (t1 ++ sep ++ t2) = t1 ++ sep ++ t2.
Proof.
  intros N1 N2 E1 E2.
  destruct (strip_ends t1) as [H1 _]. destruct (strip_ends t2) as [_ H2].
  rewrite E1 in H1. rewrite E2 in H2.
  apply strip_fixed.
  - now rewrite head_is_app_l.
  - rewrite !rev_app_distr, <- app_assoc. rewrite head_is_app_l; [exact H2|].
    intros E. apply N2. apply (f_equal (@rev _)) in E.
    now rewrite rev_involutive in E.
Qed.

End StripFacts.

Section PlansCompose.
Import ExplainParser PlanSpec PlanResults AsciiText.

(** X10.  The text parsers work line by line: the nodes and issues of a
    list of lines are those of its first part followed by those of its
    second part, and the first exception raised by a line is the one of
    the whole.  So for two plans of ASCII text without blanks at their
    ends, written one after the other, both the PostgreSQL and the MySQL
    tabular parser return the nodes and the issues of the first followed by
    those of the second. *)
Theorem plan_parsers_compose :
  (forall a b,
      postgres_lines (a ++ b) [] []
      = both (postgres_lines a [] []) (postgres_lines b [] [])
      /\ mysql_lines (a ++ b) [] []
         = both (mysql_lines a [] []) (mysql_lines b [] []))
  /\ (forall t1 t2,
         ascii_text t1 -> ascii_text t2 ->
         t1 <> [] -> t2 <> [] -> strip t1 = t1 -> strip t2 = t2 ->
         parse_postgres_explain (t1 ++ newline ++ t2)
         = both (parse_postgres_explain t1) (parse_postgres_explain t2)
         /\ parse_mysql_tabular (t1 ++ newline ++ t2)
            = both (parse_mysql_tabular t1) (parse_mysql_tabular t2)).
Proof.
  split.
  - intros a b. split; [apply postgres_lines_app | apply mysql_lines_app].
  - intros t1 t2 _ _ N1 N2 E1 E2.
    unfold parse_postgres_explain, parse_mysql_tabular.
    rewrite (strip_two t1 t2 newline N1 N2 E1 E2), E1, E2.
    unfold newline. cbn [app]. rewrite split_char_app.
    split; [apply postgres_lines_app | apply mysql_lines_app].
Qed.

Lemma plan_parsers_compose_witness :
  parse_postgres_explain
    (py "Seq Scan on users  (cost=0.00..431.00 rows=10000 width=244)"
        ++ newline
        ++ py "Index Scan using orders_pkey on orders  (cost=0.29..8.31 rows=100 width=36)")
  = both (parse_postgres_explain
            (py "Seq Scan on users  (cost=0.00..431.00 rows=10000 width=244)"))
         (parse_postgres_explain
            (py "Index Scan using orders_pkey on orders  (cost=0.29..8.31 rows=100 width=36)")).
Proof.
  apply (proj2 plan_parsers_compose);
    [reflexivity | reflexivity | discriminate | discriminate | |];
    vm_compute; reflexivity.
Defined.

End PlansCompose.

(* ================================================================== *)
(** ** The exceptions of the PostgreSQL parser *)
(* ================================================================== *)

Section GroupFacts.
Import Captured PlanResults.

Lemma reach_unmentioned (n : nat) (r : regex) :
  mentions n r = false ->
  forall st st', reach r st st' -> group n (caps st') = group n (caps st).
Proof.
  induction r as [|p|a IHa b IHb|a IHa b IHb|a IHa|a IHa|k a IHa| |];
    intros M st st' H; cbn [reach mentions] in *.
  - now subst.
  - destruct H as (c & t & _ & _ & ->). reflexivity.
  - apply orb_false_iff in M. destruct M as [Ma Mb].
    destruct H as (mid & Ha & Hb).
    rewrite (IHb Mb _ _ Hb). now apply IHa.
  - apply orb_false_iff in M. destruct M as [Ma Mb].
    destruct H as [H | H]; auto.
  - induction H as [st|st mid st' H1 _ IH]; [reflexivity|].
    rewrite IH. now apply IHa.
  - induction H as [st|st mid st' H1 _ IH]; [reflexivity|].
    rewrite IH. now apply IHa.
  - apply orb_false_iff in M. destruct M as [Mk Ma].
    destruct H as (st1 & Ha & ->). cbn [capture caps group]. rewrite Mk.
    now apply IHa.
  - destruct H as [_ ->]. reflexivity.
  - destruct H as [_ ->]. reflexivity.
Qed.

Lemma reach_grp_at (n : nat) (Q : str -> Prop) (r : regex) :
  grp_at n Q r ->
  forall st st',
    reach r st st' ->
    (forall w, group n (caps st) = Some w -> Q w) ->
    forall w, group n (caps st') = Some w -> Q w.
Proof.
  induction r as [|p|a IHa b IHb|a IHa b IHb|a IHa|a IHa|k a IHa| |];
    intros G st st' H Hc; cbn [reach grp_at] in *.
  - now subst.
  - destruct H as (c & t & _ & _ & ->). exact Hc.
  - destruct G as [Ga Gb]. destruct H as (mid & Ha & Hb). eauto.
  - destruct G as [Ga Gb]. destruct H as [H | H]; eauto.
  - induction H as [st|st mid st' H1 _ IH]; eauto.
  - induction H as [st|st mid st' H1 _ IH]; eauto.
  - destruct G as [Gq Ga]. destruct H as (st1 & Ha & ->).
    cbn [capture caps group]. destruct (k =? n) eqn:E.
    + apply Nat.eqb_eq in E. intros w Hw. injection Hw as <-. now apply Gq.
    + eauto.
  - destruct H as [_ ->]. exact Hc.
  - destruct H as [_ ->]. exact Hc.
Qed.

(** The last element of a sequence of patterns. *)
Lemma reach_seqs_last (l : list regex) (z : regex) :
  forall st st',
    reach (Seqs (l ++ [z])) st st' ->
    exists mid, reach (Seqs l) st mid /\ reach z mid st'.
Proof.
  induction l as [|a l IH]; intros st st' H.
  - exists st. split; [reflexivity | exact H].
  - destruct l as [|b l].
    + cbn [app Seqs reach] in *. exact H.
    + change (Seqs ((a :: b :: l) ++ [z])) with (Seq a (Seqs ((b :: l) ++ [z]))) in H.
      destruct H as (m1 & Ha & Hr). destruct (IH _ _ Hr) as (mid & Hl & Hz).
      exists mid. split; [|exact Hz]. exists m1. now split.
Qed.

Lemma digits_isdigit (w : str) :
  w <> [] -> forallb is_digit w = true -> isdigit w = true.
Proof. destruct w; [congruence | now intros _ H]. Qed.

End GroupFacts.

Section PostgresErrors.
Import ExplainParser PlanSpec PlanResults Captured.

Lemma node_pattern_parts : node_pattern = Seqs (plan_part ++ [Opt actual_part]).
Proof. reflexivity. Qed.

Lemma digit_groups (n : nat) :
  grp_at n (fun w => isdigit w = true) node_pattern
  \/ n <> 5 /\ n <> 6 /\ n <> 9 /\ n <> 10.
Proof.
  destruct (Nat.eq_dec n 5) as [-> | N5]; [left|].
  2: destruct (Nat.eq_dec n 6) as [-> | N6]; [left|].
  3: destruct (Nat.eq_dec n 9) as [-> | N9]; [left|].
  4: destruct (Nat.eq_dec n 10) as [-> | N10]; [left | right; tauto].
  all: unfold node_pattern, py; cbn -[reach];
    repeat match goal with
           | |- _ /\ _ => split
           | |- True => exact I
           | |- _ = _ -> _ => intros E; try discriminate E
           end;
    intros st st1 H; apply reach_plus_class in H;
    now apply digits_isdigit.
Qed.

Lemma int_group_error (n : nat) (st : mstate) (e : pyexc) :
  captured n st -> int_group n st = Raise e -> e = ValueError.
Proof.
  intros [w Hw]. unfold int_group. rewrite Hw. apply py_int_error.
Qed.

Lemma plan_groups (line : str) (st : mstate) :
  re_match node_pattern line = Some st ->
  captured 3 st /\ captured 4 st /\ captured 5 st.
Proof.
  intros H. apply match_at_sound in H.
  repeat split; (eapply reach_sets; [|exact H]);
    unfold node_pattern; cbn; tauto.
Qed.

Lemma actual_groups (line : str) (st : mstate) (w : str) :
  re_match node_pattern line = Some st ->
  group 7 (caps st) = Some w ->
  captured 8 st /\ captured 9 st /\ captured 10 st.
Proof.
  intros H Hw. apply match_at_sound in H. rewrite node_pattern_parts in H.
  apply reach_seqs_last in H. destruct H as (mid & Hp & Ha).
  assert (H7 : group 7 (caps mid) = None).
  { rewrite (reach_unmentioned 7 (Seqs plan_part) eq_refl _ _ Hp). reflexivity. }
  destruct Ha as [Ha | Ha]; [|cbn [reach] in Ha; subst; congruence].
  repeat split; (eapply reach_sets; [|exact Ha]); unfold actual_part; cbn; tauto.
Qed.

Lemma py_float_error (s : str) (e : pyexc) :
  py_float s = Raise e -> e = ValueError.
Proof.
  unfold py_float, py_float_unsigned. destruct (cut_sign s) as [sign d].
  destruct (cut_point d) as [ip [fp|]].
  - destruct (forallb is_digit ip && forallb is_digit fp
              && negb ((length ip =? 0) && (length fp =? 0)));
      cbn [bind]; congruence.
  - destruct (isdigit ip); cbn [bind]; congruence.
Qed.

Lemma float_group_error (n : nat) (st : mstate) (e : pyexc) :
  captured n st -> float_group n st = Raise e -> e = ValueError.
Proof.
  intros [w Hw]. unfold float_group. rewrite Hw. apply py_float_error.
Qed.

Lemma true_div_error (a b : Z) (e : pyexc) :
  (0 < b)%Z -> true_div a b = Raise e -> e = OverflowError.
Proof.
  intros Hb. unfold true_div. destruct b as [|b|b]; try lia.
  destruct a as [|a|a]; [discriminate| |].
  all: destruct (SFdiv_core_binary prec emax _ 0 _ 0) as [[mz ez] lz];
    destruct (binary_round_aux prec emax _ mz ez lz); congruence.
Qed.

Lemma ratio_issues_error (kind : str) (estimated : Z) (actual : option Z)
  (e : pyexc) :
  ratio_issues kind estimated actual = Raise e -> e = OverflowError.
Proof.
  unfold ratio_issues. destruct actual as [a|]; [|discriminate].
  destruct (0 <? estimated)%Z eqn:E; [|discriminate].
  apply Z.ltb_lt in E. destruct (true_div a estimated) as [q|e'] eqn:Ed.
  - cbn [bind]. destruct (float_gt q float_10 || float_lt q float_0_1); discriminate.
  - cbn [bind]. intros H. injection H as <-. now apply (true_div_error a estimated).
Qed.

Lemma node_of_match_error (line : str) (st : mstate) (e : pyexc) :
  re_match node_pattern line = Some st ->
  node_of_match line st = Raise e -> number_error e.
Proof.
  intros Hm. destruct (plan_groups line st Hm) as (C3 & C4 & C5).
  unfold node_of_match.
  destruct (float_group 3 st) as [c3|e3] eqn:E3;
    [|intros H; injection H as <-; left; now apply (float_group_error 3 st)].
  cbn [bind].
  destruct (float_group 4 st) as [c4|e4] eqn:E4;
    [|intros H; injection H as <-; left; now apply (float_group_error 4 st)].
  cbn [bind].
  destruct (int_group 5 st) as [z5|e5] eqn:E5;
    [|intros H; injection H as <-; left; now apply (int_group_error 5 st)].
  cbn [bind].
  destruct (group 7 (caps st)) as [[|c7 w7]|] eqn:E7.
  - cbn [bind]. destruct (ratio_issues _ z5 None) eqn:Er; [discriminate|].
    intros H. injection H as <-. right. now apply ratio_issues_error in Er.
  - destruct (actual_groups line st _ Hm E7) as (C8 & C9 & C10).
    destruct (float_group 8 st) as [c8|e8] eqn:E8;
      [|intros H; injection H as <-; left; now apply (float_group_error 8 st)].
    cbn [bind].
    destruct (int_group 9 st) as [z9|e9] eqn:E9;
      [|intros H; injection H as <-; left; now apply (int_group_error 9 st)].
    cbn [bind].
    destruct (int_group 10 st) as [z10|e10] eqn:E10;
      [|intros H; injection H as <-; left; now apply (int_group_error 10 st)].
    cbn [bind].
    destruct (ratio_issues _ z5 (Some z9)) eqn:Er; [discriminate|].
    intros H. injection H as <-. right. now apply ratio_issues_error in Er.
  - cbn [bind]. destruct (ratio_issues _ z5 None) eqn:Er; [discriminate|].
    intros H. injection H as <-. right. now apply ratio_issues_error in Er.
Qed.

Lemma search_from_match (r : regex) (s : str) :
  forall p pv p' st,
    search_from r p pv s = Some (p', st) ->
    exists pv' s', match_at r p' pv' s' = Some st.
Proof.
  induction s as [|c t IH]; intros p pv p' st H; cbn [search_from] in H.
  - destruct (match_at r p pv []) eqn:E; [|discriminate].
    injection H as <- <-. eauto.
  - destruct (match_at r p pv (c :: t)) eqn:E; [injection H as <- <-; eauto|].
    eauto.
Qed.

Lemma line_warnings_error (line : str) (e : pyexc) :
  line_warnings line = Raise e -> e = ValueError.
Proof.
  unfold line_warnings.
  destruct (contains (py "Buffers: shared read") line); [|discriminate].
  destruct (re_search re_shared_read line) as [[p st]|] eqn:E; [|discriminate].
  unfold re_search in E. apply search_from_match in E.
  destruct E as (pv' & s' & E). apply match_at_sound in E.
  destruct (reach_sets 1 re_shared_read ltac:(cbn; tauto) _ _ E) as [w Hw].
  unfold int_group. rewrite Hw.
  destruct (py_int w) as [pages|e'] eqn:Ei; cbn [bind].
  - destruct (10000 <? pages)%Z; discriminate.
  - intros H. injection H as <-. now apply py_int_error in Ei.
Qed.

Lemma postgres_line_error (line : str) (e : pyexc) :
  postgres_line line = Raise e -> number_error e.
Proof.
  unfold postgres_line. destruct (is_footer line); [discriminate|].
  destruct (re_match node_pattern line) as [st|] eqn:Em.
  - destruct (node_of_match line st) as [ni|e'] eqn:En; cbn [bind].
    + destruct (line_warnings line) as [w|e'] eqn:Ew; cbn [bind];
        [discriminate|].
      intros H. injection H as <-. left. now apply line_warnings_error in Ew.
    + intros H. injection H as <-. now apply (node_of_match_error line st).
  - cbn [bind]. destruct (line_warnings line) as [w|e'] eqn:Ew; cbn [bind];
      [discriminate|].
    intros H. injection H as <-. left. now apply line_warnings_error in Ew.
Qed.

Lemma postgres_lines_error (lines : list str) (e : pyexc) :
  forall nodes issues,
    postgres_lines lines nodes issues = Raise e -> number_error e.
Proof.
  induction lines as [|line t IH]; intros nodes issues; [discriminate|].
  cbn [postgres_lines]. destruct (postgres_line line) as [r|e'] eqn:E.
  - cbn [bind]. apply IH.
  - cbn [bind]. intros H. injection H as <-. now apply (postgres_line_error line).
Qed.

(** X11.  The only exceptions the PostgreSQL text parser raises are
    [ValueError], for a cost or a time that is no number (it has two
    points, or points only), and [OverflowError], for a row ratio beyond
    the range of a float; a line that matches always has the groups the
    parser reads, so [int] and [float] never see [None], and the ratio is
    never taken with a zero estimate.  Both exceptions happen. *)
Theorem postgres_parser_exceptions :
  (forall text e,
      parse_postgres_explain text = Raise e ->
      e = ValueError \/ e = OverflowError)
  /\ parse_postgres_explain
       (py "Seq Scan on t  (cost=0.00..4.3.1 rows=10 width=4)")
     = Raise ValueError
  /\ parse_postgres_explain
       (py "Seq Scan on t  (cost=0.00..4.31 rows=1 width=4) (actual time=0.01..0.02 rows=1"
           ++ repeat "0"%char 400 ++ py " loops=1)")
     = Raise OverflowError.
Proof.
  split; [|split].
  - intros text e H. now apply postgres_lines_error in H.
  - vm_compute. reflexivity.
  - vm_compute. reflexivity.
Qed.

Lemma postgres_parser_exceptions_witness :
  ValueError = ValueError \/ ValueError = OverflowError.
Proof.
  apply (proj1 postgres_parser_exceptions
           (py "Seq Scan on t  (cost=0.00..4.3.1 rows=10 width=4)")).
  vm_compute. reflexivity.
Defined.

End PostgresErrors.

(* ================================================================== *)
(** ** The MySQL JSON parser *)
(* ================================================================== *)

Section JsonBlocks.
Import ExplainParser PlanSpec PlanResults.

Variable json_dumps : pyval -> str.
Variable py_str : pyval -> str.

Lemma process_block_step (depth : nat) (block : pyval) (acc : plan) :
  process_block json_dumps py_str (S depth) block acc
  = do has_table <- py_in (py "table") block;
    do acc <-
      (if has_table then
         do ni <- table_node json_dumps py_str block;
         Ok (fst acc ++ [fst ni], snd acc ++ snd ni)
       else Ok acc);
    process_keys (process_block json_dumps py_str depth) block nesting_keys acc.
Proof. reflexivity. Qed.

Section BlockLoops.
Variable pb : pyval -> plan -> res plan.

Hypothesis pb_acc : forall b acc, pb b acc = after_acc acc (pb b ([], [])).

Lemma process_items_acc (items : list pyval) :
  forall acc,
    process_items pb items acc = after_acc acc (process_items pb items ([], [])).
Proof.
  induction items as [|item rest IH]; intros acc.
  - cbn. now rewrite !app_nil_r, <- surjective_pairing.
  - cbn [process_items]. destruct (is_dict item); [|apply IH].
    rewrite (pb_acc item acc). destruct (pb item ([], [])) as [[n i]|e];
      [|reflexivity].
    cbn [after_acc bind]. rewrite IH. symmetry. rewrite IH.
    now rewrite after_acc_assoc.
Qed.

Lemma process_keys_acc (block : pyval) (ks : list str) :
  forall acc,
    process_keys pb block ks acc
    = after_acc acc (process_keys pb block ks ([], [])).
Proof.
  induction ks as [|key ks IH]; intros acc.
  - cbn. now rewrite !app_nil_r, <- surjective_pairing.
  - cbn [process_keys]. destruct (py_in key block) as [[|]|e]; cbn [bind];
      [|apply IH|reflexivity].
    destruct (getitem block key) as [v|e]; cbn [bind]; [|reflexivity].
    rewrite process_items_acc.
    destruct (process_items pb _ ([], [])) as [[n i]|e]; [|reflexivity].
    cbn [after_acc bind]. rewrite IH. symmetry. rewrite IH.
    now rewrite after_acc_assoc.
Qed.

End BlockLoops.

Lemma process_block_acc (depth : nat) :
  forall block acc,
    process_block json_dumps py_str depth block acc = after_acc acc (process_block json_dumps py_str depth block ([], [])).
Proof.
  induction depth as [|depth IH]; intros block acc; [reflexivity|].
  rewrite !process_block_step.
  destruct (py_in (py "table") block) as [[|]|e]; cbn [bind];
    [| |reflexivity].
  - destruct (table_node json_dumps py_str block) as [[n i]|e]; cbn [bind];
      [|reflexivity].
    cbn [fst snd app]. rewrite (process_keys_acc _ IH).
    symmetry. rewrite (process_keys_acc _ IH).
    rewrite after_acc_assoc. reflexivity.
  - rewrite (process_keys_acc _ IH). symmetry.
    rewrite (process_keys_acc _ IH). now rewrite after_acc_nil.
Qed.

(** The items of a nesting key, one after the other. *)
Lemma process_items_cons (depth : nat) (item : pyval) (rest : list pyval) :
  process_items (process_block json_dumps py_str depth) (item :: rest) ([], [])
  = both (if is_dict item then process_block json_dumps py_str depth item ([], []) else Ok ([], []))
         (process_items (process_block json_dumps py_str depth) rest ([], [])).
Proof.
  cbn [process_items]. destruct (is_dict item).
  - destruct (process_block json_dumps py_str depth item ([], [])) as [acc|e]; [|reflexivity].
    cbn [bind both]. apply process_items_acc. apply process_block_acc.
  - cbn [both]. now rewrite after_acc_nil.
Qed.

Lemma process_items_app (depth : nat) (a b : list pyval) :
  process_items (process_block json_dumps py_str depth) (a ++ b) ([], [])
  = both (process_items (process_block json_dumps py_str depth) a ([], []))
         (process_items (process_block json_dumps py_str depth) b ([], [])).
Proof.
  assert (H : forall acc,
             process_items (process_block json_dumps py_str depth) (a ++ b) acc
             = both (process_items (process_block json_dumps py_str depth) a acc)
                    (process_items (process_block json_dumps py_str depth) b ([], []))).
  { induction a as [|item a IH]; intros acc.
    - cbn [app process_items both]. apply process_items_acc.
      apply process_block_acc.
    - cbn [app process_items]. destruct (is_dict item); [|apply IH].
      destruct (process_block json_dumps py_str depth item acc) as [acc'|e]; [|reflexivity].
      cbn [bind]. apply IH. }
  apply H.
Qed.

Lemma bind_ok_id {A : Type} (x : res A) : bind x Ok = x.
Proof. now destruct x. Qed.

(** A block that holds a nested loop only. *)
Lemma process_nested_loop (depth : nat) (items : list pyval) :
  process_block json_dumps py_str (S depth) (PDict [(py "nested_loop", PList items)]) ([], [])
  = process_items (process_block json_dumps py_str depth) items ([], []).
Proof.
  rewrite process_block_step.
  change (py_in (py "table") (PDict [(py "nested_loop", PList items)]))
    with (Ok false : res bool).
  cbn [bind]. unfold nesting_keys. cbn [process_keys].
  change (py_in (py "nested_loop") (PDict [(py "nested_loop", PList items)]))
    with (Ok true : res bool).
  change (getitem (PDict [(py "nested_loop", PList items)]) (py "nested_loop"))
    with (Ok (PList items)).
  change (py_in (py "query_block") (PDict [(py "nested_loop", PList items)]))
    with (Ok false : res bool).
  change (py_in (py "ordering_operation") (PDict [(py "nested_loop", PList items)]))
    with (Ok false : res bool).
  change (py_in (py "grouping_operation") (PDict [(py "nested_loop", PList items)]))
    with (Ok false : res bool).
  cbn [bind]. apply bind_ok_id.
Qed.

(** *** The keys a block is read through *)

Lemma lookup_read_keys (k : str) (d : list (str * pyval)) :
  is_block_key k = true -> lookup k (read_keys d) = lookup k d.
Proof.
  intros Hk. induction d as [|[k' v] t IH]; [reflexivity|].
  unfold read_keys in *. cbn [filter fst lookup].
  destruct (is_block_key k') eqn:E.
  - cbn [lookup]. now rewrite IH.
  - destruct (str_eqb k' k) eqn:Ek; [|exact IH].
    apply str_eqb_eq in Ek. subst k'. congruence.
Qed.

Lemma py_in_read_keys (k : str) (d : list (str * pyval)) :
  is_block_key k = true -> py_in k (PDict (read_keys d)) = py_in k (PDict d).
Proof. intros H. cbn [py_in]. now rewrite lookup_read_keys. Qed.

Lemma getitem_read_keys (k : str) (d : list (str * pyval)) :
  is_block_key k = true ->
  getitem (PDict (read_keys d)) k = getitem (PDict d) k.
Proof. intros H. cbn [getitem]. now rewrite lookup_read_keys. Qed.

Lemma process_keys_read_keys (pb : pyval -> plan -> res plan)
  (d : list (str * pyval)) (ks : list str) :
  forallb is_block_key ks = true ->
  forall acc,
    process_keys pb (PDict (read_keys d)) ks acc
    = process_keys pb (PDict d) ks acc.
Proof.
  induction ks as [|k ks IH]; intros H acc; [reflexivity|].
  cbn [forallb] in H. apply andb_true_iff in H. destruct H as [Hk Hks].
  cbn [process_keys].
  rewrite (py_in_read_keys k d Hk), (getitem_read_keys k d Hk).
  destruct (py_in k (PDict d)) as [[|]|e]; cbn [bind]; auto.
  destruct (getitem (PDict d) k) as [v|e]; cbn [bind]; [|reflexivity].
  destruct (process_items pb _ acc) as [acc'|e]; cbn [bind]; auto.
Qed.

Lemma process_block_read_keys (depth : nat) (d : list (str * pyval)) (acc : plan) :
  process_block json_dumps py_str depth (PDict (read_keys d)) acc = process_block json_dumps py_str depth (PDict d) acc.
Proof.
  destruct depth as [|depth]; [reflexivity|]. rewrite !process_block_step.
  rewrite (py_in_read_keys (py "table") d eq_refl).
  unfold table_node. rewrite (getitem_read_keys (py "table") d eq_refl).
  destruct (py_in (py "table") (PDict d)) as [[|]|e]; cbn [bind];
    [| |reflexivity].
  - destruct (getitem (PDict d) (py "table")) as [table|e]; cbn [bind];
      [|reflexivity].
    match goal with
    | |- bind ?x _ = bind ?x _ => destruct x as [a|e]; cbn [bind]; [|reflexivity]
    end.
    now apply process_keys_read_keys.
  - now apply process_keys_read_keys.
Qed.

(** *** The exceptions of the JSON parser *)

Lemma py_in_error (k : str) (v : pyval) (e : pyexc) :
  py_in k v = Raise e -> e = TypeError.
Proof. destruct v; cbn [py_in]; congruence. Qed.

Lemma getitem_guarded (k : str) (v : pyval) (e : pyexc) :
  py_in k v = Ok true -> getitem v k = Raise e -> e = TypeError.
Proof.
  destruct v; cbn [py_in getitem]; try congruence.
  intros H. injection H as H. destruct (lookup k d); [discriminate|].
  discriminate H.
Qed.

Lemma py_get_error (v : pyval) (k : str) (default : pyval) (e : pyexc) :
  py_get v k default = Raise e -> e = AttributeError.
Proof. destruct v; cbn [py_get]; congruence. Qed.

Lemma table_node_error (block : pyval) (e : pyexc) :
  py_in (py "table") block = Ok true ->
  table_node json_dumps py_str block = Raise e -> shape_error e.
Proof.
  intros Hin. unfold table_node.
  destruct (getitem block (py "table")) as [table|e0] eqn:Eg.
  2:{ cbn [bind]. intros H. injection H as <-. left.
      now apply (getitem_guarded (py "table") block). }
  cbn [bind].
  repeat match goal with
         | |- bind (py_get ?a ?b ?c) _ = Raise e -> _ =>
             let E := fresh "E" in
             destruct (py_get a b c) eqn:E; cbn [bind];
             [|intros H; injection H as <-; right; left;
               now apply py_get_error in E]
         end.
  discriminate.
Qed.

Section BlockErrors.
Variable pb : pyval -> plan -> res plan.
Hypothesis pb_error : forall b acc e, pb b acc = Raise e -> shape_error e.

Lemma process_items_error (items : list pyval) :
  forall acc e, process_items pb items acc = Raise e -> shape_error e.
Proof.
  induction items as [|item rest IH]; intros acc e; [discriminate|].
  cbn [process_items]. destruct (is_dict item); [|apply IH].
  destruct (pb item acc) as [acc'|e'] eqn:E; cbn [bind]; [apply IH|].
  intros H. injection H as <-. eauto.
Qed.

Lemma process_keys_error (block : pyval) (ks : list str) :
  forall acc e, process_keys pb block ks acc = Raise e -> shape_error e.
Proof.
  induction ks as [|k ks IH]; intros acc e; [discriminate|].
  cbn [process_keys]. destruct (py_in k block) as [[|]|e'] eqn:Ei; cbn [bind].
  - destruct (getitem block k) as [v|e'] eqn:Eg; cbn [bind].
    + destruct (process_items pb _ acc) as [acc'|e'] eqn:Ep; cbn [bind];
        [apply IH|].
      intros H. injection H as <-. now apply process_items_error in Ep.
    + intros H. injection H as <-. left. now apply (getitem_guarded k block).
  - apply IH.
  - intros H. injection H as <-. left. now apply py_in_error in Ei.
Qed.

End BlockErrors.

Lemma process_block_error (depth : nat) :
  forall block acc e, process_block json_dumps py_str depth block acc = Raise e -> shape_error e.
Proof.
  induction depth as [|depth IH]; intros block acc e.
  - cbn. intros H. injection H as <-. right. now right.
  - rewrite process_block_step.
    destruct (py_in (py "table") block) as [[|]|e'] eqn:Ei; cbn [bind].
    + destruct (table_node json_dumps py_str block) as [ni|e'] eqn:Et;
        cbn [bind].
      * now apply process_keys_error.
      * intros H. injection H as <-. now apply table_node_error in Et.
    + now apply process_keys_error.
    + intros H. injection H as <-. left. now apply py_in_error in Ei.
Qed.

End JsonBlocks.

Section JsonClaims.
Import ExplainParser PlanSpec PlanResults.

(** X12.  [process_block] only adds to what has been collected: called
    with nodes and issues already found, it returns them unchanged and in
    front of the nodes and issues of the block, and it raises exactly when
    it raises on the block alone.  So the items of a nested loop are read
    in order: the result for a loop over [a ++ b] is the result for [a]
    followed by the result for [b]. *)
Theorem json_blocks_compose :
  forall json_dumps py_str depth,
    (forall block acc,
        process_block json_dumps py_str depth block acc
        = after_acc acc (process_block json_dumps py_str depth block ([], [])))
    /\ (forall a b,
           process_block json_dumps py_str (S depth)
             (PDict [(py "nested_loop", PList (a ++ b))]) ([], [])
           = both (process_block json_dumps py_str (S depth)
                     (PDict [(py "nested_loop", PList a)]) ([], []))
                  (process_block json_dumps py_str (S depth)
                     (PDict [(py "nested_loop", PList b)]) ([], []))).
Proof.
  intros json_dumps py_str depth. split.
  - apply process_block_acc.
  - intros a b. rewrite !process_nested_loop. apply process_items_app.
Qed.

(** X13.  [process_block] reads a block through five keys only: [table]
    and the nesting keys [nested_loop], [query_block],
    [ordering_operation] and [grouping_operation].  Dropping every other
    key of the block changes neither the result nor the exception; what a
    plan holds under another key is not visited. *)
Theorem json_blocks_read_five_keys :
  forall json_dumps py_str depth d acc,
    process_block json_dumps py_str depth (PDict d) acc
    = process_block json_dumps py_str depth (PDict (read_keys d)) acc.
Proof.
  intros. symmetry. apply process_block_read_keys.
Qed.

(** X14.  The MySQL JSON parser never raises [KeyError]: every subscript
    is guarded by a membership test.  It raises [AttributeError] when a
    [table] or a [cost_info] is no object (or the document is none),
    [TypeError] when a block is a number, a boolean or null or a list or
    text is subscripted by a key, and [RecursionError] when the blocks are
    nested deeper than Python allows. *)
Theorem json_parser_exceptions :
  (forall json_dumps py_str depth data e,
      parse_mysql_explain_json json_dumps py_str depth data = Raise e ->
      e = TypeError \/ e = AttributeError \/ e = RecursionError)
  /\ (forall json_dumps py_str depth,
         parse_mysql_explain_json json_dumps py_str (S depth)
           (PDict [(py "query_block", PDict [(py "table", PStr (py "users"))])])
         = Raise AttributeError
         /\ parse_mysql_explain_json json_dumps py_str (S depth)
              (PDict [(py "query_block", PInt 5)])
            = Raise TypeError
         /\ parse_mysql_explain_json json_dumps py_str (S depth)
              (PList [PStr (py "query_block")])
            = Raise AttributeError).
Proof.
  split.
  - intros json_dumps py_str depth data e. unfold parse_mysql_explain_json.
    destruct (py_get data (py "query_block") data) as [block|e'] eqn:E;
      cbn [bind].
    + apply process_block_error.
    + intros H. injection H as <-. right. left. now apply py_get_error in E.
  - intros json_dumps py_str depth. repeat split.
Qed.

Lemma json_parser_exceptions_witness :
  AttributeError = TypeError \/ AttributeError = AttributeError
  \/ AttributeError = RecursionError.
Proof.
  apply (proj1 json_parser_exceptions (fun _ => []) (fun _ => []) 3
           (PDict [(py "query_block", PDict [(py "table", PStr (py "users"))])])).
  reflexivity.
Defined.

Lemma parse_mysql_tabular_error (text : str) (e : pyexc) :
  parse_mysql_tabular text = Raise e -> e = ValueError.
Proof.
  unfold parse_mysql_tabular. intros H.
  now apply mysql_lines_error in H as [-> _].
Qed.

(** X15.  [parse_mysql_explain] by what [json.loads] does with the text.
    When it returns an object with the key [query_block], the JSON parser
    runs; when it returns an object without the key, a list that does not
    hold the text [query_block] or a text that does not contain it, and
    when it raises [JSONDecodeError], the tabular parser runs; a number, a
    boolean and null raise [TypeError] at the membership test, and a list
    that holds the text [query_block], or a text that contains it, raises
    [AttributeError], since only [JSONDecodeError] is caught.  The
    exceptions of the parsers are [TypeError], [AttributeError],
    [RecursionError] and, from [int] on a rows cell of more digits than
    it reads, [ValueError]; never [KeyError]. *)
Theorem mysql_explain_dispatch :
  (forall json_dumps py_str json_loads depth text data,
      json_loads text = Some data ->
      parse_mysql_explain json_dumps py_str json_loads depth text
      = match data with
        | PDict d =>
            if is_some (lookup (py "query_block") d)
            then parse_mysql_explain_json json_dumps py_str depth (PDict d)
            else parse_mysql_tabular text
        | PList l =>
            if existsb (is_pystr (py "query_block")) l
            then Raise AttributeError
            else parse_mysql_tabular text
        | PStr s =>
            if contains (py "query_block") s
            then Raise AttributeError
            else parse_mysql_tabular text
        | _ => Raise TypeError
        end)
  /\ (forall json_dumps py_str json_loads depth text,
         json_loads text = None ->
         parse_mysql_explain json_dumps py_str json_loads depth text
         = parse_mysql_tabular text)
  /\ (forall json_dumps py_str json_loads depth text e,
         parse_mysql_explain json_dumps py_str json_loads depth text = Raise e ->
         e = TypeError \/ e = AttributeError \/ e = RecursionError
         \/ e = ValueError).
Proof.
  split; [|split].
  - intros json_dumps py_str json_loads depth text data E.
    unfold parse_mysql_explain. rewrite E.
    destruct data as [| | | | | |]; reflexivity.
  - intros json_dumps py_str json_loads depth text E.
    unfold parse_mysql_explain. now rewrite E.
  - intros json_dumps py_str json_loads depth text e.
    assert (T : parse_mysql_tabular text = Raise e ->
                e = TypeError \/ e = AttributeError \/ e = RecursionError
                \/ e = ValueError)
      by (intros H; apply parse_mysql_tabular_error in H; auto).
    unfold parse_mysql_explain.
    destruct (json_loads text) as [[| | | | | |]|]; cbn [py_in bind];
      try exact T; try (intros H; injection H as <-; auto).
    + destruct (contains (py "query_block") s); [|exact T].
      intros H. injection H as <-. auto.
    + destruct (existsb (is_pystr (py "query_block")) l); [|exact T].
      intros H. injection H as <-. auto.
    + destruct (is_some (lookup (py "query_block") d)); [|exact T].
      unfold parse_mysql_explain_json.
      destruct (py_get (PDict d) (py "query_block") (PDict d)) as [block|e'] eqn:E;
        cbn [bind].
      * intros H. apply process_block_error in H.
        destruct H as [H|[H|H]]; auto.
      * intros H. injection H as <-. right. left. now apply py_get_error in E.
Qed.

Lemma mysql_explain_dispatch_witness :
  parse_mysql_explain (fun _ => []) (fun _ => [])
    (fun _ => Some (PInt 42)) 3 (py "42")
  = Raise TypeError.
Proof.
  apply (proj1 mysql_explain_dispatch (fun _ => []) (fun _ => [])
           (fun _ => Some (PInt 42)) 3 (py "42") (PInt 42)).
  reflexivity.
Defined.

End JsonClaims.

(* ================================================================== *)
(** ** The order of the issues in the plan report *)
(* ================================================================== *)

Section ReportOrder.
Import ExplainParser PlanResults QueryMain PlanReport.

Ltac known :=
  first [ left; reflexivity
        | right; left; reflexivity
        | right; right; reflexivity ].

Ltac knowns :=
  repeat first [ apply Forall_nil | apply Forall_cons; [known|] ].

Lemma insert_keyed_front (kx : Z * ExplainIssue) (l : list (Z * ExplainIssue)) :
  Forall (fun ky => (fst kx <= fst ky)%Z) l ->
  insert_keyed kx l = kx :: l.
Proof.
  destruct l as [|ky t]; [reflexivity|]. intros F. inversion_clear F as [|? ? H _].
  cbn [insert_keyed]. apply Z.leb_le in H. now rewrite H.
Qed.

Lemma insert_keyed_skip (kx : Z * ExplainIssue) (a b : list (Z * ExplainIssue)) :
  Forall (fun ky => (fst ky < fst kx)%Z) a ->
  insert_keyed kx (a ++ b) = a ++ insert_keyed kx b.
Proof.
  induction a as [|ky a IH]; [reflexivity|]. intros F.
  inversion_clear F as [|? ? H F']. cbn [app insert_keyed].
  apply Z.leb_gt in H. rewrite H. now rewrite IH.
Qed.

Lemma keys_below (k : Z) (kx : Z * ExplainIssue) (l : list ExplainIssue) :
  (k < fst kx)%Z ->
  Forall (fun ky : Z * ExplainIssue => (fst ky < fst kx)%Z) (map (pair k) l).
Proof. intros H. induction l; cbn; constructor; auto. Qed.

Lemma keys_above (k : Z) (kx : Z * ExplainIssue) (l : list ExplainIssue) :
  (fst kx <= k)%Z ->
  Forall (fun ky : Z * ExplainIssue => (fst kx <= fst ky)%Z) (map (pair k) l).
Proof. intros H. induction l; cbn; constructor; auto. Qed.

Lemma keyed_known (issues : list ExplainIssue) :
  Forall known_severity issues ->
  exists ks,
    keyed issues = Ok ks
    /\ fold_right insert_keyed [] ks
       = map (pair 0%Z) (with_severity (py "HIGH") issues)
         ++ map (pair 1%Z) (with_severity (py "MEDIUM") issues)
         ++ map (pair 2%Z) (with_severity (py "LOW") issues).
Proof.
  induction 1 as [|x t K _ (ks & E & S)]; [exists []; now split|].
  cbn [keyed]. rewrite E. unfold severity_key, with_severity. cbn [filter].
  fold (with_severity (py "HIGH") t) (with_severity (py "MEDIUM") t)
       (with_severity (py "LOW") t).
  destruct K as [K|[K|K]]; rewrite K;
    change (dict_getitem report_order _) with (@Ok Z 0%Z) ||
    change (dict_getitem report_order _) with (@Ok Z 1%Z) ||
    change (dict_getitem report_order _) with (@Ok Z 2%Z);
    cbn [bind]; eexists; (split; [reflexivity|]);
    cbn [fold_right]; rewrite S.
  - change (str_eqb (py "HIGH") (py "HIGH")) with true.
    change (str_eqb (py "HIGH") (py "MEDIUM")) with false.
    change (str_eqb (py "HIGH") (py "LOW")) with false.
    cbn [map app]. apply insert_keyed_front.
    rewrite !Forall_app. repeat split; apply keys_above; cbn; lia.
  - change (str_eqb (py "MEDIUM") (py "HIGH")) with false.
    change (str_eqb (py "MEDIUM") (py "MEDIUM")) with true.
    change (str_eqb (py "MEDIUM") (py "LOW")) with false.
    cbn [map app]. rewrite insert_keyed_skip by (apply keys_below; cbn; lia).
    f_equal. apply insert_keyed_front.
    rewrite !Forall_app. repeat split; apply keys_above; cbn; lia.
  - change (str_eqb (py "LOW") (py "HIGH")) with false.
    change (str_eqb (py "LOW") (py "MEDIUM")) with false.
    change (str_eqb (py "LOW") (py "LOW")) with true.
    cbn [map app]. rewrite insert_keyed_skip by (apply keys_below; cbn; lia).
    f_equal. rewrite insert_keyed_skip by (apply keys_below; cbn; lia).
    f_equal. apply insert_keyed_front. apply keys_above; cbn; lia.
Qed.

Lemma map_snd_pair (k : Z) (l : list ExplainIssue) :
  map snd (map (pair k) l) = l.
Proof. induction l; cbn; congruence. Qed.

Lemma sorted_known (issues : list ExplainIssue) :
  Forall known_severity issues ->
  sorted_issues issues
  = Ok (with_severity (py "HIGH") issues ++ with_severity (py "MEDIUM") issues
        ++ with_severity (py "LOW") issues).
Proof.
  intros F. destruct (keyed_known issues F) as (ks & E & S).
  unfold sorted_issues. rewrite E. cbn [bind]. rewrite S.
  now rewrite !map_app, !map_snd_pair.
Qed.

Lemma severity_key_known (x : ExplainIssue) (k : Z) :
  severity_key x = Ok k -> known_severity x.
Proof.
  unfold severity_key, report_order, known_severity. cbn [dict_getitem].
  destruct (str_eqb (py "HIGH") (severity x)) eqn:E1;
    [apply str_eqb_eq in E1; auto|].
  destruct (str_eqb (py "MEDIUM") (severity x)) eqn:E2;
    [apply str_eqb_eq in E2; auto|].
  destruct (str_eqb (py "LOW") (severity x)) eqn:E3;
    [apply str_eqb_eq in E3; auto|].
  discriminate.
Qed.

Lemma severity_key_error (x : ExplainIssue) (e : pyexc) :
  severity_key x = Raise e -> e = KeyError.
Proof.
  unfold severity_key, report_order. cbn [dict_getitem].
  repeat match goal with |- context [if ?b then _ else _] => destruct b end;
    try discriminate.
  now intros H; injection H as <-.
Qed.

Lemma keyed_ok (issues : list ExplainIssue) (ks : list (Z * ExplainIssue)) :
  keyed issues = Ok ks -> Forall known_severity issues.
Proof.
  revert ks. induction issues as [|x t IH]; intros ks; [constructor|].
  cbn [keyed]. destruct (severity_key x) as [k|e] eqn:E; cbn [bind];
    [|discriminate].
  destruct (keyed t) as [r|e]; cbn [bind]; [|discriminate].
  intros _. constructor; [now apply severity_key_known in E|now apply (IH r)].
Qed.

Lemma keyed_error (issues : list ExplainIssue) (e : pyexc) :
  keyed issues = Raise e -> e = KeyError.
Proof.
  induction issues as [|x t IH]; [discriminate|].
  cbn [keyed]. destruct (severity_key x) as [k|e'] eqn:E; cbn [bind].
  - destruct (keyed t) as [r|e']; cbn [bind]; [discriminate|].
    intros H. injection H as <-. now apply IH.
  - intros H. injection H as <-. now apply severity_key_error in E.
Qed.

(** *** The severities of the issues of the parsers *)

Lemma ratio_issues_known (nt : str) (est : Z) (act : option Z)
  (l : list ExplainIssue) :
  ratio_issues nt est act = Ok l -> Forall known_severity l.
Proof.
  unfold ratio_issues. destruct act as [a|]; [destruct (0 <? est)%Z|];
    try (intros H; injection H as <-; constructor).
  destruct (true_div a est) as [q|e]; cbn [bind]; [|discriminate].
  destruct (_ || _); intros H; injection H as <-; knowns.
Qed.

Lemma node_of_match_known (line : str) (st : mstate)
  (ni : ExplainNode * list ExplainIssue) :
  node_of_match line st = Ok ni -> Forall known_severity (snd ni).
Proof.
  unfold node_of_match.
  destruct (float_group 3 st); cbn [bind]; [|discriminate].
  destruct (float_group 4 st); cbn [bind]; [|discriminate].
  destruct (int_group 5 st) as [est|]; cbn [bind]; [|discriminate].
  match goal with |- context [bind ?x _] => destruct x as [[[at_ ar] lo]|] end;
    cbn [bind]; [|discriminate].
  destruct (ratio_issues _ est ar) as [ratio|] eqn:R; cbn [bind];
    [|discriminate].
  apply ratio_issues_known in R.
  intros H. injection H as <-. cbn [snd]. rewrite !Forall_app.
  repeat split; auto.
  - destruct (contains _ _); knowns.
  - destruct lo as [n|]; [|constructor].
    destruct (_ && _); knowns.
Qed.

Lemma line_warnings_known (line : str) (l : list ExplainIssue) :
  line_warnings line = Ok l -> Forall known_severity l.
Proof.
  unfold line_warnings.
  assert (S : Forall known_severity
                (if contains (py "Sort Method: external") line
                 then [sort_spill_issue] else []))
    by (destruct (contains _ line); knowns).
  destruct (contains (py "Buffers: shared read") line);
    [|intros H; injection H as <-; exact S].
  destruct (re_search re_shared_read line) as [[p st]|];
    [|intros H; injection H as <-; exact S].
  destruct (int_group 1 st) as [pages|]; cbn [bind]; [|discriminate].
  destruct (10000 <? pages)%Z; intros H; injection H as <-; [|exact S].
  rewrite Forall_app. split; [exact S|]. knowns.
Qed.

Lemma postgres_line_known (line : str)
  (r : option ExplainNode * list ExplainIssue) :
  postgres_line line = Ok r -> Forall known_severity (snd r).
Proof.
  unfold postgres_line. destruct (is_footer line);
    [intros H; injection H as <-; constructor|].
  destruct (re_match node_pattern line) as [st|].
  - destruct (node_of_match line st) as [ni|] eqn:N; cbn [bind];
      [|discriminate].
    apply node_of_match_known in N.
    destruct (line_warnings line) as [w|] eqn:W; cbn [bind]; [|discriminate].
    apply line_warnings_known in W.
    intros H. injection H as <-. cbn [snd]. now rewrite Forall_app.
  - cbn [bind]. destruct (line_warnings line) as [w|] eqn:W; cbn [bind];
      [|discriminate].
    apply line_warnings_known in W. intros H. now injection H as <-.
Qed.

Lemma postgres_lines_known (lines : list str) :
  forall nodes issues r,
    postgres_lines lines nodes issues = Ok r ->
    Forall known_severity issues -> Forall known_severity (snd r).
Proof.
  induction lines as [|line t IH]; intros nodes issues r.
  - cbn. intros H. now injection H as <-.
  - cbn [postgres_lines]. destruct (postgres_line line) as [x|] eqn:L;
      cbn [bind]; [|discriminate].
    apply postgres_line_known in L. intros H F. apply IH in H; auto.
    now rewrite Forall_app.
Qed.

Lemma node_of_cells_known (line : str) (parts : list str)
  (ni : ExplainNode * list ExplainIssue) :
  node_of_cells line parts = Ok ni -> Forall known_severity (snd ni).
Proof.
  unfold node_of_cells.
  match goal with |- context [bind ?x _] => destruct x end; cbn [bind];
    [|discriminate].
  intros H. injection H as <-. cbn [snd]. rewrite !Forall_app.
  repeat split;
    match goal with |- context [if ?b then _ else _] => destruct b end;
    knowns.
Qed.

Lemma mysql_line_known (line : str)
  (r : option ExplainNode * list ExplainIssue) :
  mysql_line line = Ok r -> Forall known_severity (snd r).
Proof.
  unfold mysql_line. destruct (is_header line);
    [intros H; injection H as <-; constructor|].
  destruct (10 <=? length (cells line));
    [|intros H; injection H as <-; constructor].
  destruct (node_of_cells line (cells line)) as [ni|] eqn:N; cbn [bind];
    [|discriminate].
  apply node_of_cells_known in N. intros H. now injection H as <-.
Qed.

Lemma mysql_lines_known (lines : list str) :
  forall nodes issues r,
    mysql_lines lines nodes issues = Ok r ->
    Forall known_severity issues -> Forall known_severity (snd r).
Proof.
  induction lines as [|line t IH]; intros nodes issues r.
  - cbn. intros H. now injection H as <-.
  - cbn [mysql_lines]. destruct (mysql_line line) as [x|] eqn:L;
      cbn [bind]; [|discriminate].
    apply mysql_line_known in L. intros H F. apply IH in H; auto.
    now rewrite Forall_app.
Qed.

Section BlockSeverities.
Variable json_dumps : pyval -> str.
Variable py_str : pyval -> str.

Lemma table_node_known (block : pyval) (ni : ExplainNode * list ExplainIssue) :
  table_node json_dumps py_str block = Ok ni -> Forall known_severity (snd ni).
Proof.
  unfold table_node.
  repeat (match goal with |- context [bind ?x _] => destruct x end;
          cbn [bind]; [|discriminate]).
  intros H. injection H as <-. cbn [snd].
  destruct (is_pystr _ _); knowns.
Qed.

Section NestedLoops.
Variable pb : pyval -> plan -> res plan.
Hypothesis pb_known :
  forall b acc r, pb b acc = Ok r ->
                  Forall known_severity (snd acc) -> Forall known_severity (snd r).

Lemma process_items_known (items : list pyval) :
  forall acc r, process_items pb items acc = Ok r ->
                Forall known_severity (snd acc) -> Forall known_severity (snd r).
Proof.
  induction items as [|item rest IH]; intros acc r.
  - cbn. intros H. now injection H as <-.
  - cbn [process_items]. destruct (is_dict item); [|apply IH].
    destruct (pb item acc) as [acc'|] eqn:E; cbn [bind]; [|discriminate].
    intros H F. apply IH in H; auto. now apply (pb_known _ _ _ E).
Qed.

Lemma process_keys_known (block : pyval) (ks : list str) :
  forall acc r, process_keys pb block ks acc = Ok r ->
                Forall known_severity (snd acc) -> Forall known_severity (snd r).
Proof.
  induction ks as [|k ks IH]; intros acc r.
  - cbn. intros H. now injection H as <-.
  - cbn [process_keys]. destruct (py_in k block) as [[|]|]; cbn [bind];
      [|apply IH|discriminate].
    destruct (getitem block k) as [v|]; cbn [bind]; [|discriminate].
    destruct (process_items pb _ acc) as [acc'|] eqn:E; cbn [bind];
      [|discriminate].
    intros H F. apply IH in H; auto. now apply (process_items_known _ _ _ E).
Qed.

End NestedLoops.

Lemma process_block_known (depth : nat) :
  forall block acc r,
    process_block json_dumps py_str depth block acc = Ok r ->
    Forall known_severity (snd acc) -> Forall known_severity (snd r).
Proof.
  induction depth as [|depth IH]; intros block acc r; [discriminate|].
  rewrite process_block_step.
  destruct (py_in (py "table") block) as [[|]|]; cbn [bind]; [| |discriminate].
  - destruct (table_node json_dumps py_str block) as [ni|] eqn:T; cbn [bind];
      [|discriminate].
    apply table_node_known in T. intros H F.
    apply (process_keys_known _ IH) in H; auto. cbn [snd].
    now rewrite Forall_app.
  - now apply process_keys_known.
Qed.

Lemma parse_mysql_explain_known (json_loads : str -> option pyval)
  (depth : nat) (text : str) (r : plan) :
  parse_mysql_explain json_dumps py_str json_loads depth text = Ok r ->
  Forall known_severity (snd r).
Proof.
  assert (T : parse_mysql_tabular text = Ok r -> Forall known_severity (snd r))
    by (intros H; apply (mysql_lines_known _ _ _ _ H); constructor).
  unfold parse_mysql_explain. destruct (json_loads text) as [data|]; [|exact T].
  destruct (py_in (py "query_block") data) as [[|]|]; cbn [bind];
    [|exact T|discriminate].
  unfold parse_mysql_explain_json.
  destruct (py_get data (py "query_block") data) as [block|]; cbn [bind];
    [|discriminate].
  intros H. apply (process_block_known _ _ _ _ H). constructor.
Qed.

End BlockSeverities.

(** X19.  The report of explain_parser.py lists the issues by severity:
    [sorted] with the key [{'HIGH': 0, 'MEDIUM': 1, 'LOW': 2}[x.severity]]
    returns the HIGH issues, then the MEDIUM ones, then the LOW ones, each
    in the order of the plan, when every severity is one of the three, and
    raises [KeyError] otherwise.  Every issue of the PostgreSQL parser and
    of the MySQL parsers has one of the three severities, so the report
    never raises on what the parsers return. *)
Theorem report_orders_by_severity :
  (forall issues,
      (Forall known_severity issues ->
       sorted_issues issues
       = Ok (with_severity (py "HIGH") issues
             ++ with_severity (py "MEDIUM") issues
             ++ with_severity (py "LOW") issues))
      /\ (~ Forall known_severity issues ->
          sorted_issues issues = Raise KeyError))
  /\ (forall json_dumps py_str json_loads depth text nodes issues,
         parse_postgres_explain text = Ok (nodes, issues)
         \/ parse_mysql_explain json_dumps py_str json_loads depth text
            = Ok (nodes, issues) ->
         sorted_issues issues
         = Ok (with_severity (py "HIGH") issues
               ++ with_severity (py "MEDIUM") issues
               ++ with_severity (py "LOW") issues)).
Proof.
  split.
  - intros issues. split; [apply sorted_known|].
    intros N. unfold sorted_issues.
    destruct (keyed issues) as [ks|e] eqn:E; cbn [bind].
    + destruct N. now apply keyed_ok in E.
    + now apply keyed_error in E as ->.
  - intros json_dumps py_str json_loads depth text nodes issues [H|H];
      apply sorted_known.
    + apply (postgres_lines_known _ _ _ _ H). constructor.
    + apply (parse_mysql_explain_known _ _ _ _ _ _ H).
Qed.

Lemma report_orders_by_severity_witness :
  sorted_issues
    [buffer_issue (py "20000"); sort_spill_issue;
     seq_scan_issue (py "Seq Scan") (Some (py "t"))]
  = Ok [sort_spill_issue; seq_scan_issue (py "Seq Scan") (Some (py "t"));
        buffer_issue (py "20000")].
Proof.
  apply (proj1 (proj1 report_orders_by_severity
                  [buffer_issue (py "20000"); sort_spill_issue;
                   seq_scan_issue (py "Seq Scan") (Some (py "t"))])).
  knowns.
Defined.

End ReportOrder.

(* ================================================================== *)
(** ** The lines the PostgreSQL parser passes over *)
(* ================================================================== *)

Section IgnoredLines.
Import ExplainParser PlanResults.

Lemma startswith_In (p s : str) :
  startswith p s = true -> forall c, In c p -> In c s.
Proof.
  revert s. induction p as [|a p IH]; intros s H c Hc; [contradiction|].
  destruct s as [|d s]; [discriminate|]. cbn [startswith] in H.
  apply andb_true_iff in H. destruct H as [Ha Hp].
  apply Ascii.eqb_eq in Ha. subst d.
  destruct Hc as [<-|Hc]; [now left | right; now apply (IH s)].
Qed.

Lemma contains_In (sub s : str) :
  sub <> [] -> contains sub s = true -> forall c, In c sub -> In c s.
Proof.
  intros Hne. induction s as [|d s IH]; intros H c Hc.
  - destruct sub; [congruence | discriminate].
  - cbn [contains] in H. apply orb_true_iff in H. destruct H as [H|H].
    + now apply (startswith_In sub).
    + right. now apply IH.
Qed.

Lemma plain_line_no (line : str) (c : ascii) :
  plain_line line = true -> In c line ->
  Ascii.eqb "(" c = false /\ Ascii.eqb ":" c = false.
Proof.
  unfold plain_line. rewrite forallb_forall. intros H Hc.
  specialize (H c Hc). apply negb_true_iff, orb_false_iff in H. exact H.
Qed.

Lemma plain_line_contains (sub line : str) :
  In ":"%char sub -> plain_line line = true -> contains sub line = false.
Proof.
  intros Hc Hp. destruct (contains sub line) eqn:E; [|reflexivity].
  assert (Hne : sub <> []) by (destruct sub; [contradiction | discriminate]).
  destruct (plain_line_no line ":" Hp (contains_In sub line Hne E _ Hc))
    as [_ H].
  discriminate H.
Qed.

Lemma node_pattern_paren : requires (Ascii.eqb "(") node_pattern.
Proof.
  unfold node_pattern. cbn [Seqs requires]. do 5 right. left.
  change (py "(cost=") with ("("%char :: py "cost=").
  cbn [Str requires]. left. unfold Lit. cbn [requires]. auto.
Qed.

Lemma plain_line_no_node (line : str) :
  plain_line line = true -> re_match node_pattern line = None.
Proof.
  intros Hp. unfold re_match.
  destruct (match_at node_pattern 0 None line) as [st|] eqn:E; [|reflexivity].
  apply match_at_sound in E.
  destruct (@reach_requires _ _ node_pattern_paren _ _ E) as (c & Hc & Hq).
  cbn [rest] in Hc. destruct (plain_line_no line c Hp Hc) as [H _].
  congruence.
Qed.

Lemma ignored_line_nothing (line : str) :
  ignored_line line = true -> postgres_line line = Ok (None, []).
Proof.
  unfold ignored_line, postgres_line. intros H.
  destruct (is_footer line); [reflexivity|]. cbn [orb] in H.
  rewrite (plain_line_no_node line H). cbn [bind].
  unfold line_warnings.
  rewrite (plain_line_contains (py "Sort Method: external") line)
    by (vm_compute; tauto || exact H).
  rewrite (plain_line_contains (py "Buffers: shared read") line)
    by (vm_compute; tauto || exact H).
  reflexivity.
Qed.

Lemma postgres_lines_ignore (lines : list str) :
  forall nodes issues,
    postgres_lines (filter (fun l => negb (ignored_line l)) lines) nodes issues
    = postgres_lines lines nodes issues.
Proof.
  induction lines as [|line t IH]; intros nodes issues; [reflexivity|].
  cbn [filter]. destruct (ignored_line line) eqn:E; cbn [negb].
  - cbn [postgres_lines]. rewrite (ignored_line_nothing line E).
    cbn [bind fst snd]. rewrite app_nil_r. apply IH.
  - cbn [postgres_lines]. destruct (postgres_line line); cbn [bind];
      [apply IH | reflexivity].
Qed.

(** X20.  The PostgreSQL parser passes over every line that starts, after
    its blanks, with [Planning], [Execution] or [Total runtime], and every
    line without an opening parenthesis and without a colon, such as a
    blank line, a ruler or the heading of the plan: such a line gives no
    node, no issue and no exception, so the result is the one of the text
    without these lines. *)
Theorem postgres_parser_ignores_decoration :
  (forall line,
      ignored_line line = true -> postgres_line line = Ok (None, []))
  /\ (forall text,
         parse_postgres_explain text
         = postgres_lines
             (filter (fun l => negb (ignored_line l))
                     (split newline (strip text))) [] []).
Proof.
  split; [exact ignored_line_nothing|].
  intros text. unfold parse_postgres_explain.
  symmetry. apply postgres_lines_ignore.
Qed.

Lemma postgres_parser_ignores_decoration_witness :
  postgres_line (py "Planning Time: 0.1 ms (estimated)") = Ok (None, [])
  /\ postgres_line (py "------ QUERY PLAN ------") = Ok (None, []).
Proof.
  split; apply (proj1 postgres_parser_ignores_decoration); reflexivity.
Defined.

End IgnoredLines.

(* ================================================================== *)
(** ** The queries of a log file *)
(* ================================================================== *)

Section LogFile.
Import QueryAnalyzer QueryLog.

Lemma stripped_trimmed (matches : list str) : Forall trimmed (stripped matches).
Proof.
  unfold stripped. apply Forall_forall. intros q Hq.
  apply in_map_iff in Hq. destruct Hq as (x & <- & Hx).
  apply filter_In in Hx. destruct Hx as [_ Hx].
  apply negb_true_iff, str_eqb_neq in Hx.
  split; [exact Hx | apply strip_idem].
Qed.

Lemma keyword_lines_trimmed (content : str) :
  Forall (fun q => trimmed q /\ keyword_line q = true) (keyword_lines content).
Proof.
  unfold keyword_lines. apply Forall_forall. intros q Hq.
  apply filter_In in Hq. destruct Hq as [Hq Hk].
  apply andb_true_iff in Hk. destruct Hk as [Hne Hk].
  apply negb_true_iff, str_eqb_neq in Hne.
  apply in_map_iff in Hq. destruct Hq as (x & <- & _).
  split; [split; [exact Hne | apply strip_idem] | exact Hk].
Qed.

Lemma first_pattern_trimmed (ps : list (regex * (str -> bool))) (content : str) :
  Forall trimmed (first_pattern ps content).
Proof.
  induction ps as [|[r ahead] ps IH]; [constructor|]. cbn [first_pattern].
  destruct (findall_ahead r ahead 1 0 None content 0); [exact IH|].
  apply stripped_trimmed.
Qed.

(** *** A text without colon and semicolon *)

Lemma match_ahead_requires (q : ascii -> bool) (r : regex) (ahead : str -> bool)
  (p : nat) (pv : option ascii) (s : str) :
  requires q r -> forallb (fun c => negb (q c)) s = true ->
  match_ahead r ahead p pv s = None.
Proof.
  intros Hr Hs. unfold match_ahead.
  destruct (m r (MState p pv s [])
              (fun st => if ahead (rest st) then Some st else None))
    as [x|] eqn:E; [|reflexivity].
  apply m_sound in E. destruct E as (st' & Hreach & _).
  destruct (@reach_requires q r Hr _ _ Hreach) as (c & Hin & Hq).
  cbn [rest] in Hin. rewrite forallb_forall in Hs.
  specialize (Hs c Hin). rewrite Hq in Hs. discriminate.
Qed.

Lemma findall_ahead_requires (q : ascii -> bool) (r : regex)
  (ahead : str -> bool) (g : nat) (s : str) :
  requires q r -> forallb (fun c => negb (q c)) s = true ->
  forall p pv skip, findall_ahead r ahead g p pv s skip = [].
Proof.
  intros Hr. induction s as [|c t IH]; intros Hs p pv skip; [reflexivity|].
  pose proof Hs as Hs'. cbn [forallb] in Hs'. apply andb_true_iff in Hs'.
  destruct Hs' as [_ Ht]. cbn [findall_ahead].
  destruct skip as [|k]; [|now apply IH].
  rewrite (match_ahead_requires q r ahead p pv (c :: t) Hr Hs). now apply IH.
Qed.

Lemma upper_char_colon (c : ascii) :
  Ascii.eqb (upper_char ":") (upper_char c) = true -> Ascii.eqb c ":" = true.
Proof.
  destruct c as [[] [] [] [] [] [] [] []]; vm_compute; intros H;
    first [reflexivity | discriminate H].
Qed.

Lemma sequelize_requires : requires (fun c => Ascii.eqb c ":") re_sequelize.
Proof.
  unfold re_sequelize, py. cbn -[Ascii.eqb].
  right. right. left. right. left. exact upper_char_colon.
Qed.

Lemma prisma_requires : requires (fun c => Ascii.eqb c ":") re_prisma.
Proof.
  unfold re_prisma, py. cbn -[Ascii.eqb].
  left. do 5 right. left. exact upper_char_colon.
Qed.

Lemma statement_requires : requires (fun c => Ascii.eqb c ";") re_statement.
Proof.
  unfold re_statement, py. cbn -[Ascii.eqb].
  right. right. right. intros c H. now rewrite Ascii.eqb_sym.
Qed.

Lemma forallb_weaken {A : Type} (P Q : A -> bool) (l : list A) :
  (forall x, P x = true -> Q x = true) ->
  forallb P l = true -> forallb Q l = true.
Proof.
  intros H. rewrite !forallb_forall. auto.
Qed.

Lemma plain_log (content : str) :
  forallb (fun c => negb (Ascii.eqb c ":" || Ascii.eqb c ";")) content = true ->
  first_pattern patterns content = [].
Proof.
  intros H. unfold patterns. cbn [first_pattern].
  rewrite (findall_ahead_requires (fun c => Ascii.eqb c ":") re_sequelize _ 1
             content sequelize_requires).
  2:{ revert H. apply forallb_weaken. intros c Hc.
      apply negb_true_iff, orb_false_iff in Hc. apply negb_true_iff. tauto. }
  rewrite (findall_ahead_requires (fun c => Ascii.eqb c ":") re_prisma _ 1
             content prisma_requires).
  2:{ revert H. apply forallb_weaken. intros c Hc.
      apply negb_true_iff, orb_false_iff in Hc. apply negb_true_iff. tauto. }
  rewrite (findall_ahead_requires (fun c => Ascii.eqb c ";") re_statement _ 1
             content statement_requires).
  2:{ revert H. apply forallb_weaken. intros c Hc.
      apply negb_true_iff, orb_false_iff in Hc. apply negb_true_iff. tauto. }
  reflexivity.
Qed.

(** X16.  Every query [parse_log_file] returns is not empty and has no
    blanks at its ends, whichever pattern found it.  For a log without
    colon and semicolon no pattern has a match, and the queries are the
    trimmed lines that start with SELECT, INSERT, UPDATE, DELETE or WITH
    in any case, in the order of the log; every other line is dropped. *)
Theorem log_queries_trimmed :
  (forall content, Forall trimmed (parse_log_file content))
  /\ (forall content,
         forallb (fun c => negb (Ascii.eqb c ":" || Ascii.eqb c ";")) content
         = true ->
         parse_log_file content
         = filter (fun line => negb (str_eqb line []) && keyword_line line)
                  (map strip (split newline content))).
Proof.
  split.
  - intros content. unfold parse_log_file.
    pose proof (first_pattern_trimmed patterns content) as H.
    destruct (first_pattern patterns content); [|exact H].
    eapply Forall_impl; [|apply keyword_lines_trimmed]. now intros q [Hq _].
  - intros content H. unfold parse_log_file. now rewrite plain_log.
Qed.

Lemma log_queries_trimmed_witness :
  parse_log_file
    (py "  select * from users  " ++ newline ++ py "-- a comment" ++ newline
        ++ py "UPDATE users SET name = 'x'")
  = [py "select * from users"; py "UPDATE users SET name = 'x'"].
Proof.
  rewrite (proj2 log_queries_trimmed) by reflexivity.
  vm_compute. reflexivity.
Defined.

End LogFile.

Section Lookahead.
Import QueryAnalyzer QueryLog.

Lemma m_strI (pat : str) :
  forall st k,
    m (StrI pat) st k
    = if startswith_nocase pat (rest st) then k (fwd (length pat) st) else None.
Proof.
  induction pat as [|a pat IH]; intros st k; cbn [StrI m].
  - now destruct (rest st).
  - destruct (rest st) as [|c t] eqn:E; cbn [startswith_nocase]; [reflexivity|].
    destruct (Ascii.eqb (upper_char a) (upper_char c)); cbn [andb]; [|reflexivity].
    rewrite IH. cbn [advance rest length fwd]. now rewrite E.
Qed.

(** A greedy star whose continuation accepts the end of the run stops
    there. *)
Lemma star_chr_greedy (p : ascii -> bool) (k : mstate -> option mstate)
  (x : mstate) :
  forall fuel st,
    length (rest st) < fuel ->
    k (fwd (run p (rest st)) st) = Some x ->
    star_loop (m (Chr p)) k fuel st = Some x.
Proof.
  induction fuel as [|f IH]; intros st Hf Hk; [lia|].
  rewrite star_chr_step. destruct (rest st) as [|c t] eqn:E; [exact Hk|].
  cbn [run] in Hk. destruct (p c) eqn:Ep; [|exact Hk].
  cbn [fwd] in Hk. rewrite E in Hk. cbn [length] in Hf.
  rewrite (IH (advance c t st)); [reflexivity | cbn [advance rest]; lia | exact Hk].
Qed.

Lemma m_star_greedy (p : ascii -> bool) (k : mstate -> option mstate)
  (st x : mstate) :
  k (fwd (run p (rest st)) st) = Some x -> m (Star (Chr p)) st k = Some x.
Proof. intros H. cbn [m]. apply star_chr_greedy; [lia | exact H]. Qed.

(** A lazy run of any characters stops at the first place the
    continuation accepts. *)
Lemma lazy_any_first (k : mstate -> option mstate) (x : mstate) :
  forall n fuel st,
    n <= length (rest st) -> n < fuel ->
    (forall j, j < n -> k (fwd j st) = None) ->
    k (fwd n st) = Some x ->
    lazy_loop (m Any) k fuel st = Some x.
Proof.
  induction n as [|n IH]; intros fuel st Hn Hf Hj Hk.
  - destruct fuel as [|f]; [lia|]. cbn [lazy_loop fwd] in *. now rewrite Hk.
  - destruct fuel as [|f]; [lia|]. cbn [lazy_loop].
    pose proof (Hj 0 ltac:(lia)) as H0. cbn [fwd] in H0. rewrite H0.
    unfold Any at 1. cbn [m].
    destruct (rest st) as [|c t] eqn:E; [cbn [length] in Hn; lia|].
    cbn [advance pos].
    rewrite (proj2 (Nat.ltb_lt _ _) (Nat.lt_succ_diag_r _)).
    cbn [length] in Hn. apply IH.
    + cbn [advance rest]. lia.
    + lia.
    + intros j Hlt. specialize (Hj (S j) ltac:(lia)). cbn [fwd] in Hj.
      now rewrite E in Hj.
    + cbn [fwd] in Hk. now rewrite E in Hk.
Qed.

Lemma m_lazy_plus_any (k : mstate -> option mstate) (x : mstate) (n : nat)
  (st : mstate) :
  S n <= length (rest st) ->
  (forall j, j < n -> k (fwd (S j) st) = None) ->
  k (fwd (S n) st) = Some x ->
  m (LazyPlus Any) st k = Some x.
Proof.
  intros Hn Hj Hk. unfold LazyPlus, Any. cbn [m].
  destruct (rest st) as [|c t] eqn:E; [cbn [length] in Hn; lia|].
  cbn [length] in Hn. cbn [advance rest].
  apply (lazy_any_first k x n); cbn [advance rest].
  - lia.
  - lia.
  - intros j Hlt. specialize (Hj j Hlt). cbn [fwd] in Hj. now rewrite E in Hj.
  - cbn [fwd] in Hk. now rewrite E in Hk.
Qed.

(** A marker without a line feed does not start across the end of a
    line. *)
Lemma startswith_nocase_line (w a tail : str) :
  forallb (fun c => negb (Ascii.eqb (upper_char c) "010")) w = true ->
  w <> [] ->
  startswith_nocase w (a ++ newline ++ tail) = startswith_nocase w a.
Proof.
  intros Hw. revert a. induction w as [|k w IH]; intros a Hne; [congruence|].
  cbn [forallb] in Hw. apply andb_true_iff in Hw. destruct Hw as [Hk Hw].
  destruct a as [|c a]; cbn [app startswith_nocase].
  - unfold newline. cbn [app startswith_nocase].
    change (upper_char "010") with "010"%char.
    apply negb_true_iff in Hk. now rewrite Hk.
  - destruct w as [|k2 w]; [now destruct (a ++ newline ++ tail), a|].
    rewrite IH by (assumption || discriminate). reflexivity.
Qed.

Lemma contains_nocase_skipn (w q : str) (j : nat) :
  contains_nocase w q = false -> startswith_nocase w (skipn j q) = false.
Proof.
  revert j. induction q as [|c t IH]; intros j H.
  - rewrite skipn_nil. cbn [contains_nocase] in H.
    now apply orb_false_iff in H.
  - cbn [contains_nocase] in H. apply orb_false_iff in H. destruct H as [H1 H2].
    destruct j as [|j]; [exact H1 | now apply IH].
Qed.

End Lookahead.

Section LogEntries.
Import QueryAnalyzer QueryLog AsciiText.

Lemma m_seq (a b : regex) (st : mstate) (k : mstate -> option mstate) :
  m (Seq a b) st k = m a st (fun st' => m b st' k).
Proof. reflexivity. Qed.

Lemma m_grp (n : nat) (a : regex) (st : mstate) (k : mstate -> option mstate) :
  m (Grp n a) st k = m a st (fun st' => k (capture n st st')).
Proof. reflexivity. Qed.

Lemma startswith_nocase_app (p x : str) : startswith_nocase p (p ++ x) = true.
Proof.
  induction p as [|c p IH]; [reflexivity|]. cbn [app startswith_nocase].
  now rewrite Ascii.eqb_refl.
Qed.

Lemma trimmed_ends (q : str) :
  trimmed q ->
  exists c t, q = c :: t /\ is_space c = false
              /\ head_is is_space (rev q) = false.
Proof.
  intros [Hne E]. destruct (strip_ends q) as [H1 H2]. rewrite E in H1, H2.
  destruct q as [|c t]; [congruence|]. exists c, t. auto.
Qed.

Lemma strip_line (q : str) : trimmed q -> strip (q ++ newline) = q.
Proof.
  intros H. destruct (trimmed_ends q H) as (c & t & Eq & Hc & Hl).
  unfold strip. rewrite lstrip_fixed by (rewrite Eq; cbn [app head_is]; exact Hc).
  unfold rstrip. rewrite rev_app_distr.
  change (rev newline) with ["010"%char].
  change (lstrip (["010"%char] ++ rev q)) with (lstrip (rev q)).
  rewrite lstrip_fixed by exact Hl. apply rev_involutive.
Qed.

(** The end of a log line: the blanks after the marker and the statement
    up to the next marker or the end of the log. *)
Lemma tail_match (w ws q tail : str) (st : mstate) :
  forallb (fun c => negb (Ascii.eqb (upper_char c) "010")) w = true ->
  w <> [] ->
  forallb is_space ws = true -> logged w q ->
  word_or_end w tail = true ->
  rest st = ws ++ q ++ newline ++ tail ->
  exists x,
    m (Seq (Star Space) (Grp 1 (LazyPlus Any))) st
      (fun s => if word_or_end w (rest s) then Some s else None) = Some x
    /\ group 1 (caps x) = Some (q ++ newline)
    /\ pos x = pos st + length (ws ++ q ++ newline).
Proof.
  intros Hw Hwne Hws [Hq Hfree] Htail Hrest.
  destruct (trimmed_ends q Hq) as (c0 & q' & Eq & Hc0 & _).
  set (sa := fwd (length ws) st).
  assert (Hlen : length ws <= length (rest st)).
  { rewrite Hrest, length_app. lia. }
  assert (Hsa : rest sa = q ++ newline ++ tail).
  { unfold sa. rewrite rest_fwd, Hrest. apply skipn_prefix. }
  assert (Hpa : pos sa = pos st + length ws) by (now apply pos_fwd).
  set (x := capture 1 sa (fwd (S (length q)) sa)).
  assert (Hn : S (length q) <= length (rest sa)).
  { rewrite Hsa, !length_app. unfold newline. cbn [length]. lia. }
  assert (Hpx : pos (fwd (S (length q)) sa) = pos sa + S (length q))
    by (now apply pos_fwd).
  exists x. split; [|split].
  - rewrite m_seq. unfold Space. apply m_star_greedy.
    rewrite Hrest.
    rewrite (run_blanks ws (q ++ newline ++ tail) Hws)
      by (rewrite Eq; cbn [app head_is]; exact Hc0).
    fold sa. rewrite m_grp.
    apply (m_lazy_plus_any _ x (length q)); [exact Hn | |].
    + intros j Hj. cbn [capture rest]. rewrite rest_fwd, Hsa.
      rewrite skipn_app_le by lia.
      unfold word_or_end.
      rewrite (startswith_nocase_line w _ tail Hw Hwne).
      rewrite (contains_nocase_skipn w q (S j) Hfree).
      destruct (skipn (S j) q ++ newline ++ tail) eqn:E; [|reflexivity].
      apply (f_equal (@length _)) in E. rewrite !length_app in E.
      unfold newline in E. cbn [length] in E. lia.
    + cbn [capture rest]. rewrite rest_fwd, Hsa.
      replace (skipn (S (length q)) (q ++ newline ++ tail)) with tail.
      * now rewrite Htail.
      * rewrite app_assoc.
        replace (S (length q)) with (length (q ++ newline))
          by (rewrite length_app; unfold newline; cbn [length]; lia).
        now rewrite skipn_prefix.
  - unfold x. cbn [capture caps group Nat.eqb]. f_equal.
    rewrite Hpx, Hsa.
    replace (pos sa + S (length q) - pos sa) with (length (q ++ newline))
      by (rewrite length_app; unfold newline; cbn [length]; lia).
    rewrite app_assoc. now rewrite firstn_app, Nat.sub_diag, firstn_all, app_nil_r.
  - unfold x. cbn [capture pos]. rewrite Hpx, Hpa, !length_app.
    unfold newline. cbn [length]. lia.
Qed.

Lemma upper_char_paren (c : ascii) :
  Ascii.eqb (upper_char ")") (upper_char c) = true -> not_paren c = false.
Proof.
  destruct c as [[] [] [] [] [] [] [] []]; vm_compute; intros H;
    first [reflexivity | discriminate H].
Qed.

Lemma skipn_length_app {A : Type} (a b : list A) (n : nat) :
  n = length a -> skipn n (a ++ b) = b.
Proof. intros ->. apply skipn_prefix. Qed.

Lemma sequelize_match (p : nat) (pv : option ascii) (e : str * str) (tail : str) :
  logged_name (fst e) -> logged (py "Executing") (snd e) ->
  word_or_end (py "Executing") tail = true ->
  exists x,
    match_ahead re_sequelize (word_or_end (py "Executing")) p pv
      (sequelize_entry e ++ tail) = Some x
    /\ group 1 (caps x) = Some (snd e ++ newline)
    /\ pos x = p + length (sequelize_entry e).
Proof.
  destruct e as [name q]. cbn [fst snd]. intros [Hne Hn] Hq Htail.
  unfold match_ahead, re_sequelize, sequelize_entry. cbn [Seqs fst snd].
  set (K := fun st : mstate =>
              if word_or_end (py "Executing") (rest st) then Some st else None).
  set (s0 := MState p pv
               ((py "Executing (" ++ name ++ py "): " ++ q ++ newline) ++ tail) []).
  assert (R0 : rest s0
               = py "Executing (" ++ name ++ py "):" ++ py " " ++ q ++ newline ++ tail).
  { unfold s0. cbn [rest]. now rewrite <- !app_assoc. }
  set (s1 := fwd (length (py "Executing (")) s0).
  assert (R1 : rest s1 = name ++ py "):" ++ py " " ++ q ++ newline ++ tail).
  { unfold s1. rewrite rest_fwd, R0. apply skipn_prefix. }
  assert (P1 : pos s1 = p + length (py "Executing (")).
  { unfold s1. rewrite pos_fwd; [reflexivity|]. rewrite R0, length_app. lia. }
  set (s2 := fwd (length name) s1).
  assert (R2 : rest s2 = py "):" ++ py " " ++ q ++ newline ++ tail).
  { unfold s2. rewrite rest_fwd, R1. apply skipn_prefix. }
  assert (P2 : pos s2 = pos s1 + length name).
  { unfold s2. rewrite pos_fwd; [reflexivity|]. rewrite R1, length_app. lia. }
  set (s3 := fwd (length (py "):")) s2).
  assert (R3 : rest s3 = py " " ++ q ++ newline ++ tail).
  { unfold s3. rewrite rest_fwd, R2. apply skipn_prefix. }
  assert (P3 : pos s3 = pos s2 + length (py "):")).
  { unfold s3. rewrite pos_fwd; [reflexivity|]. rewrite R2, length_app. lia. }
  destruct (tail_match (py "Executing") (py " ") q tail s3 eq_refl
              ltac:(discriminate) eq_refl Hq Htail R3)
    as (x & Hx & Hg & Hp).
  exists x. split; [|split; [exact Hg|]].
  - rewrite m_seq, m_strI, R0, startswith_nocase_app. fold s1.
    rewrite m_seq. unfold NotLit.
    change (fun x0 : ascii => negb (Ascii.eqb ")" x0)) with not_paren.
    rewrite m_plus_det.
    2:{ intros st' c t E Hc. rewrite m_seq, m_strI, E.
        change (py "):") with (")"%char :: py ":"). cbn [startswith_nocase].
        destruct (Ascii.eqb (upper_char ")") (upper_char c)) eqn:Ec;
          [|reflexivity].
        apply upper_char_paren in Ec. congruence. }
    unfold sc_plus. rewrite R1.
    assert (Hr : run not_paren (name ++ py "):" ++ py " " ++ q ++ newline ++ tail)
                 = length name).
    { rewrite run_app_all by exact Hn.
      change (py "):" ++ py " " ++ q ++ newline ++ tail)
        with (")"%char :: ":"%char :: py " " ++ q ++ newline ++ tail).
      cbn [run not_paren Ascii.eqb Bool.eqb negb]. lia. }
    rewrite Hr.
    assert (Hl : (length name =? 0) = false).
    { apply Nat.eqb_neq. destruct name; [congruence | cbn [length]; lia]. }
    rewrite Hl. fold s2.
    rewrite m_seq, m_strI, R2, startswith_nocase_app. fold s3. exact Hx.
  - rewrite Hp, P3, P2, P1, !length_app.
    change (length (py "): ")) with 3. change (length (py "):")) with 2.
    change (length (py " ")) with 1. lia.
Qed.

Lemma prisma_match (p : nat) (pv : option ascii) (q tail : str) :
  logged (py "Query:") q ->
  word_or_end (py "Query:") tail = true ->
  exists x,
    match_ahead re_prisma (word_or_end (py "Query:")) p pv
      (prisma_entry q ++ tail) = Some x
    /\ group 1 (caps x) = Some (q ++ newline)
    /\ pos x = p + length (prisma_entry q).
Proof.
  intros Hq Htail.
  unfold match_ahead, re_prisma, prisma_entry. cbn [Seqs].
  set (s0 := MState p pv ((py "Query: " ++ q ++ newline) ++ tail) []).
  assert (R0 : rest s0 = py "Query:" ++ py " " ++ q ++ newline ++ tail).
  { unfold s0. cbn [rest]. now rewrite <- !app_assoc. }
  set (s1 := fwd (length (py "Query:")) s0).
  assert (R1 : rest s1 = py " " ++ q ++ newline ++ tail).
  { unfold s1. rewrite rest_fwd, R0. apply skipn_prefix. }
  assert (P1 : pos s1 = p + length (py "Query:")).
  { unfold s1. rewrite pos_fwd; [reflexivity|]. rewrite R0, length_app. lia. }
  destruct (tail_match (py "Query:") (py " ") q tail s1 eq_refl
              ltac:(discriminate) eq_refl Hq Htail R1)
    as (x & Hx & Hg & Hp).
  exists x. split; [|split; [exact Hg|]].
  - rewrite m_seq, m_strI, R0, startswith_nocase_app. fold s1. exact Hx.
  - rewrite Hp, P1, !length_app.
    change (length (py "Query: ")) with 7. change (length (py "Query:")) with 6.
    change (length (py " ")) with 1. lia.
Qed.

Lemma findall_ahead_skip (r : regex) (ahead : str -> bool) (g : nat)
  (x y : str) :
  forall p pv,
  exists p' pv',
    findall_ahead r ahead g p pv (x ++ y) (length x)
    = findall_ahead r ahead g p' pv' y 0.
Proof.
  induction x as [|c x IH]; intros p pv; [now exists p, pv|].
  cbn [app length findall_ahead]. apply IH.
Qed.

(** The matches in a log made of lines of one format. *)
Lemma findall_entries (A : Type) (r : regex) (w : str) (entry : A -> str)
  (text : A -> str) (good : A -> Prop) :
  (forall a, exists c t, entry a = c :: t) ->
  (forall a tail, startswith_nocase w (entry a ++ tail) = true) ->
  (forall p pv a tail,
      good a -> word_or_end w tail = true ->
      exists x,
        match_ahead r (word_or_end w) p pv (entry a ++ tail) = Some x
        /\ group 1 (caps x) = Some (text a)
        /\ pos x = p + length (entry a)) ->
  forall entries,
    Forall good entries ->
    forall p pv,
      findall_ahead r (word_or_end w) 1 p pv (concat (map entry entries)) 0
      = map text entries.
Proof.
  intros Hcons Hstart Hmatch entries H.
  induction H as [|a entries Ha _ IH]; intros p pv; [reflexivity|].
  cbn [map concat].
  assert (Htail : word_or_end w (concat (map entry entries)) = true).
  { destruct entries as [|b entries]; [unfold word_or_end; cbn;
                                        now rewrite orb_true_r|].
    cbn [map concat]. unfold word_or_end. now rewrite Hstart. }
  destruct (Hmatch p pv a _ Ha Htail) as (x & Hx & Hg & Hp).
  destruct (Hcons a) as (c & t & Ea). rewrite Ea in *.
  cbn [app findall_ahead]. cbn [app] in Hx. rewrite Hx, Hg. f_equal.
  replace (pos x - p - 1) with (length t) by (rewrite Hp; cbn [length]; lia).
  destruct (findall_ahead_skip r (word_or_end w) 1 t
              (concat (map entry entries)) (S p) (Some c)) as (p' & pv' & E).
  rewrite E. apply IH.
Qed.

Lemma stripped_lines (qs : list str) :
  Forall trimmed qs -> stripped (map (fun q => q ++ newline) qs) = qs.
Proof.
  induction 1 as [|q qs Hq _ IH]; [reflexivity|].
  unfold stripped in *. cbn [map filter]. rewrite (strip_line q Hq).
  destruct Hq as [Hne Hs]. apply str_eqb_neq in Hne. rewrite Hne.
  cbn [negb map]. apply str_eqb_neq in Hne.
  rewrite (strip_line q (conj Hne Hs)). now rewrite IH.
Qed.

Lemma contains_nocase_line (w a tail : str) :
  forallb (fun c => negb (Ascii.eqb (upper_char c) "010")) w = true ->
  w <> [] ->
  contains_nocase w (a ++ newline ++ tail)
  = contains_nocase w a || contains_nocase w tail.
Proof.
  intros Hw Hne. induction a as [|c a IH].
  - pose proof (startswith_nocase_line w [] tail Hw Hne) as H0.
    cbn [app] in *. unfold newline in *. cbn [app contains_nocase] in *.
    rewrite H0. destruct w; [congruence|]. reflexivity.
  - cbn [app contains_nocase].
    change (c :: a ++ newline ++ tail) with ((c :: a) ++ newline ++ tail).
    rewrite (startswith_nocase_line w (c :: a) tail Hw Hne), IH.
    now rewrite orb_assoc.
Qed.

Lemma findall_none_start (P : str) (r : regex) (ahead : str -> bool) (g : nat)
  (s : str) :
  contains_nocase P s = false ->
  forall p pv skip, findall_ahead (Seq (StrI P) r) ahead g p pv s skip = [].
Proof.
  induction s as [|c t IH]; intros H p pv skip; [reflexivity|].
  cbn [contains_nocase] in H. apply orb_false_iff in H. destruct H as [H1 H2].
  cbn [findall_ahead]. destruct skip as [|k]; [|now apply IH].
  unfold match_ahead. rewrite m_seq, m_strI. cbn [rest]. rewrite H1.
  now apply IH.
Qed.

Lemma prisma_entry_no_executing (q : str) :
  contains_nocase (py "Executing (") (py "Query: " ++ q)
  = contains_nocase (py "Executing (") q.
Proof.
  unfold py. cbn [String.list_ascii_of_string app contains_nocase].
  cbn [startswith_nocase]. reflexivity.
Qed.

Lemma prisma_log_no_executing (qs : list str) :
  Forall (fun q => contains_nocase (py "Executing (") q = false) qs ->
  contains_nocase (py "Executing (") (concat (map prisma_entry qs)) = false.
Proof.
  induction 1 as [|q qs Hq _ IH]; [reflexivity|].
  cbn [map concat]. unfold prisma_entry at 1.
  rewrite <- !app_assoc.
  change (py "Query: " ++ q ++ newline ++ concat (map prisma_entry qs))
    with ((py "Query: " ++ q) ++ newline ++ concat (map prisma_entry qs))
    || (rewrite (app_assoc (py "Query: ") q)).
  rewrite contains_nocase_line by (reflexivity || discriminate).
  now rewrite prisma_entry_no_executing, Hq, IH.
Qed.

(** X17.  A log of ASCII text written by Sequelize or by Prisma is read
    back whole: from lines [Executing (name): statement] the queries are
    the statements, one per line and in order, and from lines
    [Query: statement] likewise, for statements without blanks at their
    ends that do not hold the marker of the format ([Executing],
    [Query:], in any case).  A statement may run over several lines. *)
Theorem log_formats_read_back :
  (forall entries,
      Forall (fun e => ascii_text (fst e) /\ ascii_text (snd e)) entries ->
      Forall (fun e => logged_name (fst e)
                       /\ logged (py "Executing") (snd e)) entries ->
      parse_log_file (concat (map sequelize_entry entries)) = map snd entries)
  /\ (forall statements,
         Forall ascii_text statements ->
         Forall (fun q => logged (py "Query:") q
                          /\ contains_nocase (py "Executing (") q = false)
                statements ->
         parse_log_file (concat (map prisma_entry statements)) = statements).
Proof.
  split.
  - intros entries _ H.
    assert (F : findall_ahead re_sequelize (word_or_end (py "Executing")) 1 0 None
                  (concat (map sequelize_entry entries)) 0
                = map (fun e => snd e ++ newline) entries).
    { apply (findall_entries _ re_sequelize (py "Executing") sequelize_entry
               (fun e => snd e ++ newline)
               (fun e => logged_name (fst e) /\ logged (py "Executing") (snd e))).
      - intros a. unfold sequelize_entry.
        change (py "Executing (") with ("E"%char :: py "xecuting (").
        cbn [app]. eauto.
      - intros a tail. unfold sequelize_entry.
        change (py "Executing (") with (py "Executing" ++ py " (").
        rewrite <- !app_assoc. apply startswith_nocase_app.
      - intros p pv a tail [Hn Hq] Ht. now apply sequelize_match.
      - exact H. }
    assert (F' : findall_ahead re_sequelize (word_or_end (py "Executing")) 1 0 None
                   (concat (map sequelize_entry entries)) 0
                 = map (fun q => q ++ newline) (map snd entries))
      by (rewrite F; symmetry; apply map_map).
    assert (T : Forall trimmed (map snd entries)).
    { apply Forall_map. eapply Forall_impl; [|exact H]. now intros a [_ [Hq _]]. }
    unfold parse_log_file, patterns. cbn [first_pattern]. rewrite F'.
    destruct entries as [|e entries]; [reflexivity|].
    cbn [map].
    change ((snd e ++ newline) :: map (fun q => q ++ newline) (map snd entries))
      with (map (fun q => q ++ newline) (map snd (e :: entries))).
    rewrite (stripped_lines _ T). reflexivity.
  - intros qs _ H.
    assert (F1 : findall_ahead re_sequelize (word_or_end (py "Executing")) 1 0 None
                   (concat (map prisma_entry qs)) 0 = []).
    { apply (findall_none_start (py "Executing (")).
      apply prisma_log_no_executing.
      eapply Forall_impl; [|exact H]. now intros q [_ Hq]. }
    assert (F2 : findall_ahead re_prisma (word_or_end (py "Query:")) 1 0 None
                   (concat (map prisma_entry qs)) 0
                 = map (fun q => q ++ newline) qs).
    { apply (findall_entries _ re_prisma (py "Query:") prisma_entry
               (fun q => q ++ newline) (logged (py "Query:"))).
      - intros a. unfold prisma_entry.
        change (py "Query: ") with ("Q"%char :: py "uery: ").
        cbn [app]. eauto.
      - intros a tail. unfold prisma_entry.
        change (py "Query: ") with (py "Query:" ++ py " ").
        rewrite <- !app_assoc. apply startswith_nocase_app.
      - intros p pv a tail Hq Ht. now apply prisma_match.
      - eapply Forall_impl; [|exact H]. now intros q [Hq _]. }
    unfold parse_log_file, patterns. cbn [first_pattern]. rewrite F1, F2.
    destruct qs as [|q qs]; [reflexivity|].
    cbn [map].
    change ((q ++ newline) :: map (fun q0 => q0 ++ newline) qs)
      with (map (fun q0 => q0 ++ newline) (q :: qs)).
    rewrite stripped_lines; [reflexivity|].
    eapply Forall_impl; [|exact H]. now intros a [[Hq _] _].
Qed.

Lemma log_formats_read_back_witness :
  parse_log_file
    (py "Executing (default): SELECT * FROM users WHERE id = 1" ++ newline
        ++ py "Executing (default): SELECT *" ++ newline
        ++ py "  FROM orders" ++ newline)
  = [py "SELECT * FROM users WHERE id = 1";
     py "SELECT *" ++ newline ++ py "  FROM orders"].
Proof.
  apply (proj1 log_formats_read_back
           [(py "default", py "SELECT * FROM users WHERE id = 1");
            (py "default", py "SELECT *" ++ newline ++ py "  FROM orders")]).
  - repeat constructor.
  - repeat constructor; try discriminate; vm_compute; reflexivity.
Defined.

End LogEntries.

Section PlainStatements.
Import QueryAnalyzer QueryLog AsciiText.

Lemma m_alt (a b : regex) (st : mstate) (k : mstate -> option mstate) :
  m (Alt a b) st k
  = match m a st k with Some x => Some x | None => m b st k end.
Proof. reflexivity. Qed.

Lemma startswith_nocase_upper (a s : str) :
  startswith_nocase a s = startswith (upper a) (upper s).
Proof.
  revert s. induction a as [|c a IH]; intros s; [reflexivity|].
  destruct s as [|d s]; [reflexivity|].
  cbn [startswith_nocase upper map startswith]. now rewrite IH.
Qed.

Lemma keyword_head (k : str) :
  In (upper k) keywords ->
  exists c t, k = c :: t /\ is_space c = false.
Proof.
  intros H. destruct k as [|c t]; [cbn in H; intuition discriminate|].
  exists c, t. split; [reflexivity|].
  rewrite <- is_space_upper_char.
  cbn [upper map] in H. unfold keywords in H. cbn [In] in H.
  repeat match goal with H : _ \/ _ |- _ => destruct H as [H|H] end;
    try contradiction; injection H as <- _; reflexivity.
Qed.

(** The alternatives of the keywords: the one the text starts with is
    taken, whatever the continuation. *)
Lemma keyword_alt (k x : str) (st : mstate) (K : mstate -> option mstate) :
  In (upper k) keywords -> rest st = k ++ x ->
  m (Alt (StrI (py "SELECT")) (Alt (StrI (py "INSERT"))
       (Alt (StrI (py "UPDATE")) (Alt (StrI (py "DELETE"))
          (StrI (py "WITH")))))) st K
  = K (fwd (length k) st).
Proof.
  intros H R. rewrite !m_alt, !m_strI, R, !startswith_nocase_upper, upper_app.
  assert (L : length k = length (upper k)) by (symmetry; apply length_map).
  rewrite L.
  unfold keywords in H. cbn [In] in H.
  repeat match goal with H : _ \/ _ |- _ => destruct H as [H|H] end;
    try contradiction; rewrite <- H;
    unfold py; cbn [String.list_ascii_of_string upper map app startswith
                    upper_char Ascii.eqb Bool.eqb andb length];
    vm_compute upper_char; cbn [Ascii.eqb Bool.eqb andb];
    now destruct (K _).
Qed.

Lemma no_keyword_at_newline (p : nat) (pv : option ascii) (tail : str)
  (ahead : str -> bool) :
  match_ahead re_statement ahead p pv (newline ++ tail) = None.
Proof.
  unfold match_ahead, re_statement. cbn [Seqs].
  rewrite m_grp, m_seq, !m_alt, !m_strI. cbn [rest].
  unfold newline. cbn [app]. reflexivity.
Qed.

Lemma statement_match (p : nat) (pv : option ascii) (q tail : str) :
  plain_statement q ->
  exists x,
    match_ahead re_statement (fun _ => true) p pv (q ++ tail) = Some x
    /\ group 1 (caps x) = Some q
    /\ pos x = p + length q.
Proof.
  intros [k ws body Hk Hne Hws Hbne Hb Hsemi].
  unfold match_ahead, re_statement. cbn [Seqs].
  set (s0 := MState p pv ((k ++ ws ++ body ++ py ";") ++ tail) []).
  assert (R0 : rest s0 = k ++ ws ++ body ++ py ";" ++ tail).
  { unfold s0. cbn [rest]. now rewrite <- !app_assoc. }
  set (s1 := fwd (length k) s0).
  assert (R1 : rest s1 = ws ++ body ++ py ";" ++ tail).
  { unfold s1. rewrite rest_fwd, R0. apply skipn_prefix. }
  assert (P1 : pos s1 = p + length k).
  { unfold s1. rewrite pos_fwd; [reflexivity|]. rewrite R0, length_app. lia. }
  set (s2 := fwd (length ws) s1).
  assert (R2 : rest s2 = body ++ py ";" ++ tail).
  { unfold s2. rewrite rest_fwd, R1. apply skipn_prefix. }
  assert (P2 : pos s2 = pos s1 + length ws).
  { unfold s2. rewrite pos_fwd; [reflexivity|]. rewrite R1, length_app. lia. }
  set (s3 := fwd (length body) s2).
  assert (R3 : rest s3 = py ";" ++ tail).
  { unfold s3. rewrite rest_fwd, R2. apply skipn_prefix. }
  assert (P3 : pos s3 = pos s2 + length body).
  { unfold s3. rewrite pos_fwd; [reflexivity|]. rewrite R2, length_app. lia. }
  set (x := capture 1 s0 (advance ";" tail s3)).
  exists x. split; [|split].
  - rewrite m_grp, m_seq, (keyword_alt k _ s0 _ Hk R0). fold s1.
    rewrite m_seq. unfold Plus, Space. rewrite m_seq.
    destruct ws as [|w ws']; [congruence|].
    cbn [forallb] in Hws. apply andb_true_iff in Hws. destruct Hws as [Hw Hws'].
    cbn [m]. rewrite R1. cbn [app]. rewrite Hw.
    assert (S1 : fwd (length ws') (advance w (ws' ++ body ++ py ";" ++ tail) s1)
                 = s2).
    { unfold s2. cbn [length fwd]. now rewrite R1. }
    apply star_chr_greedy; [cbn [advance rest]; lia|].
    cbn [advance rest].
    rewrite (run_blanks ws' (body ++ py ";" ++ tail) Hws')
      by (destruct body; [congruence | exact Hb]).
    rewrite S1.
    destruct body as [|b0 body']; [congruence|].
    apply (m_lazy_plus_any _ x (length body')).
    + rewrite R2, length_app. cbn [length]. lia.
    + intros j Hj. unfold Lit. cbn [m]. rewrite rest_fwd, R2.
      cbn [skipn app].
      rewrite skipn_app_le by lia.
      cbn [forallb] in Hsemi. apply andb_true_iff in Hsemi.
      destruct Hsemi as [_ Hsemi].
      destruct (skipn j body') as [|c r] eqn:E.
      * apply (f_equal (@length _)) in E. rewrite length_skipn in E.
        cbn [length] in E. lia.
      * cbn [app].
        assert (Hc : In c body').
        { rewrite <- (firstn_skipn j body'). apply in_or_app. right.
          rewrite E. now left. }
        rewrite forallb_forall in Hsemi. specialize (Hsemi c Hc).
        apply negb_true_iff in Hsemi. now rewrite Hsemi.
    + change (S (length body')) with (length (b0 :: body')). fold s3.
      unfold Lit. cbn [m]. rewrite R3.
      change (py ";" ++ tail) with (";"%char :: tail).
      cbv iota beta. rewrite Ascii.eqb_refl. reflexivity.
  - unfold x. cbn [capture caps group Nat.eqb advance pos]. f_equal.
    rewrite P3, P2, P1. unfold s0. cbn [pos rest].
    replace (S (p + length k + length ws + length body) - p)
      with (length (k ++ ws ++ body ++ py ";"))
      by (rewrite !length_app; change (length (py ";")) with 1; lia).
    now rewrite firstn_app, Nat.sub_diag, firstn_all, app_nil_r.
  - unfold x. cbn [capture advance pos]. rewrite P3, P2, P1, !length_app.
    change (length (py ";")) with 1. lia.
Qed.

Lemma plain_statement_trimmed (q : str) : plain_statement q -> trimmed q.
Proof.
  intros [k ws body Hk Hne Hws Hbne Hb Hsemi].
  destruct (keyword_head k Hk) as (c & t & -> & Hc).
  split; [discriminate|].
  apply strip_fixed; [exact Hc|].
  rewrite !app_assoc, rev_app_distr. reflexivity.
Qed.

Lemma findall_statements (qs : list str) :
  Forall plain_statement qs ->
  forall p pv,
    findall_ahead re_statement (fun _ => true) 1 p pv
      (concat (map plain_entry qs)) 0
    = qs.
Proof.
  induction 1 as [|q qs Hq _ IH]; intros p pv; [reflexivity|].
  cbn [map concat]. unfold plain_entry at 1. rewrite <- app_assoc.
  destruct (statement_match p pv q (newline ++ concat (map plain_entry qs)) Hq)
    as (x & Hx & Hg & Hp).
  destruct (plain_statement_trimmed q Hq) as [Hne _].
  destruct q as [|c t]; [congruence|].
  cbn [app findall_ahead]. cbn [app] in Hx. rewrite Hx, Hg. f_equal.
  replace (pos x - p - 1) with (length t) by (rewrite Hp; cbn [length]; lia).
  destruct (findall_ahead_skip re_statement (fun _ => true) 1 t
              (newline ++ concat (map plain_entry qs)) (S p) (Some c))
    as (p' & pv' & E).
  rewrite E. unfold newline at 1. cbn [app findall_ahead].
  change ("010"%char :: concat (map plain_entry qs))
    with (newline ++ concat (map plain_entry qs)).
  rewrite no_keyword_at_newline. apply IH.
Qed.

Lemma lines_no_marker (w : str) (qs : list str) :
  forallb (fun c => negb (Ascii.eqb (upper_char c) "010")) w = true ->
  w <> [] ->
  Forall (fun q => contains_nocase w q = false) qs ->
  contains_nocase w (concat (map plain_entry qs)) = false.
Proof.
  intros Hw Hne. induction 1 as [|q qs Hq _ IH].
  - destruct w; [congruence | reflexivity].
  - cbn [map concat]. unfold plain_entry at 1. rewrite <- app_assoc.
    rewrite contains_nocase_line by assumption. now rewrite Hq, IH.
Qed.

Lemma stripped_fixed (qs : list str) : Forall trimmed qs -> stripped qs = qs.
Proof.
  induction 1 as [|q qs [Hne Hs] _ IH]; [reflexivity|].
  unfold stripped in *. cbn [filter]. rewrite Hs.
  apply str_eqb_neq in Hne. rewrite Hne. cbn [negb map]. now rewrite Hs, IH.
Qed.

(** X18.  A plain log of ASCII text is read back whole: from lines that
    each hold one statement closed by a semicolon, the queries are the
    statements with their semicolons, in order.  A statement is a keyword
    SELECT, INSERT, UPDATE, DELETE or WITH in any case, blanks, and a text
    without semicolon; it holds neither [Executing (] nor [Query:], which
    would make the log one of Sequelize or Prisma. *)
Theorem plain_statements_read_back :
  forall statements,
    Forall ascii_text statements ->
    Forall (fun q => plain_statement q
                     /\ contains_nocase (py "Executing (") q = false
                     /\ contains_nocase (py "Query:") q = false) statements ->
    parse_log_file (concat (map plain_entry statements)) = statements.
Proof.
  intros qs _ H.
  assert (F1 : findall_ahead re_sequelize (word_or_end (py "Executing")) 1 0 None
                 (concat (map plain_entry qs)) 0 = []).
  { apply (findall_none_start (py "Executing (")).
    apply lines_no_marker; [reflexivity | discriminate |].
    eapply Forall_impl; [|exact H]. now intros q (_ & Hq & _). }
  assert (F2 : findall_ahead re_prisma (word_or_end (py "Query:")) 1 0 None
                 (concat (map plain_entry qs)) 0 = []).
  { apply (findall_none_start (py "Query:")).
    apply lines_no_marker; [reflexivity | discriminate |].
    eapply Forall_impl; [|exact H]. now intros q (_ & _ & Hq). }
  assert (P : Forall plain_statement qs)
    by (eapply Forall_impl; [|exact H]; now intros q (Hq & _)).
  unfold parse_log_file, patterns. cbn [first_pattern].
  rewrite F1, F2, (findall_statements qs P).
  destruct qs as [|q qs]; [reflexivity|].
  rewrite stripped_fixed; [reflexivity|].
  eapply Forall_impl; [|exact P]. apply plain_statement_trimmed.
Qed.

Lemma plain_statements_read_back_witness :
  parse_log_file
    (py "SELECT * FROM users;" ++ newline
        ++ py "update users set name = 'a' where id = 1;" ++ newline)
  = [py "SELECT * FROM users;";
     py "update users set name = 'a' where id = 1;"].
Proof.
  apply (plain_statements_read_back
           [py "SELECT" ++ py " " ++ py "* FROM users" ++ py ";";
            py "update" ++ py " "
               ++ py "users set name = 'a' where id = 1" ++ py ";"]).
  { repeat constructor. }
  repeat first
    [ apply Forall_nil
    | apply Forall_cons;
      [ split; [apply plain_statement_intro; vm_compute; intuition discriminate
               | split; vm_compute; reflexivity] | ] ].
Defined.

End PlainStatements.
